(** * PyTriton inference-function decorators ([pytriton/decorators.py])

    A shallow embedding of the request batching and grouping decorators
    ([sample], [batch], [group_by_keys], [group_by_values],
    [fill_optionals], [triton_context], [pad_batch], [first_value],
    [convert_output]) together with the few
    Python and NumPy primitives they rely on, followed by the properties
    established about them.

    - Python exceptions are values of [exn]; a computation that may raise
      returns a [result].
    - A [dict] is an insertion-ordered association list, because the
      decorators read "the first input" of a request.
    - A NumPy array is a shape and a row-major buffer of integers.  The
      decorators move elements around; only [group_by_values] compares
      them, and the integers stand for the numbers of any dtype.  What a
      floating-point NaN does to [group_by_values] is the subject of the
      module [Float64].
    - The wrapped inference callable is opaque: it is a function of its
      argument and of an abstract world, and every invocation is recorded
      in a call log. *)

From Stdlib Require Import ZArith Lia Ascii.
From stdpp Require Import base option list strings gmap sorting.

(** ** Python prelude *)
Module Py.

(** Exceptions raised by the decorators and by the primitives they call. *)
Inductive exn : Type :=
| PytritonValidationError (msg : string)
| ValueError (msg : string)
| IndexError (msg : string)
| KeyError (key : string)
| TypeError (msg : string)
| AttributeError (msg : string)
| AxisError
| StopIteration.

Inductive result (A : Type) : Type :=
| Ok (a : A)
| Raise (e : exn).
Arguments Ok {A} a.
Arguments Raise {A} e.

Definition result_bind {A B} (f : A → result B) (m : result A) : result B :=
  match m with
  | Ok a => f a
  | Raise e => Raise e
  end.

#[global] Instance result_mret : MRet result := @Ok.
#[global] Instance result_mbind : MBind result := @result_bind.

(** [[f(x) for x in l]] where [f] may raise: the first exception wins. *)
Fixpoint mapM {A B} (f : A → result B) (l : list A) : result (list B) :=
  match l with
  | [] => Ok []
  | x :: l' => y ← f x; ys ← mapM f l'; Ok (y :: ys)
  end.

(** *** Insertion-ordered dictionaries with string keys *)
Abbreviation dict V := (list (string * V)) (only parsing).

Definition dict_keys {V} (d : dict V) : list string := map fst d.
Definition dict_values {V} (d : dict V) : list V := map snd d.

(** The [dict.keys()] view: two views compare equal as sets. *)
Definition keys_view {V} (d : dict V) : gset string := list_to_set (dict_keys d).

Fixpoint dict_get {V} (d : dict V) (k : string) : option V :=
  match d with
  | [] => None
  | (k', v) :: d' => if decide (k' = k) then Some v else dict_get d' k
  end.

(** [k in d] *)
Definition dict_contains {V} (d : dict V) (k : string) : bool :=
  match dict_get d k with Some _ => true | None => false end.

(** [d[k]] *)
Definition dict_getitem {V} (d : dict V) (k : string) : result V :=
  match dict_get d k with Some v => Ok v | None => Raise (KeyError k) end.

(** [d[k] = v]: an existing key keeps its position, a new key goes last. *)
Fixpoint dict_set {V} (d : dict V) (k : string) (v : V) : dict V :=
  match d with
  | [] => [(k, v)]
  | (k', v') :: d' =>
      if decide (k' = k) then (k, v) :: d' else (k', v') :: dict_set d' k v
  end.

(** [d.update(other)] *)
Definition dict_update {V} (d other : dict V) : dict V :=
  foldl (λ acc kv, dict_set acc kv.1 kv.2) d other.

(** [next(iter(d.values()))] *)
Definition first_value_of {V} (d : dict V) : result V :=
  match d with
  | [] => Raise StopIteration
  | (_, v) :: _ => Ok v
  end.

(** *** Rich comparison

    [py_lt] is Python's [<] on the key types that occur: integers,
    strings and tuples of comparable values; [==] is structural equality. *)
Class PyOrd (K : Type) := py_lt : K → K → bool.

#[global] Instance Z_pyord : PyOrd Z := Z.ltb.
#[global] Instance nat_pyord : PyOrd nat := Nat.ltb.
#[global] Instance string_pyord : PyOrd string := String.ltb.

(** Tuples compare lexicographically: the first differing position
    decides, and a proper prefix is smaller. *)
Fixpoint tuple_lt {K} `{EqDecision K} `{PyOrd K} (s t : list K) : bool :=
  match s, t with
  | [], [] => false
  | [], _ :: _ => true
  | _ :: _, [] => false
  | x :: s', y :: t' => if decide (x = y) then tuple_lt s' t' else py_lt x y
  end.

#[global] Instance tuple_pyord {K} `{EqDecision K} `{PyOrd K} : PyOrd (list K) :=
  tuple_lt.

#[global] Instance pair_pyord {A B} `{EqDecision A} `{PyOrd A} `{PyOrd B} :
  PyOrd (A * B) :=
  λ p q, if decide (p.1 = q.1) then py_lt p.2 q.2 else py_lt p.1 q.1.

(** The laws [<] obeys on integers and on tuples built from them: it is a
    strict total order. *)
Class PyOrdLaws (K : Type) `{PyOrd K} : Prop := {
  py_lt_irrefl (x : K) : py_lt x x = false;
  py_lt_trans (x y z : K) : py_lt x y = true → py_lt y z = true → py_lt x z = true;
  py_lt_total (x y : K) : py_lt x y = true ∨ x = y ∨ py_lt y x = true;
}.

(** [a] may precede [b] in a list sorted by [key]. *)
Definition key_le {A K} `{PyOrd K} (key : A → K) (a b : A) : Prop :=
  py_lt (key b) (key a) = false.

(** A group is a non-empty run of elements with one key. *)
Definition group_with_key {A K} (key : A → K) (k : K) (g : list A) : Prop :=
  g ≠ [] ∧ Forall (λ x, key x = k) g.

Definition ascending (a : list Z) : Prop := StronglySorted Z.le a.

(** *** [list.sort(key=...)] and [sorted]

    Python's sort is stable and only uses [<] on the keys.  It is modelled
    by a stable insertion sort. *)
Fixpoint insert_by {A K} `{PyOrd K} (key : A → K) (x : A) (l : list A) : list A :=
  match l with
  | [] => [x]
  | y :: l' =>
      if py_lt (key y) (key x) then y :: insert_by key x l' else x :: y :: l'
  end.

Definition sort_by {A K} `{PyOrd K} (key : A → K) (l : list A) : list A :=
  foldr (insert_by key) [] l.

Definition sorted {K} `{PyOrd K} (l : list K) : list K := sort_by id l.

(** *** [itertools.groupby]

    [groupby_from tgt l] consumes the elements of [l] whose key equals the
    target key of the group being built and returns them together with the
    groups that follow. *)
Fixpoint groupby_from {A K} `{EqDecision K} (key : A → K) (tgt : K) (l : list A)
  : list A * list (list A) :=
  match l with
  | [] => ([], [])
  | x :: l' =>
      if decide (key x = tgt) then
        let '(g, gs) := groupby_from key tgt l' in (x :: g, gs)
      else
        let '(g, gs) := groupby_from key (key x) l' in ([], (x :: g) :: gs)
  end.

Definition groupby {A K} `{EqDecision K} (key : A → K) (l : list A)
  : list (list A) :=
  match l with
  | [] => []
  | x :: l' => let '(g, gs) := groupby_from key (key x) l' in (x :: g) :: gs
  end.

(** [enumerate(l)] *)
Definition enumerate {A} (l : list A) : list (nat * A) := imap (λ i x, (i, x)) l.

(** [zip(a, b)] stops at the shorter argument. *)
Definition zip {A B} (a : list A) (b : list B) : list (A * B) := zip_with pair a b.

(** *** [bisect.bisect_left]

    The loop [while lo < hi: mid = (lo + hi) // 2; if a[mid] < x: lo = mid + 1
    else: hi = mid], run for at most [fuel] iterations.  With
    [lo < hi <= len(a)] the access [a[mid]] is always in range. *)
Fixpoint bisect_loop (fuel : nat) (a : list Z) (x : Z) (lo hi : nat) : nat :=
  match fuel with
  | O => lo
  | S fuel' =>
      if (lo <? hi)%nat then
        let mid := (lo + hi) / 2 in
        match a !! mid with
        | Some v =>
            if (v <? x)%Z then bisect_loop fuel' a x (mid + 1) hi
            else bisect_loop fuel' a x lo mid
        | None => lo
        end
      else lo
  end.

(** Each iteration at least halves [hi - lo], so [len(a)] iterations are
    more than enough for the loop to reach [lo >= hi]. *)
Definition bisect_left (a : list Z) (x : Z) : nat :=
  bisect_loop (S (length a)) a x 0 (length a).

End Py.

(** ** NumPy arrays *)
Module Np.
Import Py.

(** A dense array: its shape and its elements in row-major order.  Elements
    are integers: equality is reflexive and the order is total, as for the
    numbers of any dtype.  A floating-point NaN, which equals nothing and is
    ordered with nothing, cannot be written here; tensors that may hold one
    are modelled in [Float64]. *)
Record ndarray : Type := NDArray { shape : list nat; data : list Z }.

#[global] Instance ndarray_eq_dec : EqDecision ndarray.
Proof. solve_decision. Defined.

(** Number of elements of an array of the given shape. *)
Definition size_of (sh : list nat) : nat := foldr Nat.mul 1 sh.

(** The buffer holds exactly the elements the shape announces. *)
Definition wf_array (a : ndarray) : Prop := length (data a) = size_of (shape a).

(** [a.shape[0]] *)
Definition shape0 (a : ndarray) : result nat :=
  match shape a with
  | [] => Raise (IndexError "tuple index out of range")
  | n :: _ => Ok n
  end.

(** [buf.reshape(k, n)] seen as the list of its [k] rows of [n] elements. *)
Definition chunks (n : nat) (buf : list Z) (k : nat) : list (list Z) :=
  map (λ i, take n (drop (i * n) buf)) (seq 0 k).

(** The rows of [a] along axis 0, each flattened. *)
Definition rows_of (a : ndarray) : list (list Z) :=
  match shape a with
  | [] => []
  | n :: sh => chunks (size_of sh) (data a) n
  end.

(** The array of shape [len(rows) :: sh] made of the given rows. *)
Definition of_rows (sh : list nat) (rows : list (list Z)) : ndarray :=
  {| shape := length rows :: sh; data := concat rows |}.

(** [a.flatten()] *)
Definition flatten (a : ndarray) : list Z := data a.

(** [np.concatenate(arrs)] along axis 0. *)
Definition np_concatenate (arrs : list ndarray) : result ndarray :=
  match arrs with
  | [] => Raise (ValueError "need at least one array to concatenate")
  | a0 :: rest =>
      match shape a0 with
      | [] => Raise (ValueError "zero-dimensional arrays cannot be concatenated")
      | _ :: sh0 =>
          if forallb (λ a, match shape a with
                           | [] => false
                           | _ :: sh => bool_decide (sh = sh0)
                           end) rest
          then Ok {| shape := sum_list (map (λ a, hd 0 (shape a)) arrs) :: sh0;
                     data := concat (map data arrs) |}
          else Raise (ValueError "all the input array dimensions except for the concatenation axis must match exactly")
      end
  end.

(** [a[start:stop, ...]] for non-negative bounds: both are clipped to the
    axis length, and an empty range gives an empty array. *)
Definition np_slice0 (a : ndarray) (start stop : nat) : result ndarray :=
  match shape a with
  | [] => Raise (IndexError "too many indices for array")
  | n :: sh =>
      let s := start `min` n in
      let e := stop `min` n in
      Ok {| shape := (e - s) :: sh;
            data := take ((e - s) * size_of sh) (drop (s * size_of sh) (data a)) |}
  end.

(** [np.ones(k)] for a Python integer [k], as the list of its elements. *)
Definition np_ones (k : Z) : result (list Z) :=
  if (k <? 0)%Z then Raise (ValueError "negative dimensions are not allowed")
  else Ok (replicate (Z.to_nat k) 1%Z).

(** [np.repeat(a, repeats, axis=0)] with an array of repeat counts. *)
Definition np_repeat0 (a : ndarray) (repeats : list Z) : result ndarray :=
  match shape a with
  | [] => Raise AxisError
  | n :: sh =>
      if negb (bool_decide (length repeats = n) || bool_decide (length repeats = 1))
      then Raise (ValueError "operands could not be broadcast together")
      else if existsb (λ c, (c <? 0)%Z) repeats
      then Raise (ValueError "repeats may not contain negative values.")
      else
        let counts := if bool_decide (length repeats = n) then repeats
                      else replicate n (hd 0%Z repeats) in
        Ok (of_rows sh
              (concat (zip_with (λ row c, replicate (Z.to_nat c) row)
                        (rows_of a) counts)))
  end.

(** [np.tile(a, reps)], following NumPy's implementation: the shape is
    padded with leading ones up to [len(reps)] (and [reps] up to the rank),
    then, axis by axis, the buffer is reshaped to rows of [n] elements and
    each block of rows is repeated [nrep] times. *)
Fixpoint tile_loop (dims reps : list nat) (n : nat) (c : list Z) : list Z :=
  match dims, reps with
  | dim_in :: dims', nrep :: reps' =>
      let c' := if bool_decide (nrep = 1) then c
                else concat (concat (replicate nrep <$> chunks n c (length c / n))) in
      tile_loop dims' reps' (n / dim_in) c'
  | _, _ => c
  end.

Definition np_tile (a : ndarray) (reps : list nat) : ndarray :=
  let d := length reps `max` length (shape a) in
  let tup := replicate (d - length reps) 1 ++ reps in
  let c_shape := replicate (d - length (shape a)) 1 ++ shape a in
  let shape_out := zip_with Nat.mul c_shape tup in
  let n := size_of c_shape in
  {| shape := shape_out;
     data := if (0 <? n)%nat then tile_loop c_shape tup n (data a) else data a |}.

(** Adjacent duplicates are dropped. *)
Fixpoint uniq (rows : list (list Z)) : list (list Z) :=
  match rows with
  | [] => []
  | r :: rows' =>
      match rows' with
      | r' :: _ => if decide (r = r') then uniq rows' else r :: uniq rows'
      | [] => [r]
      end
  end.

(** [np.unique(a, axis=0)]: the distinct rows, in lexicographic order. *)
Definition np_unique0 (a : ndarray) : result ndarray :=
  match shape a with
  | [] => Raise AxisError
  | _ :: sh => Ok (of_rows sh (uniq (sorted (rows_of a))))
  end.

End Np.

(** ** The decorators *)
Module Decorators.
Import Py Np.

(** Modelled from the spec: [pytriton.model_config.TritonModelConfig] is
    not part of the sources at hand.  The decorators read the ordered list
    of declared outputs (each with a name), the optional dynamic batcher
    with its optional preferred batch sizes, and the maximal batch size. *)
Record TensorSpec : Type := { name : string }.
Record DynamicBatcher : Type := { preferred_batch_size : option (list Z) }.
Record TritonModelConfig : Type := {
  outputs : list TensorSpec;
  batcher : option DynamicBatcher;
  max_batch_size : Z;
}.

(** [class TritonContext] *)
Record TritonContext : Type := { model_config : TritonModelConfig }.

(** A request maps input names to tensors. *)
Abbreviation request := (dict ndarray) (only parsing).

(** What an inference callable may return: a mapping, a list, a tuple, or
    an object of some other type. *)
Inductive pyout : Type :=
| OutDict (d : dict ndarray)
| OutList (l : list ndarray)
| OutTuple (l : list ndarray)
| OutOther (type_name : string).

(** A keyword argument: a tensor, a NumPy scalar (what indexing a rank-1
    array yields), a bare Python scalar, or the context object. *)
Inductive kwarg : Type :=
| KArray (a : ndarray)
| KNpScalar (z : Z)
| KScalar (z : Z)
| KContext (c : TritonContext).

(** *** Stages

    A stage runs in a world of type [W] that only the wrapped callable can
    inspect, and appends the argument of every invocation of the wrapped
    callable to a call log. *)
Record run_state (W Arg : Type) : Type := RunState { world : W; calls : list Arg }.
Arguments RunState {W Arg} world calls.
Arguments world {W Arg} _.
Arguments calls {W Arg} _.

Definition M (W Arg A : Type) : Type := run_state W Arg → result A * run_state W Arg.

Definition M_ret {W Arg A} (a : A) : M W Arg A := λ st, (Ok a, st).

Definition M_bind {W Arg A B} (f : A → M W Arg B) (m : M W Arg A) : M W Arg B :=
  λ st, match m st with
        | (Ok a, st') => f a st'
        | (Raise e, st') => (Raise e, st')
        end.

#[global] Instance M_mret {W Arg} : MRet (M W Arg) := @M_ret W Arg.
#[global] Instance M_mbind {W Arg} : MBind (M W Arg) := @M_bind W Arg.

Definition lift {W Arg A} (r : result A) : M W Arg A := λ st, (r, st).

(** A callable: its behaviour and the [__triton_context__] attribute that
    the Triton binding may have attached to it. *)
Record callable (W Arg Ret : Type) : Type := Callable {
  call : Arg → W → result Ret * W;
  triton_context_attr : option TritonContext;
}.
Arguments Callable {W Arg Ret} call triton_context_attr.
Arguments call {W Arg Ret} _.
Arguments triton_context_attr {W Arg Ret} _.

(** The object a method is bound to, if any: whether it is truthy, and its
    own [__triton_context__] attribute. *)
Definition instance : Type := option (bool * option TritonContext).

(** [wrapped(...)]: run the callable and log the invocation. *)
Definition invoke {W Arg Ret} (wrapped : callable W Arg Ret) (arg : Arg)
  : M W Arg Ret :=
  λ st, let '(r, w) := call wrapped arg (world st) in
        (r, RunState w (calls st ++ [arg])).

(** [get_triton_context] *)
Definition get_triton_context {W Arg Ret}
    (wrapped : callable W Arg Ret) (inst : instance) : result TritonContext :=
  let caller := match inst with
                | Some (true, attr) => attr
                | _ => triton_context_attr wrapped
                end in
  match caller with
  | None => Raise (PytritonValidationError
              "Wrapped function or object must bound with triton to get  __triton_context__")
  | Some ctx => Ok ctx
  end.

(** [get_model_config] *)
Definition get_model_config {W Arg Ret}
    (wrapped : callable W Arg Ret) (inst : instance) : result TritonModelConfig :=
  ctx ← get_triton_context wrapped inst; Ok (model_config ctx).

(** [{config_output.name: output for config_output, output in zip(...)}] *)
Definition dict_of_pairs {V} (kvs : list (string * V)) : dict V :=
  dict_update [] kvs.

(** [convert_output] *)
Definition convert_output {W Arg Ret} (outs : pyout)
    (wrapped : callable W Arg Ret) (inst : instance)
    (model_config : option TritonModelConfig) : result (dict ndarray) :=
  let from_sequence (l : list ndarray) : result (dict ndarray) :=
    model_config ← match model_config with
                   | None => get_model_config wrapped inst
                   | Some c => Ok c
                   end;
    if bool_decide (length l ≠ length (outputs model_config))
    then Raise (PytritonValidationError
                  "Outputs length different than config outputs length")
    else Ok (dict_of_pairs (zip (name <$> outputs model_config) l)) in
  match outs with
  | OutDict d => Ok d
  | OutList l => from_sequence l
  | OutTuple l => from_sequence l
  | OutOther ty =>
      Raise (PytritonValidationError ("Unsupported output type " +:+ ty +:+ "."))
  end.

(** *** [batch] *)

(** [np.concatenate([req_dict[model_input] for req_dict in req_list])] *)
Definition concat_input (req_list : list request) (model_input : string)
  : result ndarray :=
  arrs ← mapM (λ req_dict, dict_getitem req_dict model_input) req_list;
  np_concatenate arrs.

(** The loop building [inputs]: one concatenated tensor per input name. *)
Fixpoint merge_inputs (input_names : list string) (req_list : list request)
    (inputs : dict ndarray) : result (dict ndarray) :=
  match input_names with
  | [] => Ok inputs
  | model_input :: names =>
      concatenated_input_data ← concat_input req_list model_input;
      merge_inputs names req_list (dict_set inputs model_input concatenated_input_data)
  end.

(** The inner loop of the split: one slice per output name. *)
Fixpoint slice_outputs (outs : dict ndarray) (output_names : list string)
    (start_idx request_batch_size : nat) (req_output_dict : dict ndarray)
  : result (dict ndarray) :=
  match output_names with
  | [] => Ok req_output_dict
  | output_name :: names =>
      out ← dict_getitem outs output_name;
      req_output ← np_slice0 out start_idx (start_idx + request_batch_size);
      slice_outputs outs names start_idx request_batch_size
        (dict_set req_output_dict output_name req_output)
  end.

(** The outer loop of the split, threading [start_idx]. *)
Fixpoint split_outputs (outs : dict ndarray) (req_list : list request)
    (start_idx : nat) : result (list (dict ndarray)) :=
  match req_list with
  | [] => Ok []
  | request :: rest =>
      first_input ← first_value_of request;
      request_batch_size ← shape0 first_input;
      req_output_dict ←
        slice_outputs outs (dict_keys outs) start_idx request_batch_size [];
      out_list ← split_outputs outs rest (start_idx + request_batch_size);
      Ok (req_output_dict :: out_list)
  end.

Definition KEYS_MISMATCH : string :=
  "Cannot batch requests with different set of inputs keys".

Definition batch {W} (wrapped : callable W (dict kwarg) pyout) (inst : instance)
    (req_list : list request) (kwargs : dict kwarg)
  : M W (dict kwarg) (list (dict ndarray)) :=
  match req_list with
  | [] => lift (Raise (IndexError "list index out of range"))
  | req0 :: rest =>
      let input_names := dict_keys req0 in
      if existsb (λ req_dict2, bool_decide (keys_view req0 ≠ keys_view req_dict2)) rest
      then lift (Raise (PytritonValidationError KEYS_MISMATCH))
      else
        inputs ← lift (merge_inputs input_names req_list []);
        let new_kwargs := dict_update kwargs (prod_map id KArray <$> inputs) in
        outs ← invoke wrapped new_kwargs;
        outs ← lift (convert_output outs wrapped inst None);
        lift (split_outputs outs req_list 0)
  end.

(** *** [group_by_values] and [group_by_keys] *)

(** The component standing for a grouping key the request lacks. *)
Definition MISSING : list Z * list Z := ([(-1)%Z], [(-1)%Z]).

Definition value_key : Type := list (list Z * list Z).

(** The loop over [keys] building [req_key_list] for one request. *)
Fixpoint req_key_of (keys : list string) (input : request) : result value_key :=
  match keys with
  | [] => Ok []
  | requested_key :: keys' =>
      key ← (if dict_contains input requested_key then
               a ← dict_getitem input requested_key;
               arr ← np_unique0 a;
               Ok (Z.of_nat <$> shape arr, flatten arr)
             else Ok MISSING);
      req_key_list ← req_key_of keys' input;
      Ok (key :: req_key_list)
  end.

(** The part both grouping decorators share: every group is sent to the
    wrapped callable in one invocation and its results are paired with the
    original indices of the group's requests.  The remaining positional and
    keyword arguments are handed over unchanged and are part of [wrapped]. *)
Fixpoint dispatch_groups {W K Res} (wrapped : callable W (list request) (list Res))
    (groups : list (list (nat * K * request))) (idx_groups_res : list (nat * Res))
  : M W (list request) (list (nat * Res)) :=
  match groups with
  | [] => mret idx_groups_res
  | group :: groups' =>
      let idx := (λ t, t.1.1) <$> group in
      let sample_list := (λ t, t.2) <$> group in
      out ← invoke wrapped sample_list;
      dispatch_groups wrapped groups' (idx_groups_res ++ zip idx out)
  end.

(** The groups: the tagged requests sorted by group key and split into the
    runs of equal key. *)
Definition grouped {K} `{EqDecision K} `{PyOrd K}
    (idx_inputs : list (nat * K * request)) : list (list (nat * K * request)) :=
  let idx_inputs := sort_by (λ t, t.1.2) idx_inputs in
  groupby (λ t, t.1.2) idx_inputs.

(** Sort by group key, split into runs, dispatch, and restore the order. *)
Definition run_grouped {W K Res} `{EqDecision K} `{PyOrd K}
    (wrapped : callable W (list request) (list Res))
    (idx_inputs : list (nat * K * request))
  : M W (list request) (list Res) :=
  idx_groups_res ← dispatch_groups wrapped (grouped idx_inputs) [];
  let idx_groups_res := sort_by fst idx_groups_res in
  mret (snd <$> idx_groups_res).

(** The loop of [group_by_values] tagging every request with its index and
    its group key. *)
Definition tag_by_values (keys : list string) (inputs : list request)
  : result (list (nat * value_key * request)) :=
  mapM (λ '(idx, input),
          req_key ← req_key_of keys input;
          Ok (idx, req_key, input))
    (enumerate inputs).

Definition group_by_values {W Res} (keys : list string)
    (wrapped : callable W (list request) (list Res)) (inputs : list request)
  : M W (list request) (list Res) :=
  idx_inputs ← lift (tag_by_values keys inputs);
  run_grouped wrapped idx_inputs.

(** The comprehension of [group_by_keys] tagging every request with its
    index and its sorted key names. *)
Definition tag_by_keys (inputs : list request) : list (nat * list string * request) :=
  (λ '(idx, input), (idx, sorted (dict_keys input), input)) <$> enumerate inputs.

Definition group_by_keys {W Res}
    (wrapped : callable W (list request) (list Res)) (inputs : list request)
  : M W (list request) (list Res) :=
  let idx_inputs := tag_by_keys inputs in
  run_grouped wrapped idx_inputs.

(** *** [fill_optionals] *)

(** The loop over the default keys for one request. *)
Fixpoint fill_defaults (defaults : dict ndarray) (default_keys : list string)
    (batch_size : nat) (req : request) : result request :=
  match default_keys with
  | [] => Ok req
  | default_key :: default_keys' =>
      if negb (dict_contains req default_key) then
        val ← dict_getitem defaults default_key;
        let k := <[0 := batch_size]> (replicate (length (shape val) + 1) 1) in
        fill_defaults defaults default_keys' batch_size
          (dict_set req default_key (np_tile val k))
      else fill_defaults defaults default_keys' batch_size req
  end.

Definition fill_request (defaults : dict ndarray) (req : request)
  : result request :=
  first_input ← first_value_of req;
  batch_size ← shape0 first_input;
  fill_defaults defaults (dict_keys defaults) batch_size req.

(** The loop over the requests.  The request objects are updated in place:
    the first component is the state of the caller's list when the loop
    ends, the second the exception that ended it early, if any. *)
Fixpoint fill_requests (defaults : dict ndarray) (req_list : list request)
  : list request * option exn :=
  match req_list with
  | [] => ([], None)
  | request :: rest =>
      match fill_request defaults request with
      | Ok request' =>
          let '(rest', e) := fill_requests defaults rest in (request' :: rest', e)
      | Raise e => (request :: rest, Some e)
      end
  end.

(** Returns the outcome of the call together with the request objects as
    the decorator leaves them. *)
Definition fill_optionals {W Ret} (defaults : dict ndarray)
    (wrapped : callable W (list request) Ret) (req_list : list request)
  : run_state W (list request) → (result Ret * list request) * run_state W (list request) :=
  λ st, let '(req_list', e) := fill_requests defaults req_list in
        match e with
        | Some e => ((Raise e, req_list'), st)
        | None => let '(r, st') := invoke wrapped req_list' st in ((r, req_list'), st')
        end.

(** *** Attribute and item access on keyword arguments *)

(** [v.shape] *)
Definition kw_shape (v : kwarg) : result (list nat) :=
  match v with
  | KArray a => Ok (shape a)
  | KNpScalar _ => Ok []
  | KScalar _ => Raise (AttributeError "'int' object has no attribute 'shape'")
  | KContext _ => Raise (AttributeError "'TritonContext' object has no attribute 'shape'")
  end.

(** [v[0]] *)
Definition kw_getitem0 (v : kwarg) : result kwarg :=
  match v with
  | KArray a =>
      match shape a with
      | [] => Raise (IndexError "too many indices for array")
      | 0 :: _ => Raise (IndexError "index 0 is out of bounds for axis 0 with size 0")
      | S _ :: [] =>
          match data a with
          | x :: _ => Ok (KNpScalar x)
          | [] => Raise (IndexError "index 0 is out of bounds")
          end
      | S _ :: sh => Ok (KArray {| shape := sh; data := take (size_of sh) (data a) |})
      end
  | KNpScalar _ => Raise (IndexError "invalid index to scalar variable.")
  | KScalar _ => Raise (TypeError "'int' object is not subscriptable")
  | KContext _ => Raise (TypeError "'TritonContext' object is not subscriptable")
  end.

(** [max(t)] for a tuple of sizes. *)
Definition py_max (t : list nat) : result nat :=
  match t with
  | [] => Raise (ValueError "max() arg is an empty sequence")
  | x :: t' => Ok (foldl Nat.max x t')
  end.

(** [v.flatten().item()] *)
Definition kw_flatten_item (v : kwarg) : result kwarg :=
  match v with
  | KArray a =>
      match flatten a with
      | [x] => Ok (KScalar x)
      | _ => Raise (ValueError "can only convert an array of size 1 to a Python scalar")
      end
  | KNpScalar z => Ok (KScalar z)
  | KScalar _ => Raise (AttributeError "'int' object has no attribute 'flatten'")
  | KContext _ => Raise (AttributeError "'TritonContext' object has no attribute 'flatten'")
  end.

Definition CONTEXT_KEY : string := "__triton_context__".

(** [{k: v for k, v in kwargs.items() if k != "__triton_context__"}] *)
Definition without_context (kwargs : dict kwarg) : dict kwarg :=
  filter (λ kv, kv.1 ≠ CONTEXT_KEY) kwargs.

(** *** [pad_batch] *)

(** One item of the comprehension building [new_inputs]. *)
Definition pad_input (batch_size : Z) (input_array : kwarg) : result kwarg :=
  match input_array with
  | KArray a =>
      n ← shape0 a;
      ones ← np_ones (Z.of_nat n - 1);
      repeated ← np_repeat0 a (ones ++ [(batch_size - Z.of_nat n + 1)%Z]);
      Ok (KArray repeated)
  | v => sh ← kw_shape v; Raise (IndexError "tuple index out of range")
  end.

(** The comprehension building [new_inputs]. *)
Definition pad_inputs (batch_size : Z) (inputs : dict kwarg) : result (dict kwarg) :=
  mapM (λ '(input_name, input_array),
          padded ← pad_input batch_size input_array;
          Ok (input_name, padded)) inputs.

(** The list [batch_sizes]: the sorted preferred batch sizes, if any,
    followed by the maximal batch size. *)
Definition batch_sizes_of (config : TritonModelConfig) : list Z :=
  match batcher config with
  | None => []
  | Some b => match preferred_batch_size b with
              | None => []
              | Some sizes => sorted sizes
              end
  end ++ [max_batch_size config].

Definition pad_batch {W Ret} (wrapped : callable W (dict kwarg) Ret)
    (inst : instance) (kwargs : dict kwarg) : M W (dict kwarg) Ret :=
  let inputs := without_context kwargs in
  first_input ← lift (first_value_of inputs);
  config ← lift (get_model_config wrapped inst);
  let batch_sizes := batch_sizes_of config in
  sh ← lift (kw_shape first_input);
  n ← lift (match sh with
            | [] => Raise (IndexError "tuple index out of range")
            | n :: _ => Ok n
            end);
  batch_size ← lift (match batch_sizes !! bisect_left batch_sizes (Z.of_nat n) with
                     | Some b => Ok b
                     | None => Raise (IndexError "list index out of range")
                     end);
  new_inputs ← lift (pad_inputs batch_size inputs);
  invoke wrapped (dict_update kwargs new_inputs).

(** *** [first_value] *)

(** The loop over the selected keys. *)
Fixpoint first_value_loop (keys : list string) (inputs : dict kwarg)
  : result (dict kwarg) :=
  match keys with
  | [] => Ok inputs
  | key :: keys' =>
      v ← dict_getitem inputs key;
      res ← kw_getitem0 v;
      sh ← kw_shape res;
      m ← py_max sh;
      res ← (if bool_decide (m = 1) then kw_flatten_item res else Ok res);
      first_value_loop keys' (dict_set inputs key res)
  end.

Definition first_value {W Ret} (keys : list string)
    (wrapped : callable W (dict kwarg) Ret) (kwargs : dict kwarg)
  : M W (dict kwarg) Ret :=
  inputs ← lift (first_value_loop keys (without_context kwargs));
  invoke wrapped (dict_update kwargs inputs).

(** *** [sample] and [triton_context] *)

(** [sample] *)
Definition sample {W} (wrapped : callable W (dict kwarg) pyout) (inst : instance)
    (req_list : list request) (kwargs : dict kwarg)
  : M W (dict kwarg) (list (dict ndarray)) :=
  match req_list with
  | [] => lift (Raise (IndexError "list index out of range"))
  | req0 :: _ =>
      let kwargs := dict_update kwargs (prod_map id KArray <$> req0) in
      outs ← invoke wrapped kwargs;
      outs ← lift (convert_output outs wrapped inst None);
      mret [outs]
  end.

(** [triton_context].  The name of the injected keyword argument is the
    constant [TRITON_CONTEXT_FIELD_NAME] of [pytriton.constants], a module
    that is not part of the sources at hand: the name is a parameter. *)
Definition triton_context {W Ret} (TRITON_CONTEXT_FIELD_NAME : string)
    (wrapped : callable W (dict kwarg) Ret) (inst : instance) (kwargs : dict kwarg)
  : M W (dict kwarg) Ret :=
  ctx ← lift (get_triton_context wrapped inst);
  invoke wrapped (dict_set kwargs TRITON_CONTEXT_FIELD_NAME (KContext ctx)).

End Decorators.

(** ** Floating-point grouping keys

    [group_by_values] on tensors of dtype float64, where an element may be
    NaN.  The lines are those of [Decorators.group_by_values]; what differs
    is the comparison of elements: NaN is neither less than, nor greater
    than, nor equal to any number or NaN. *)
Module Float64.
Import Py Np Decorators.

(** A float64 element: a number or NaN.  The numbers are named by
    integers: only their order and equality matter to the decorator. *)
Inductive float64 : Type :=
| Finite (z : Z)
| NaN.

#[global] Instance float64_eq_dec : EqDecision float64.
Proof. solve_decision. Defined.

(** A float tensor: its shape and its elements in row-major order. *)
Record farray : Type := FArray { fshape : list nat; fdata : list float64 }.

Definition frequest : Type := list (string * farray).

(** The rows along axis 0, each flattened. *)
Definition frows_of (a : farray) : list (list float64) :=
  match fshape a with
  | [] => []
  | n :: sh => map (λ i, take (size_of sh) (drop (i * size_of sh) (fdata a))) (seq 0 n)
  end.

(** The order NumPy sorts float64 by: the numbers ascending, NaN last. *)
Definition np_lt (x y : float64) : bool :=
  match x, y with
  | Finite a, Finite b => (a <? b)%Z
  | Finite _, NaN => true
  | NaN, _ => false
  end.

(** [x == y] on float64: false as soon as one side is NaN. *)
Definition ieee_eqb (x y : float64) : bool :=
  match x, y with
  | Finite a, Finite b => (a =? b)%Z
  | _, _ => false
  end.

(** Two rows are equal when all their fields are. *)
Fixpoint row_eqb (r r' : list float64) : bool :=
  match r, r' with
  | [], [] => true
  | x :: r0, y :: r0' => ieee_eqb x y && row_eqb r0 r0'
  | _, _ => false
  end.

(** [aux[mask]] for [mask[i] = aux[i] != aux[i-1]]: a row is kept when it
    differs from the row before it. *)
Fixpoint unique_mask (prev : list float64) (aux : list (list float64))
  : list (list float64) :=
  match aux with
  | [] => []
  | r :: aux' =>
      if row_eqb r prev then unique_mask r aux' else r :: unique_mask r aux'
  end.

(** [np.unique(a, axis=0)]: the rows are sorted field by field and the rows
    equal to their predecessor are dropped. *)
Definition np_unique0 (a : farray) : result farray :=
  match fshape a with
  | [] => Raise AxisError
  | _ :: sh =>
      let aux := @sort_by _ _ (@tuple_lt float64 _ np_lt) id (frows_of a) in
      let rows := match aux with
                  | [] => []
                  | r :: aux' => r :: unique_mask r aux'
                  end in
      Ok {| fshape := length rows :: sh; fdata := concat rows |}
  end.

(** An element of a key tuple is a Python object.  Tuples compare their
    elements with [==] after an identity test, so that a NaN object equals
    itself and nothing else: it is named by the request, the grouping key
    and the position it was created for.  Numbers compare by value. *)
Inductive pynum : Type :=
| PyNum (z : Z)
| PyNaN (obj : nat * nat * nat).

#[global] Instance pynum_eq_dec : EqDecision pynum.
Proof. solve_decision. Defined.

(** [x < y]: false as soon as one side is NaN. *)
#[global] Instance pynum_pyord : PyOrd pynum :=
  λ x y, match x, y with
         | PyNum a, PyNum b => (a <? b)%Z
         | _, _ => false
         end.

(** [tuple(arr.flatten())]: one new object per element. *)
Definition tuple_of_flatten (idx kpos : nat) (arr : farray) : list pynum :=
  imap (λ pos x, match x with
                 | Finite z => PyNum z
                 | NaN => PyNaN (idx, kpos, pos)
                 end) (fdata arr).

Definition MISSING : list Z * list pynum := ([(-1)%Z], [PyNum (-1)]).

Definition value_key : Type := list (list Z * list pynum).

(** The loop over [keys] building [req_key_list] for the request [idx]. *)
Definition req_key_of (keys : list string) (idx : nat) (input : frequest)
  : result value_key :=
  mapM (λ '(kpos, requested_key),
          if dict_contains input requested_key then
            a ← dict_getitem input requested_key;
            arr ← np_unique0 a;
            Ok (Z.of_nat <$> fshape arr, tuple_of_flatten idx kpos arr)
          else Ok MISSING)
    (enumerate keys).

Definition tag_by_values (keys : list string) (inputs : list frequest)
  : result (list (nat * value_key * frequest)) :=
  mapM (λ '(idx, input),
          req_key ← req_key_of keys idx input;
          Ok (idx, req_key, input))
    (enumerate inputs).

Fixpoint dispatch_groups {W Res} (wrapped : callable W (list frequest) (list Res))
    (groups : list (list (nat * value_key * frequest)))
    (idx_groups_res : list (nat * Res))
  : M W (list frequest) (list (nat * Res)) :=
  match groups with
  | [] => mret idx_groups_res
  | group :: groups' =>
      let idx := (λ t, t.1.1) <$> group in
      let sample_list := (λ t, t.2) <$> group in
      out ← invoke wrapped sample_list;
      dispatch_groups wrapped groups' (idx_groups_res ++ zip idx out)
  end.

(** The decorator.  [list.sort] is [sort_by]: a stable sort, which is what
    [list.sort] is whenever [<] orders the keys.  With a NaN among them it
    does not, and the outcome of [list.sort] then depends on its algorithm;
    it first looks for the initial run, and a list in which no key is less
    than the key before it is one ascending run, which [list.sort] and
    [sort_by] both leave as it is. *)
Definition group_by_values {W Res} (keys : list string)
    (wrapped : callable W (list frequest) (list Res)) (inputs : list frequest)
  : M W (list frequest) (list Res) :=
  idx_inputs ← lift (tag_by_values keys inputs);
  let idx_inputs := sort_by (λ t, t.1.2) idx_inputs in
  idx_groups_res ←
    dispatch_groups wrapped (groupby (λ t, t.1.2) idx_inputs) [];
  let idx_groups_res := sort_by fst idx_groups_res in
  mret (snd <$> idx_groups_res).

End Float64.

(** ** Vocabulary of the properties *)
Module Spec.
Import Py Np Decorators.

(** No preferred batch size exceeds the maximal batch size, so that the
    list of admissible sizes is ascending with the maximum last. *)
Definition valid_policy (config : TritonModelConfig) : Prop :=
  ∀ b sizes, batcher config = Some b → preferred_batch_size b = Some sizes →
             Forall (λ s, (s ≤ max_batch_size config)%Z) sizes.

(** The policy values of a configuration: its preferred batch sizes, if
    it declares any, and its maximal batch size. *)
Definition policy_value (config : TritonModelConfig) (b : Z) : Prop :=
  b = max_batch_size config ∨
  ∃ bt sizes, batcher config = Some bt ∧ preferred_batch_size bt = Some sizes ∧ b ∈ sizes.

(** [target] is the smallest policy value that is not below [n]. *)
Definition smallest_policy_value (config : TritonModelConfig) (n target : Z) : Prop :=
  policy_value config target ∧ (n ≤ target)%Z ∧
  ∀ b, policy_value config b → (n ≤ b)%Z → (target ≤ b)%Z.

(** The padded size: the smallest admissible size that is not below [n]. *)
Definition is_target (policy : list Z) (n target : Z) : Prop :=
  target ∈ policy ∧ (n ≤ target)%Z ∧ ∀ b, b ∈ policy → (n ≤ b)%Z → (target ≤ b)%Z.

(** The keyword arguments form a merged batch of axis-0 length [n]: every
    argument but the context is a well-formed tensor with [n] rows. *)
Definition merged_batch (kwargs : dict kwarg) (n : nat) : Prop :=
  NoDup (dict_keys kwargs) ∧
  without_context kwargs ≠ [] ∧
  ∀ k v, (k, v) ∈ without_context kwargs →
         ∃ a sh, v = KArray a ∧ shape a = n :: sh ∧ wf_array a.

(** [p] is [a] padded to [target] rows by repeating its last row. *)
Definition padded_to (n target : nat) (a p : ndarray) : Prop :=
  shape p = target :: tail (shape a) ∧
  (∀ i, i < n - 1 → rows_of p !! i = rows_of a !! i) ∧
  (∀ i, n - 1 ≤ i < target → rows_of p !! i = rows_of a !! (n - 1)).

(** What the comprehension building [new_inputs] yields. *)
Definition padded_inputs (n : nat) (target : Z) (inputs new_inputs : dict kwarg) : Prop :=
  Forall2 (λ kv kv', kv'.1 = kv.1 ∧
             ∃ a p, kv.2 = KArray a ∧ kv'.2 = KArray p ∧
                    padded_to n (Z.to_nat target) a p ∧
                    (target = Z.of_nat n → p = a))
    inputs new_inputs.

(** The configuration [convert_output] works with: the one it is given, or
    else the one attached to the callable. *)
Definition resolve_config {W Arg Ret} (wrapped : callable W Arg Ret)
    (inst : instance) (mc : option TritonModelConfig) : result TritonModelConfig :=
  match mc with None => get_model_config wrapped inst | Some c => Ok c end.

(** [outs] is the list or the tuple of the tensors [l]. *)
Definition is_sequence (outs : pyout) (l : list ndarray) : Prop :=
  outs = OutList l ∨ outs = OutTuple l.

(** The exceptions of the merge are those of the item access and of
    [np.concatenate]; none is a validation error. *)
Definition is_validation_error (e : exn) : Prop :=
  ∃ msg, e = PytritonValidationError msg.

(** All tensors of the request have [b] rows: [b] is its local batch size. *)
Definition has_batch_size (req : request) (b : nat) : Prop :=
  req ≠ [] ∧ ∀ k a, (k, a) ∈ req → ∃ sh, shape a = b :: sh.

(** The requests have the local batch sizes [bs], and the tensors they hold
    under one name agree on every dimension but the first. *)
Definition mergeable (req_list : list request) (bs : list nat) : Prop :=
  Forall2 has_batch_size req_list bs ∧
  ∀ r r' k a a', r ∈ req_list → r' ∈ req_list →
                 dict_get r k = Some a → dict_get r' k = Some a' →
                 tail (shape a) = tail (shape a').

(** [d] maps every output name to the rows [off .. off + b) of that output. *)
Definition slices_at (outs : dict ndarray) (off b : nat) (d : dict ndarray) : Prop :=
  (∀ nm o, dict_get outs nm = Some o →
           ∃ s, np_slice0 o off (off + b) = Ok s ∧ dict_get d nm = Some s) ∧
  (∀ nm, dict_get outs nm = None → dict_get d nm = None).

(** The vector [k] of [fill_optionals]: [batch_size] first, then ones. *)
Definition tile_reps (val : ndarray) (batch_size : nat) : list nat :=
  <[0 := batch_size]> (replicate (length (shape val) + 1) 1).

(** [req'] is [req] followed by entries for default keys that [req] lacks. *)
Definition extends_with_defaults (defaults : dict ndarray) (req req' : request) : Prop :=
  ∃ added, req' = req ++ added ∧
           ∀ k, k ∈ dict_keys added → k ∈ dict_keys defaults ∧ k ∉ dict_keys req.

(** The batch size [fill_optionals] reads off a request. *)
Definition first_batch_size (req : request) (b : nat) : Prop :=
  ∃ first_input, first_value_of req = Ok first_input ∧ shape0 first_input = Ok b.

(** The requests of a group, in the group's order. *)
Definition samples {K} (group : list (nat * K * request)) : list request :=
  (λ t, t.2) <$> group.

(** The tagged list enumerates [inputs]: the i-th entry carries the index
    [i] and the i-th request. *)
Definition tags_of {K} (inputs : list request) (idx_inputs : list (nat * K * request))
  : Prop :=
  (λ t, t.1.1) <$> idx_inputs = seq 0 (length inputs) ∧
  (λ t, t.2) <$> idx_inputs = inputs.

(** The wrapped stage answers every group with one result per request, the
    results standing in relation [R] to the requests, in the group's order. *)
Definition answers_groups {W K Res} (R : request → Res → Prop)
    (wrapped : callable W (list request) (list Res))
    (groups : list (list (nat * K * request))) : Prop :=
  ∀ g w, g ∈ groups →
         ∃ out w', call wrapped (samples g) w = (Ok out, w') ∧ Forall2 R (samples g) out.





(** Of two entries with the same key, the first has the smaller index. *)
Definition in_input_order {A K} (key : A → K) (idx : A → nat) (a b : A) : Prop :=
  key a = key b → idx a < idx b.

(** The requests of a group are requests of the input, in input order. *)
Definition in_order_of (inputs : list request) {K}
    (g : list (nat * K * request)) : Prop :=
  StronglySorted lt ((λ t, t.1.1) <$> g) ∧
  ∀ t, t ∈ g → inputs !! t.1.1 = Some t.2.

(** The keyword argument is a tensor. *)
Definition is_array (v : kwarg) : Prop := ∃ a, v = KArray a.

End Spec.

(** ** Concrete requests, configurations and callables *)
Module Examples.
Import Py Np Decorators.

(** The policy of the padding scenario: preferred sizes 4 and 8, the
    maximum being 8. *)
Definition config_4_8 : TritonModelConfig :=
  {| outputs := [{| name := "y" |}];
     batcher := Some {| preferred_batch_size := Some [8; 4]%Z |};
     max_batch_size := 8 |}.

(** A callable bound to that configuration which returns its keyword
    arguments. *)
Definition echo_kwargs : callable unit (dict kwarg) (dict kwarg) :=
  Callable (λ kwargs w, (Ok kwargs, w)) (Some {| model_config := config_4_8 |}).

Definition st0 {Arg} : run_state unit Arg := RunState tt [].

(** A batch of three rows of two elements. *)
Definition x_3_2 : ndarray := NDArray [3; 2] [1; 2; 3; 4; 5; 6]%Z.
Definition x_4_2 : ndarray := NDArray [4; 2] [1; 2; 3; 4; 5; 6; 7; 8]%Z.
(** A configuration with two declared outputs, and a callable bound to it. *)
Definition config_y_z : TritonModelConfig :=
  {| outputs := [{| name := "y" |}; {| name := "z" |}];
     batcher := None;
     max_batch_size := 8 |}.

Definition bound_y_z {Arg} (f : Arg → pyout) : callable unit Arg pyout :=
  Callable (λ arg w, (Ok (f arg), w)) (Some {| model_config := config_y_z |}).

Definition y_1 : ndarray := NDArray [1] [10]%Z.
Definition z_1 : ndarray := NDArray [1] [20]%Z.

Definition x_1_2 : ndarray := NDArray [1; 2] [7; 8]%Z.

(** A callable that returns its tensor arguments as the outputs. *)
Definition echo_outputs : callable unit (dict kwarg) pyout :=
  Callable (λ kwargs w,
              (Ok (OutDict (omap (λ kv, match kv.2 with
                                        | KArray a => Some (kv.1, a)
                                        | _ => None
                                        end) kwargs)), w))
           None.

Definition kw_st0 : run_state unit (dict kwarg) := RunState tt [].

(** Tensors for the scalar extractor: a column of two rows, a rank-1 tensor,
    and a tensor whose rows have shape (1, 0). *)
Definition t_2_1 : ndarray := NDArray [2; 1] [5; 5]%Z.
Definition t_2 : ndarray := NDArray [2] [5; 5]%Z.
Definition t_2_1_0 : ndarray := NDArray [2; 1; 0] [].

Definition default_d : ndarray := NDArray [2] [9; 9]%Z.
Definition list_st0 : run_state unit (list request) := RunState tt [].
Definition id_stage : callable unit (list request) (list request) :=
  Callable (λ reqs w, (Ok reqs, w)) None.

(** The key sets of the grouping scenario: a and b, a alone, b and a. *)
Definition reqs_ab_a_ab : list request :=
  [[("a", y_1); ("b", z_1)]; [("a", z_1)]; [("b", y_1); ("a", y_1)]].

(** The group of the requests 0 and 2 of [reqs_ab_a_ab], which have the
    input names a and b. *)
Definition group_ab : list (nat * list string * request) :=
  [(0, ["a"; "b"], [("a", y_1); ("b", z_1)]);
   (2, ["a"; "b"], [("b", y_1); ("a", y_1)])].

Definition failing_model : callable unit (dict kwarg) pyout :=
  Callable (λ _ w, (Raise (ValueError "failed"), w)) None.

Definition x_9_1 : ndarray := NDArray [9; 1] [1; 2; 3; 4; 5; 6; 7; 8; 9]%Z.

(** A configuration that declares the output name y twice. *)
Definition config_y_y : TritonModelConfig :=
  {| outputs := [{| name := "y" |}; {| name := "y" |}];
     batcher := None;
     max_batch_size := 8 |}.




End Examples.

(** ** Facts about the Python prelude *)
Module PyFacts.
Import Py.

Lemma result_bind_ok {A B} (m : result A) (f : A → result B) b :
  m ≫= f = Ok b ↔ ∃ a, m = Ok a ∧ f a = Ok b.
Proof.
  destruct m as [a|e]; simpl; split.
  - intros H. by exists a.
  - by intros (a' & [= ->] & H).
  - intros [=].
  - by intros (a' & [=] & _).
Qed.

Lemma mapM_ok {A B} (f : A → result B) l l' :
  mapM f l = Ok l' ↔ Forall2 (λ x y, f x = Ok y) l l'.
Proof.
  revert l'. induction l as [|x l IH]; intros l'; simpl.
  - split; [intros [= <-]; constructor | by inversion 1].
  - split.
    + intros H. apply result_bind_ok in H as (y & Hy & H).
      apply result_bind_ok in H as (ys & Hys & [= <-]).
      constructor; [done | by apply IH].
    + inversion 1 as [|? y ? ys Hy Hys]; subst.
      apply IH in Hys. by rewrite Hy, Hys.
Qed.

Section dict.
Context {V : Type}.
Implicit Types (d : dict V) (k : string) (v : V).

Lemma dict_get_None d k : dict_get d k = None ↔ k ∉ dict_keys d.
Proof.
  induction d as [|[k' v'] d IH]; simpl.
  - split; [intros _; apply not_elem_of_nil | done].
  - rewrite not_elem_of_cons. destruct (decide (k' = k)) as [->|Hne].
    + split; [done | by intros [? _]].
    + rewrite IH. split; [by split | by intros [_ ?]].
Qed.

Lemma dict_get_Some_elem d k v : dict_get d k = Some v → (k, v) ∈ d.
Proof.
  induction d as [|[k' v'] d IH]; simpl; [done|].
  destruct (decide (k' = k)) as [->|Hne].
  - intros [= ->]. apply list_elem_of_here.
  - intros Hg. apply list_elem_of_further. auto.
Qed.

Lemma dict_contains_true d k : dict_contains d k = true ↔ k ∈ dict_keys d.
Proof.
  unfold dict_contains. destruct (dict_get d k) eqn:E.
  - split; [intros _|done].
    destruct (decide (k ∈ dict_keys d)) as [|Hn]; [done|].
    apply dict_get_None in Hn. congruence.
  - apply dict_get_None in E. split; [done|]. intros. contradiction.
Qed.

Lemma dict_contains_false d k : dict_contains d k = false ↔ k ∉ dict_keys d.
Proof.
  rewrite <- dict_contains_true. destruct (dict_contains d k); naive_solver.
Qed.

Lemma dict_get_app d1 d2 k :
  dict_get (d1 ++ d2) k =
    match dict_get d1 k with Some v => Some v | None => dict_get d2 k end.
Proof.
  induction d1 as [|[k' v'] d1 IH]; simpl; [done|]. by case_decide.
Qed.

Lemma dict_set_fresh d k v : k ∉ dict_keys d → dict_set d k v = d ++ [(k, v)].
Proof.
  induction d as [|[k' v'] d IH]; simpl; [done|].
  rewrite not_elem_of_cons. intros [Hne Hd].
  case_decide; [congruence|]. by rewrite IH.
Qed.

Lemma dict_keys_set d k v :
  dict_keys (dict_set d k v) =
    if dict_contains d k then dict_keys d else dict_keys d ++ [k].
Proof.
  unfold dict_contains. induction d as [|[k' v'] d IH]; simpl; [done|].
  case_decide; subst; simpl; [done|].
  rewrite IH. by destruct (dict_get d k).
Qed.

Lemma dict_get_set d k v k' :
  dict_get (dict_set d k v) k' = if decide (k = k') then Some v else dict_get d k'.
Proof.
  induction d as [|[k0 v0] d IH]; simpl.
  - done.
  - destruct (decide (k0 = k)) as [->|Hne]; simpl.
    + by destruct (decide (k = k')).
    + rewrite IH. destruct (decide (k0 = k')) as [->|]; [|done].
      by destruct (decide (k = k')); [congruence|].
Qed.

(** Entering pairs with pairwise distinct fresh keys appends them. *)
Lemma dict_update_fresh d kvs :
  NoDup (dict_keys d ++ dict_keys kvs) → dict_update d kvs = d ++ kvs.
Proof.
  unfold dict_update. revert d.
  induction kvs as [|[k v] kvs IH]; intros d Hnd; simpl.
  - by rewrite app_nil_r.
  - assert (k ∉ dict_keys d) as Hk.
    { apply NoDup_app in Hnd as (_ & Hd & _). intros Hin.
      apply (Hd _ Hin). simpl. apply list_elem_of_here. }
    rewrite dict_set_fresh by done. rewrite IH.
    + by rewrite <- app_assoc.
    + unfold dict_keys in *. rewrite map_app. simpl in *.
      by rewrite <- app_assoc.
Qed.

Lemma dict_of_pairs_NoDup (kvs : dict V) :
  NoDup (dict_keys kvs) → dict_update [] kvs = kvs.
Proof. intros H. by rewrite dict_update_fresh. Qed.

Lemma dict_get_lookup d i k v :
  NoDup (dict_keys d) → d !! i = Some (k, v) → dict_get d k = Some v.
Proof.
  revert i. induction d as [|[k' v'] d IH]; intros i Hnd Hi; [done|].
  simpl. apply NoDup_cons in Hnd as [Hk Hnd].
  destruct i as [|i]; simpl in Hi.
  - injection Hi as -> ->. by rewrite decide_True.
  - rewrite decide_False; [by eapply IH|].
    intros ->. apply Hk. unfold dict_keys.
    apply list_elem_of_fmap. exists (k, v). split; [done|].
    by eapply list_elem_of_lookup_2.
Qed.
End dict.

Section dict_more.
Context {V : Type}.
Implicit Types (d : dict V) (k : string) (v : V).

Lemma dict_get_update d kvs k :
  NoDup (dict_keys kvs) →
  dict_get (dict_update d kvs) k =
    match dict_get kvs k with Some v => Some v | None => dict_get d k end.
Proof.
  unfold dict_update. revert d.
  induction kvs as [|[k0 v0] kvs IH]; intros d Hnd; simpl; [done|].
  apply NoDup_cons in Hnd as [Hk0 Hnd]. simpl in Hk0. rewrite IH by done.
  simpl. rewrite dict_get_set.
  destruct (decide (k0 = k)) as [<-|Hne]; [|done].
  apply dict_get_None in Hk0. by rewrite Hk0.
Qed.

Lemma dict_set_same d k v : dict_get d k = Some v → dict_set d k v = d.
Proof.
  induction d as [|[k' v'] d IH]; simpl; [done|].
  destruct (decide (k' = k)) as [->|Hne].
  - by intros [= ->].
  - intros Hg. by rewrite IH.
Qed.

Lemma dict_update_same d kvs :
  (∀ k v, (k, v) ∈ kvs → dict_get d k = Some v) → dict_update d kvs = d.
Proof.
  unfold dict_update. induction kvs as [|[k0 v0] kvs IH]; intros Hall; simpl; [done|].
  rewrite dict_set_same by (apply Hall, list_elem_of_here).
  apply IH. intros k v Hin. by apply Hall, list_elem_of_further.
Qed.

Lemma dict_get_elem d k v : NoDup (dict_keys d) → (k, v) ∈ d → dict_get d k = Some v.
Proof.
  intros Hnd Hin. apply list_elem_of_lookup in Hin as [i Hi].
  by eapply dict_get_lookup.
Qed.

Lemma dict_get_filter (P : string → Prop) `{∀ k, Decision (P k)} d k :
  dict_get (filter (λ kv, P kv.1) d) k = if decide (P k) then dict_get d k else None.
Proof.
  induction d as [|[k' v'] d IH].
  - simpl. by destruct (decide (P k)).
  - rewrite filter_cons. simpl. destruct (decide (P k')) as [Hk'|Hk']; simpl.
    + rewrite IH. destruct (decide (k' = k)) as [->|]; [by rewrite decide_True|done].
    + rewrite IH. destruct (decide (k' = k)) as [->|]; [by rewrite !decide_False|done].
Qed.

Lemma dict_keys_filter (P : string → Prop) `{∀ k, Decision (P k)} d :
  dict_keys (filter (λ kv, P kv.1) d) = filter P (dict_keys d).
Proof.
  unfold dict_keys. induction d as [|[k' v'] d IH]; [done|].
  rewrite filter_cons. cbn [map fst]. rewrite filter_cons.
  destruct (decide (P k')); cbn [map fst]; by rewrite IH.
Qed.
End dict_more.

Lemma keys_view_elem {V} (d : dict V) k : k ∈ keys_view d ↔ k ∈ dict_keys d.
Proof. unfold keys_view. by rewrite elem_of_list_to_set. Qed.

Lemma dict_get_is_Some {V} (d : dict V) k : k ∈ dict_keys d → ∃ v, dict_get d k = Some v.
Proof.
  intros Hin. destruct (dict_get d k) as [v|] eqn:E; [by exists v|].
  by apply dict_get_None in E.
Qed.

Lemma dict_set_NoDup {V} (d : dict V) k v :
  NoDup (dict_keys d) → NoDup (dict_keys (dict_set d k v)).
Proof.
  intros Hnd. rewrite dict_keys_set.
  destruct (dict_contains d k) eqn:E; [done|].
  apply dict_contains_false in E. apply NoDup_app. split_and!; [done| |apply NoDup_singleton].
  intros x Hx ->%list_elem_of_singleton. done.
Qed.

Lemma dict_keys_app {V} (d1 d2 : dict V) : dict_keys (d1 ++ d2) = dict_keys d1 ++ dict_keys d2.
Proof. unfold dict_keys. apply map_app. Qed.

Lemma zip_keys {A B} (a : list A) (b : list B) :
  length a = length b → (zip a b).*1 = a.
Proof. intros H. unfold zip. by apply fst_zip; rewrite H. Qed.

Lemma zip_lookup {A B} (a : list A) (b : list B) i x y :
  a !! i = Some x → b !! i = Some y → zip a b !! i = Some (x, y).
Proof. intros Ha Hb. unfold zip. rewrite lookup_zip_with, Ha. simpl. by rewrite Hb. Qed.

(** *** Laws of [<] *)
#[global] Instance Z_pyord_laws : PyOrdLaws Z.
Proof.
  split; unfold py_lt, Z_pyord.
  - intros x. apply Z.ltb_irrefl.
  - intros x y z. rewrite !Z.ltb_lt. lia.
  - intros x y. rewrite !Z.ltb_lt. lia.
Qed.

#[global] Instance nat_pyord_laws : PyOrdLaws nat.
Proof.
  split; unfold py_lt, nat_pyord.
  - intros x. apply Nat.ltb_irrefl.
  - intros x y z. rewrite !Nat.ltb_lt. lia.
  - intros x y. rewrite !Nat.ltb_lt. lia.
Qed.

Section laws.
Context {K : Type} `{EqDecision K} `{PyOrdLaws K}.

Lemma py_lt_asym (x y : K) : py_lt x y = true → py_lt y x = false.
Proof.
  intros Hxy. destruct (py_lt y x) eqn:Hyx; [|done].
  by rewrite <- (py_lt_irrefl x), (py_lt_trans x y x).
Qed.

(** [x <= y] as "not [y < x]" is transitive. *)
Lemma py_le_trans (x y z : K) :
  py_lt y x = false → py_lt z y = false → py_lt z x = false.
Proof.
  intros Hxy Hyz. destruct (py_lt z x) eqn:Hzx; [|done].
  destruct (py_lt_total y x) as [E | [-> | E]]; [congruence | congruence |].
  destruct (py_lt_total z y) as [E' | [-> | E']]; [congruence | congruence |].
  pose proof (py_lt_trans _ _ _ Hzx E). congruence.
Qed.

Lemma py_le_antisym (x y : K) :
  py_lt y x = false → py_lt x y = false → x = y.
Proof.
  intros Hxy Hyx. destruct (py_lt_total x y) as [E | [-> | E]]; congruence.
Qed.

Lemma tuple_lt_irrefl (s : list K) : tuple_lt s s = false.
Proof. induction s as [|x s IH]; simpl; [done|]. by rewrite decide_True. Qed.

Lemma tuple_lt_trans (s t u : list K) :
  tuple_lt s t = true → tuple_lt t u = true → tuple_lt s u = true.
Proof.
  revert t u. induction s as [|x s IH]; intros [|y t] [|z u]; simpl; try done.
  destruct (decide (x = y)) as [->|Hxy].
  - destruct (decide (y = z)) as [->|Hyz]; [apply IH | done].
  - destruct (decide (y = z)) as [->|Hyz].
    + by rewrite decide_False.
    + intros H1 H2. pose proof (py_lt_trans _ _ _ H1 H2) as H3.
      destruct (decide (x = z)) as [->|]; [|done].
      by rewrite (py_lt_asym _ _ H1) in H2.
Qed.

Lemma tuple_lt_total (s t : list K) :
  tuple_lt s t = true ∨ s = t ∨ tuple_lt t s = true.
Proof.
  revert t. induction s as [|x s IH]; intros [|y t]; simpl; auto.
  destruct (decide (x = y)) as [->|Hxy].
  - rewrite decide_True by done.
    destruct (IH t) as [?|[->|?]]; auto.
  - rewrite decide_False by done.
    destruct (py_lt_total x y) as [?|[?|?]]; auto.
Qed.

#[global] Instance tuple_pyord_laws : PyOrdLaws (list K).
Proof.
  split; [apply tuple_lt_irrefl | apply tuple_lt_trans | apply tuple_lt_total].
Qed.
End laws.

Lemma pair_lt_unfold {A B} `{EqDecision A} `{PyOrd A} `{PyOrd B} (p q : A * B) :
  py_lt p q = if decide (p.1 = q.1) then py_lt p.2 q.2 else py_lt p.1 q.1.
Proof. done. Qed.

#[global] Instance pair_pyord_laws {A B} `{EqDecision A} `{PyOrdLaws A} `{PyOrdLaws B} :
  PyOrdLaws (A * B).
Proof.
  split.
  - intros [a b]. rewrite pair_lt_unfold. simpl.
    rewrite decide_True by done. apply py_lt_irrefl.
  - intros [a1 b1] [a2 b2] [a3 b3]. rewrite !pair_lt_unfold. simpl.
    destruct (decide (a1 = a2)) as [->|H12].
    + destruct (decide (a2 = a3)) as [->|H23]; [apply py_lt_trans | done].
    + destruct (decide (a2 = a3)) as [->|H23].
      * by rewrite decide_False.
      * intros E1 E2. pose proof (py_lt_trans _ _ _ E1 E2) as E3.
        destruct (decide (a1 = a3)) as [->|]; [|done].
        by rewrite (py_lt_asym _ _ E1) in E2.
  - intros [a1 b1] [a2 b2]. rewrite !pair_lt_unfold. simpl.
    destruct (decide (a1 = a2)) as [->|H12].
    + rewrite decide_True by done.
      destruct (py_lt_total b1 b2) as [?|[->|?]]; auto.
    + rewrite decide_False by done.
      destruct (py_lt_total a1 a2) as [?|[?|?]]; auto.
Qed.

(** *** Sorting *)
Section sort.
Context {A K : Type} `{PyOrd K} (key : A → K).

Lemma insert_by_perm x l : insert_by key x l ≡ₚ x :: l.
Proof.
  induction l as [|y l IH]; simpl; [done|].
  destruct (py_lt (key y) (key x)); [|done].
  rewrite IH. apply Permutation_swap.
Qed.

Lemma sort_by_perm l : sort_by key l ≡ₚ l.
Proof.
  induction l as [|x l IH]; simpl; [done|].
  unfold sort_by in *. simpl. by rewrite insert_by_perm, IH.
Qed.

Context `{EqDecision K} `{!PyOrdLaws K}.

Lemma insert_by_sorted x l :
  StronglySorted (key_le key) l → StronglySorted (key_le key) (insert_by key x l).
Proof.
  induction 1 as [|y l Hl IH Hy]; simpl.
  - repeat constructor.
  - destruct (py_lt (key y) (key x)) eqn:E.
    + constructor; [done|].
      rewrite insert_by_perm. constructor; [|done].
      unfold key_le. by apply py_lt_asym.
    + constructor; [by constructor|].
      constructor; [done|].
      eapply Forall_impl; [exact Hy|]. intros z Hz. unfold key_le in *.
      by apply (py_le_trans _ (key y)).
Qed.

Lemma sort_by_sorted l : StronglySorted (key_le key) (sort_by key l).
Proof.
  induction l as [|x l IH]; [constructor|].
  unfold sort_by in *. simpl. by apply insert_by_sorted.
Qed.
End sort.

(** *** Grouping *)
Section groupby.
Context {A K : Type} `{EqDecision K} (key : A → K).

Lemma groupby_from_concat tgt l :
  (groupby_from key tgt l).1 ++ concat (groupby_from key tgt l).2 = l.
Proof.
  revert tgt. induction l as [|x l IH]; intros tgt; simpl; [done|].
  destruct (decide (key x = tgt)) as [E|E].
  - specialize (IH tgt). destruct (groupby_from key tgt l) as [g gs].
    simpl in *. by rewrite IH.
  - specialize (IH (key x)). destruct (groupby_from key (key x) l) as [g gs].
    simpl in *. by rewrite IH.
Qed.

Lemma groupby_concat l : concat (groupby key l) = l.
Proof.
  destruct l as [|x l]; simpl; [done|].
  pose proof (groupby_from_concat (key x) l) as E.
  destruct (groupby_from key (key x) l) as [g gs]. simpl in *. by rewrite E.
Qed.

Context `{PyOrd K} `{!PyOrdLaws K}.

(** On a sorted list the keys of the successive groups strictly
    increase, so no key is split over two groups. *)
Lemma groupby_from_sorted tgt l :
  StronglySorted (key_le key) l →
  Forall (λ x, py_lt (key x) tgt = false) l →
  ∃ ks, Forall (λ x, key x = tgt) (groupby_from key tgt l).1 ∧
        Forall2 (group_with_key key) ks (groupby_from key tgt l).2 ∧
        StronglySorted (λ a b, py_lt a b = true) ks ∧
        Forall (λ k, py_lt tgt k = true) ks.
Proof.
  revert tgt. induction l as [|x l IH]; intros tgt Hs Hge; simpl.
  { exists []. repeat split; constructor. }
  apply StronglySorted_inv in Hs as [Hs Hx].
  apply Forall_cons in Hge as [Hxt Hge].
  destruct (decide (key x = tgt)) as [E|E].
  - destruct (IH tgt Hs Hge) as (ks & Hg & Hgs & Hks & Hlt).
    destruct (groupby_from key tgt l) as [g gs]. simpl in *.
    exists ks. repeat split; try done. by constructor.
  - destruct (IH (key x) Hs) as (ks & Hg & Hgs & Hks & Hlt).
    { eapply Forall_impl; [exact Hx|]. by intros y Hy. }
    destruct (groupby_from key (key x) l) as [g gs]. simpl in *.
    assert (py_lt tgt (key x) = true) as Hlt'.
    { destruct (py_lt_total tgt (key x)) as [?|[?|?]]; [done|congruence|congruence]. }
    exists (key x :: ks). repeat split.
    + constructor.
    + constructor; [|done]. split; [done|]. by constructor.
    + by constructor.
    + constructor; [done|].
      eapply Forall_impl; [exact Hlt|]. intros k Hk. simpl in Hk.
      by apply (py_lt_trans _ (key x)).
Qed.

Lemma groupby_sorted l :
  StronglySorted (key_le key) l →
  ∃ ks, Forall2 (group_with_key key) ks (groupby key l) ∧
        StronglySorted (λ a b, py_lt a b = true) ks.
Proof.
  intros Hs. destruct l as [|x l]; simpl.
  { exists []. split; constructor. }
  apply StronglySorted_inv in Hs as [Hs Hx].
  destruct (groupby_from_sorted (key x) l Hs) as (ks & Hg & Hgs & Hks & Hlt).
  { eapply Forall_impl; [exact Hx|]. by intros y Hy. }
  destruct (groupby_from key (key x) l) as [g gs]. simpl in *.
  exists (key x :: ks). split.
  - constructor; [|done]. split; [done|]. by constructor.
  - by constructor.
Qed.

(** Two elements of a sorted list end up in the same group exactly when
    their keys are equal. *)
Lemma groupby_sorted_same_group l x y :
  StronglySorted (key_le key) l → x ∈ l → y ∈ l →
  (∃ g, g ∈ groupby key l ∧ x ∈ g ∧ y ∈ g) ↔ key x = key y.
Proof.
  intros Hs Hx Hy.
  destruct (groupby_sorted l Hs) as (ks & Hgs & Hks).
  assert (NoDup ks) as Hnd.
  { clear Hgs. induction Hks as [|k ks Hks IH Hk]; constructor; [|done].
    intros Hin. rewrite Forall_forall in Hk. specialize (Hk _ Hin).
    by rewrite py_lt_irrefl in Hk. }
  assert (∀ z, z ∈ l → ∃ i g, groupby key l !! i = Some g ∧ z ∈ g
                               ∧ ks !! i = Some (key z)) as Hfind.
  { intros z Hz. rewrite <- (groupby_concat l) in Hz.
    apply list_elem_of_In, in_concat in Hz as (g & Hg & Hzg).
    apply list_elem_of_In in Hg, Hzg.
    apply list_elem_of_lookup in Hg as [i Hi].
    destruct (Forall2_lookup_r _ _ _ _ _ Hgs Hi) as (k & Hk & _ & Hall).
    exists i, g. repeat split; [done..|].
    rewrite Forall_forall in Hall. by rewrite (Hall _ Hzg). }
  split.
  - intros (g & Hg & Hxg & Hyg).
    apply list_elem_of_lookup in Hg as [i Hi].
    destruct (Forall2_lookup_r _ _ _ _ _ Hgs Hi) as (k & Hk & _ & Hall).
    rewrite Forall_forall in Hall. by rewrite (Hall _ Hxg), (Hall _ Hyg).
  - intros E.
    destruct (Hfind x Hx) as (i & g & Hi & Hxg & Hki).
    destruct (Hfind y Hy) as (j & g' & Hj & Hyg & Hkj).
    rewrite <- E in Hkj.
    pose proof (NoDup_lookup _ _ _ _ Hnd Hki Hkj) as ->.
    exists g. split; [by eapply list_elem_of_lookup_2|]. split; [done|].
    congruence.
Qed.
End groupby.

(** *** Binary search *)
Lemma StronglySorted_lookup {A} (R : relation A) (l : list A) i j x y :
  StronglySorted R l → i < j → l !! i = Some x → l !! j = Some y → R x y.
Proof.
  intros Hs. revert i j. induction Hs as [|z l Hs IH Hz]; intros i j Hij Hi Hj.
  { done. }
  destruct j as [|j]; [lia|]. simpl in Hj. destruct i as [|i]; simpl in Hi.
  - injection Hi as ->. rewrite Forall_forall in Hz.
    apply Hz. by eapply list_elem_of_lookup_2.
  - apply (IH i j); [lia|done..].
Qed.

Lemma ascending_lookup a i j x y :
  ascending a → i ≤ j → a !! i = Some x → a !! j = Some y → (x ≤ y)%Z.
Proof.
  intros Hs Hij Hi Hj. destruct (decide (i = j)) as [->|].
  - rewrite Hi in Hj. injection Hj as ->. lia.
  - apply (StronglySorted_lookup Z.le a i j); [done|lia|done..].
Qed.

Lemma bisect_loop_spec fuel a x lo hi :
  ascending a → lo ≤ hi ≤ length a → hi - lo < fuel →
  (∀ i v, a !! i = Some v → i < lo → (v < x)%Z) →
  (∀ i v, a !! i = Some v → hi ≤ i → (x ≤ v)%Z) →
  let r := bisect_loop fuel a x lo hi in
  r ≤ length a ∧
  (∀ i v, a !! i = Some v → i < r → (v < x)%Z) ∧
  (∀ i v, a !! i = Some v → r ≤ i → (x ≤ v)%Z).
Proof.
  intros Hs. revert lo hi.
  induction fuel as [|fuel IH]; intros lo hi Hb Hf Hlo Hhi; [lia|].
  cbn [bisect_loop]. destruct (Nat.ltb_spec lo hi) as [Hlt|Hge].
  - pose proof (Nat.div_mod_eq (lo + hi) 2) as Hdiv.
    pose proof (Nat.mod_upper_bound (lo + hi) 2) as Hmod.
    set (mid := (lo + hi) / 2) in *.
    assert (lo ≤ mid < hi) as Hmid by lia.
    destruct (lookup_lt_is_Some_2 a mid) as [v Hv]; [lia|].
    rewrite Hv. destruct (Z.ltb_spec v x) as [Hvx|Hvx].
    + apply IH; [lia|lia| |done].
      intros i w Hw Hi.
      assert (w ≤ v)%Z by (apply (ascending_lookup a i mid); [done|lia|done..]).
      lia.
    + apply IH; [lia|lia|done|].
      intros i w Hw Hi.
      assert (v ≤ w)%Z by (apply (ascending_lookup a mid i); [done|lia|done..]).
      lia.
  - assert (lo = hi) as -> by lia. split; [lia|]. split; [done|done].
Qed.

(** On an ascending list [bisect_left] returns the position of the first
    element that is not smaller than [x]. *)
Lemma bisect_left_spec a x :
  ascending a →
  bisect_left a x ≤ length a ∧
  (∀ i v, a !! i = Some v → i < bisect_left a x → (v < x)%Z) ∧
  (∀ i v, a !! i = Some v → bisect_left a x ≤ i → (x ≤ v)%Z).
Proof.
  intros Hs. unfold bisect_left. apply bisect_loop_spec; [done|lia|lia| |].
  - intros i v _ Hi. lia.
  - intros i v Hv Hi. apply lookup_lt_Some in Hv. lia.
Qed.

Lemma StronglySorted_mono {A} (R R' : relation A) (l : list A) :
  (∀ x y, R x y → R' x y) → StronglySorted R l → StronglySorted R' l.
Proof.
  intros HR. induction 1 as [|x l Hs IH Hx]; constructor; [done|].
  eapply Forall_impl; [exact Hx|]. auto.
Qed.

Lemma sorted_ascending (l : list Z) : ascending (sorted l).
Proof.
  unfold ascending, sorted.
  eapply StronglySorted_mono; [|apply sort_by_sorted; apply _].
  intros x y. unfold key_le, py_lt, Z_pyord. simpl. by rewrite Z.ltb_ge.
Qed.

End PyFacts.

(** ** Facts about arrays *)
Module NpFacts.
Import Py Np PyFacts.

Lemma chunks_0 n buf : chunks n buf 0 = [].
Proof. done. Qed.

Lemma chunks_S n buf k :
  chunks n buf (S k) = take n buf :: chunks n (drop n buf) k.
Proof.
  unfold chunks. simpl. f_equal.
  rewrite <- fmap_S_seq. rewrite <- list_fmap_compose.
  apply list_fmap_ext. intros _ i _. simpl. by rewrite drop_drop.
Qed.

Lemma length_chunks n buf k : length (chunks n buf k) = k.
Proof. unfold chunks. by rewrite length_map, length_seq. Qed.

Lemma chunks_lookup n buf k i :
  i < k → chunks n buf k !! i = Some (take n (drop (i * n) buf)).
Proof.
  intros Hi. unfold chunks.
  change (map ?f ?l) with (f <$> l).
  by rewrite list_lookup_fmap, lookup_seq_lt.
Qed.

(** Cutting the concatenation of equally long rows gives the rows back. *)
Lemma chunks_concat n (rows : list (list Z)) :
  Forall (λ r, length r = n) rows → chunks n (concat rows) (length rows) = rows.
Proof.
  induction 1 as [|r rows Hr Hrows IH]; [done|].
  simpl. rewrite chunks_S.
  rewrite take_app_length' by done. rewrite drop_app_length' by done.
  by rewrite IH.
Qed.

Lemma concat_chunks n buf k :
  length buf = k * n → concat (chunks n buf k) = buf.
Proof.
  revert buf. induction k as [|k IH]; intros buf Hlen.
  - simpl in *. by destruct buf.
  - rewrite chunks_S. simpl. rewrite IH.
    + apply take_drop.
    + rewrite length_drop. lia.
Qed.

Lemma chunks_lengths n buf k :
  k * n ≤ length buf → Forall (λ r, length r = n) (chunks n buf k).
Proof.
  revert buf. induction k as [|k IH]; intros buf Hlen.
  - constructor.
  - rewrite chunks_S. constructor.
    + rewrite length_take. lia.
    + apply IH. rewrite length_drop. lia.
Qed.

Lemma rows_of_of_rows sh rows :
  Forall (λ r, length r = size_of sh) rows → rows_of (of_rows sh rows) = rows.
Proof. intros H. unfold rows_of, of_rows. simpl. by apply chunks_concat. Qed.

Lemma length_concat_same {A} n (rows : list (list A)) :
  Forall (λ r, length r = n) rows → length (concat rows) = length rows * n.
Proof. induction 1 as [|r rows Hr _ IH]; simpl; [done|]. rewrite length_app. lia. Qed.

Lemma wf_of_rows sh rows :
  Forall (λ r, length r = size_of sh) rows → wf_array (of_rows sh rows).
Proof. intros H. unfold wf_array, of_rows. simpl. by apply length_concat_same. Qed.

Section rows.
Context (a : ndarray) (n : nat) (sh : list nat).
Hypothesis Hshape : shape a = n :: sh.
Hypothesis Hwf : wf_array a.

Lemma wf_data_length : length (data a) = n * size_of sh.
Proof using Hshape Hwf. unfold wf_array in Hwf. by rewrite Hwf, Hshape. Qed.

Lemma length_rows_of : length (rows_of a) = n.
Proof using Hshape. unfold rows_of. rewrite Hshape. apply length_chunks. Qed.

Lemma rows_of_lengths : Forall (λ r, length r = size_of sh) (rows_of a).
Proof using Hshape Hwf.
  unfold rows_of. rewrite Hshape. apply chunks_lengths.
  by rewrite wf_data_length.
Qed.

Lemma concat_rows_of : concat (rows_of a) = data a.
Proof using Hshape Hwf.
  unfold rows_of. rewrite Hshape. apply concat_chunks, wf_data_length.
Qed.

Lemma of_rows_rows_of : of_rows sh (rows_of a) = a.
Proof using Hshape Hwf.
  unfold of_rows. rewrite concat_rows_of, length_rows_of.
  destruct a as [s d]. simpl in *. by subst.
Qed.
End rows.

End NpFacts.

(** ** [pad_batch] *)
Module PadBatch.
Import Py Np Decorators Spec Examples PyFacts NpFacts.

(** *** The batch-size policy *)
Lemma batch_sizes_ascending config :
  valid_policy config → ascending (batch_sizes_of config).
Proof.
  intros Hv. unfold batch_sizes_of, ascending.
  assert (ascending [max_batch_size config]) as H1 by repeat constructor.
  destruct (batcher config) as [b|] eqn:Eb; [|done].
  destruct (preferred_batch_size b) as [sizes|] eqn:Es; [|done].
  apply StronglySorted_app. split_and!; [|apply sorted_ascending|done].
  intros x y Hx Hy. apply list_elem_of_singleton in Hy as ->.
  specialize (Hv b sizes Eb Es). rewrite Forall_forall in Hv. apply Hv.
  unfold sorted in Hx. by rewrite sort_by_perm in Hx.
Qed.

Lemma batch_sizes_last config :
  last (batch_sizes_of config) = Some (max_batch_size config).
Proof. unfold batch_sizes_of. by rewrite last_snoc. Qed.

Lemma bisect_left_target policy n m :
  ascending policy → last policy = Some m → (n ≤ m)%Z →
  ∃ target, policy !! bisect_left policy n = Some target ∧ is_target policy n target.
Proof.
  intros Hs Hlast Hn.
  destruct (bisect_left_spec policy n Hs) as (Hlen & Hlo & Hhi).
  set (r := bisect_left policy n) in *.
  assert (r < length policy) as Hr.
  { rewrite last_lookup in Hlast.
    destruct (decide (r < length policy)) as [|Hge]; [done|].
    assert (m < n)%Z; [|lia].
    apply (Hlo _ _ Hlast). apply lookup_lt_Some in Hlast. lia. }
  destruct (lookup_lt_is_Some_2 policy r Hr) as [t Ht].
  exists t. split; [done|]. split_and!.
  - by eapply list_elem_of_lookup_2.
  - by apply (Hhi r).
  - intros b Hb Hnb. apply list_elem_of_lookup in Hb as [i Hi].
    destruct (decide (i < r)) as [Hlt|Hge].
    + specialize (Hlo _ _ Hi Hlt). lia.
    + apply (ascending_lookup policy r i); [done|lia|done..].
Qed.

Lemma is_target_self policy n target :
  is_target policy n target → n ∈ policy → target = n.
Proof. intros (_ & Hge & Hmin) Hn. specialize (Hmin n Hn). lia. Qed.

(** *** Padding one tensor *)
Lemma repeat_last_rows (rows : list (list Z)) (r : list Z) (c : Z) :
  concat (zip_with (λ row c, replicate (Z.to_nat c) row)
            (rows ++ [r]) (replicate (length rows) 1%Z ++ [c]))
  = rows ++ replicate (Z.to_nat c) r.
Proof.
  rewrite zip_with_app by (by rewrite length_replicate).
  rewrite concat_app. simpl. rewrite app_nil_r. f_equal.
  induction rows as [|x rows IH]; simpl; [done|]. by rewrite IH.
Qed.

Lemma pad_input_spec (a : ndarray) (n : nat) (sh : list nat) (target : Z) :
  shape a = n :: sh → wf_array a → 1 ≤ n → (Z.of_nat n ≤ target)%Z →
  ∃ p, pad_input target (KArray a) = Ok (KArray p) ∧
       shape p = Z.to_nat target :: sh ∧ wf_array p ∧
       rows_of p = take (n - 1) (rows_of a)
                     ++ replicate (Z.to_nat target - (n - 1))
                          (default [] (rows_of a !! (n - 1))).
Proof.
  intros Hsh Hwf Hn Ht. unfold pad_input, shape0. rewrite Hsh. simpl.
  unfold np_ones. rewrite (proj2 (Z.ltb_ge _ _)) by lia. simpl.
  unfold np_repeat0. rewrite Hsh.
  replace (Z.to_nat (Z.of_nat n - 1)) with (n - 1) by lia.
  rewrite (bool_decide_true (_ = n))
    by (rewrite length_app, length_replicate; simpl; lia).
  simpl. rewrite existsb_app. simpl.
  rewrite (proj2 (Z.ltb_ge _ _)) by lia.
  assert (existsb (λ c : Z, (c <? 0)%Z) (replicate (n - 1) 1%Z) = false) as ->.
  { induction (n - 1); simpl; done. }
  simpl.
  pose proof (length_rows_of a n sh Hsh) as Hrows.
  pose proof (rows_of_lengths a n sh Hsh Hwf) as Hrl.
  destruct (rows_of a) as [|r0 rows0] eqn:Erows using rev_ind; [simpl in *; lia|].
  clear IHrows0. rewrite length_app in Hrows. simpl in Hrows.
  assert (n - 1 = length rows0) as Hn1 by lia.
  rewrite Hn1, repeat_last_rows.
  rewrite take_app_length, lookup_app_r, Nat.sub_diag by done. simpl.
  replace (Z.to_nat (target - Z.of_nat n + 1))
    with (Z.to_nat target - length rows0) by lia.
  apply Forall_app in Hrl as [Hrl0 Hr0]. apply Forall_inv in Hr0.
  assert (Forall (λ r, length r = size_of sh)
            (rows0 ++ replicate (Z.to_nat target - length rows0) r0)) as Hall.
  { apply Forall_app. split; [done|]. by apply Forall_replicate. }
  eexists. split; [done|]. split_and!.
  - unfold of_rows. simpl. f_equal. rewrite length_app, length_replicate. lia.
  - by apply wf_of_rows.
  - by apply rows_of_of_rows.
Qed.

Lemma pad_input_padded (a : ndarray) (n : nat) (sh : list nat) (target : Z) :
  shape a = n :: sh → wf_array a → 1 ≤ n → (Z.of_nat n ≤ target)%Z →
  ∃ p, pad_input target (KArray a) = Ok (KArray p) ∧
       padded_to n (Z.to_nat target) a p ∧
       (target = Z.of_nat n → p = a).
Proof.
  intros Hsh Hwf Hn Ht.
  destruct (pad_input_spec a n sh target Hsh Hwf Hn Ht) as (p & Hp & Hps & Hpwf & Hrows).
  pose proof (length_rows_of a n sh Hsh) as Hlen.
  exists p. split; [done|]. split; [split_and!|].
  - by rewrite Hps, Hsh.
  - intros i Hi. rewrite Hrows, lookup_app_l by (rewrite length_take; lia).
    by rewrite lookup_take_lt.
  - intros i Hi. rewrite Hrows, lookup_app_r by (rewrite length_take; lia).
    rewrite length_take, Hlen.
    destruct (lookup_lt_is_Some_2 (rows_of a) (n - 1)) as [r Hr]; [lia|].
    rewrite Hr. simpl. apply lookup_replicate_2. lia.
  - intros ->. rewrite Nat2Z.id in *.
    etrans; [symmetry; apply (of_rows_rows_of p n sh Hps Hpwf)|].
    etrans; [|apply (of_rows_rows_of a n sh Hsh Hwf)]. f_equal.
    rewrite Hrows.
    destruct (lookup_lt_is_Some_2 (rows_of a) (n - 1)) as [r Hr]; [lia|].
    rewrite Hr. simpl. replace (n - (n - 1)) with 1 by lia. simpl.
    etrans; [|apply (take_drop (n - 1) (rows_of a))]. f_equal.
    apply list_eq. intros [|i]; simpl.
    + by rewrite lookup_drop, Nat.add_0_r.
    + rewrite lookup_drop. symmetry. apply lookup_ge_None. lia.
Qed.

Lemma pad_inputs_spec (inputs : dict kwarg) (n : nat) (target : Z) :
  1 ≤ n → (Z.of_nat n ≤ target)%Z →
  (∀ k v, (k, v) ∈ inputs → ∃ a sh, v = KArray a ∧ shape a = n :: sh ∧ wf_array a) →
  ∃ new_inputs,
    pad_inputs target inputs = Ok new_inputs ∧
    padded_inputs n target inputs new_inputs.
Proof.
  intros Hn Ht. unfold pad_inputs. induction inputs as [|[k v] inputs IH]; intros Hall.
  - exists []. split; [done|constructor].
  - destruct (Hall k v) as (a & sh & -> & Hsh & Hwf); [apply list_elem_of_here|].
    destruct IH as (rest & Hrest & Hf2);
      [by intros k' v' Hin; apply (Hall k'), list_elem_of_further|].
    destruct (pad_input_padded a n sh target Hsh Hwf Hn Ht) as (p & Hp & Hpad & Hid).
    exists ((k, KArray p) :: rest). split.
    + cbn [mapM]. rewrite Hp. simpl. by rewrite Hrest.
    + constructor; [|done]. simpl. split; [done|]. by exists a, p.
Qed.

Section pad_batch.
Context {W Ret : Type} (wrapped : callable W (dict kwarg) Ret) (inst : instance).
Context (config : TritonModelConfig) (kwargs : dict kwarg) (n : nat).
Hypothesis Hconfig : get_model_config wrapped inst = Ok config.
Hypothesis Hpolicy : valid_policy config.
Hypothesis Hbatch : merged_batch kwargs n.
Hypothesis Hn : 1 ≤ n.
Hypothesis Hmax : (Z.of_nat n ≤ max_batch_size config)%Z.

Lemma pad_batch_run (st : run_state W (dict kwarg)) :
  ∃ target new_inputs,
    is_target (batch_sizes_of config) (Z.of_nat n) target ∧
    pad_batch wrapped inst kwargs st
      = invoke wrapped (dict_update kwargs new_inputs) st ∧
    padded_inputs n target (without_context kwargs) new_inputs.
Proof using All.
  destruct Hbatch as (Hnd & Hne & Hall).
  destruct (bisect_left_target (batch_sizes_of config) (Z.of_nat n)
              (max_batch_size config)) as (target & Hlook & Htarget);
    [by apply batch_sizes_ascending | apply batch_sizes_last | done |].
  destruct (pad_inputs_spec (without_context kwargs) n target)
    as (new_inputs & Hmap & Hf2); [done | by destruct Htarget as (_ & ? & _) | done |].
  exists target, new_inputs. split; [done|]. split; [|done].
  assert (∃ a0 sh0, first_value_of (without_context kwargs) = Ok (KArray a0)
                    ∧ shape a0 = n :: sh0) as (a0 & sh0 & Hfirst & Hsh0).
  { destruct (without_context kwargs) as [|[k0 v0] inputs]; [done|].
    destruct (Hall k0 v0) as (a0 & sh0 & -> & Hsh0 & _); [apply list_elem_of_here|].
    by exists a0, sh0. }
  unfold pad_batch, mbind, M_mbind, M_bind, lift.
  rewrite Hfirst, Hconfig. cbn -[pad_inputs bisect_left batch_sizes_of].
  rewrite Hsh0, Hlook, Hmap. done.
Qed.
End pad_batch.

Lemma batch_sizes_le_max config b :
  valid_policy config → b ∈ batch_sizes_of config → (b ≤ max_batch_size config)%Z.
Proof.
  intros Hv Hb. pose proof (batch_sizes_ascending config Hv) as Hs.
  pose proof (batch_sizes_last config) as Hl. rewrite last_lookup in Hl.
  apply list_elem_of_lookup in Hb as [i Hi].
  eapply (ascending_lookup _ i); [done| |done..].
  apply lookup_lt_Some in Hi. lia.
Qed.

Lemma without_context_NoDup (kwargs : dict kwarg) :
  NoDup (dict_keys kwargs) → NoDup (dict_keys (without_context kwargs)).
Proof.
  intros H. unfold without_context.
  pose proof (dict_keys_filter (λ k, k ≠ CONTEXT_KEY) kwargs) as E.
  cbv beta in E. rewrite E. by apply NoDup_filter.
Qed.

Lemma dict_get_without_context (kwargs : dict kwarg) k :
  k ≠ CONTEXT_KEY → dict_get (without_context kwargs) k = dict_get kwargs k.
Proof.
  intros H. unfold without_context.
  pose proof (dict_get_filter (λ k, k ≠ CONTEXT_KEY) kwargs k) as E.
  cbv beta in E. rewrite E. by rewrite decide_True.
Qed.

Lemma batch_sizes_policy (config : TritonModelConfig) (b : Z) :
  b ∈ batch_sizes_of config ↔ policy_value config b.
Proof.
  unfold batch_sizes_of, policy_value. rewrite elem_of_app, list_elem_of_singleton.
  destruct (batcher config) as [bt|]; [destruct (preferred_batch_size bt) as [sizes|] eqn:E|].
  - unfold sorted. rewrite sort_by_perm. split.
    + intros [H|H]; [right|by left]. by exists bt, sizes.
    + intros [H|(bt' & sizes' & [= <-] & Hs & H)]; [by right|left]. congruence.
  - split.
    + intros [H|H]; [by apply elem_of_nil in H|by left].
    + intros [H|(bt' & sizes' & [= <-] & Hs & H)]; [by right|congruence].
  - split.
    + intros [H|H]; [by apply elem_of_nil in H|by left].
    + intros [H|(bt' & sizes' & [=] & _)]; by right.
Qed.

Lemma is_target_policy (config : TritonModelConfig) (n target : Z) :
  is_target (batch_sizes_of config) n target ↔ smallest_policy_value config n target.
Proof.
  unfold is_target, smallest_policy_value. rewrite batch_sizes_policy.
  split; intros (Hin & Hge & Hmin); (split; [done|]); (split; [done|]);
    intros b Hb; apply Hmin; by apply batch_sizes_policy.
Qed.

Section pad_batch_claims.
Context {W Ret : Type} (wrapped : callable W (dict kwarg) Ret) (inst : instance).
Context (config : TritonModelConfig) (kwargs : dict kwarg) (n : nat).

(** C4: [pad_batch] pads every tensor of a merged batch to the target size,
    the smallest among the preferred batch sizes and the maximal batch size
    that is at least the current size: the first [n - 1] rows are the
    original rows and every further row is the original last row.  The
    wrapped callable is invoked with the padded batch. *)
Theorem pad_batch_pads_to_target (st : run_state W (dict kwarg)) :
  get_model_config wrapped inst = Ok config →
  valid_policy config →
  merged_batch kwargs n →
  1 ≤ n →
  (Z.of_nat n ≤ max_batch_size config)%Z →
  ∃ target new_kwargs,
    smallest_policy_value config (Z.of_nat n) target ∧
    pad_batch wrapped inst kwargs st = invoke wrapped new_kwargs st ∧
    ∀ k v, k ≠ CONTEXT_KEY → dict_get kwargs k = Some v →
           ∃ a p, v = KArray a ∧ dict_get new_kwargs k = Some (KArray p) ∧
                  padded_to n (Z.to_nat target) a p.
Proof.
  intros Hconfig Hpolicy Hbatch Hn Hmax.
  destruct (pad_batch_run wrapped inst config kwargs n Hconfig Hpolicy Hbatch Hn Hmax st)
    as (target & new_inputs & Htarget & Hrun & Hpad).
  destruct Hbatch as (Hnd & _ & _).
  exists target, (dict_update kwargs new_inputs).
  split; [by apply is_target_policy|]. split; [done|].
  intros k v Hk Hv. rewrite <- dict_get_without_context in Hv by done.
  apply dict_get_Some_elem, list_elem_of_lookup in Hv as [i Hi].
  destruct (Forall2_lookup_l _ _ _ _ _ Hpad Hi) as ([k' v'] & Hi' & Hk' & a & p & Ha & Hp & Hpadded & _).
  simpl in *. subst. exists a, p. split; [done|]. split; [|done].
  assert (dict_keys new_inputs = dict_keys (without_context kwargs)) as Hkeys.
  { unfold dict_keys. change (map fst ?l) with (fst <$> l).
    apply list_eq. intros j. rewrite !list_lookup_fmap.
    destruct (without_context kwargs !! j) as [kv|] eqn:Ej.
    - destruct (Forall2_lookup_l _ _ _ _ _ Hpad Ej) as (kv' & -> & E & _).
      simpl. by rewrite E.
    - apply Forall2_length in Hpad. apply lookup_ge_None in Ej.
      rewrite (proj2 (lookup_ge_None _ _)); [done|lia]. }
  assert (NoDup (dict_keys new_inputs)) as Hnd'.
  { rewrite Hkeys. by apply without_context_NoDup. }
  rewrite dict_get_update by done.
  by rewrite (dict_get_lookup _ _ _ _ Hnd' Hi').
Qed.

(** C10: when the current batch size is itself an admissible size,
    [pad_batch] hands the keyword arguments to the wrapped callable
    unchanged. *)
Theorem pad_batch_admissible_identity (st : run_state W (dict kwarg)) :
  get_model_config wrapped inst = Ok config →
  valid_policy config →
  merged_batch kwargs n →
  1 ≤ n →
  Z.of_nat n ∈ batch_sizes_of config →
  pad_batch wrapped inst kwargs st = invoke wrapped kwargs st.
Proof.
  intros Hconfig Hpolicy Hbatch Hn Hin.
  pose proof (batch_sizes_le_max config _ Hpolicy Hin) as Hmax.
  destruct (pad_batch_run wrapped inst config kwargs n Hconfig Hpolicy Hbatch Hn Hmax st)
    as (target & new_inputs & Htarget & Hrun & Hpad).
  destruct Hbatch as (Hnd & _ & _).
  pose proof (is_target_self _ _ _ Htarget Hin) as ->.
  assert (new_inputs = without_context kwargs) as ->.
  { symmetry. apply list_eq_Forall2. eapply Forall2_impl; [exact Hpad|].
    intros [k v] [k' v'] (Hk & a & p & Ha & Hp & _ & Hid). simpl in *.
    subst. by rewrite Hid. }
  rewrite Hrun. f_equal. apply dict_update_same.
  intros k v Hkv. apply dict_get_elem; [done|].
  unfold without_context in Hkv. by apply list_elem_of_filter in Hkv as [_ ?].
Qed.
End pad_batch_claims.

Lemma valid_policy_config_4_8 : valid_policy config_4_8.
Proof.
  intros b sizes [= <-] [= <-]. simpl.
  repeat (apply Forall_cons; split; [lia|]). by apply Forall_nil.
Qed.

Lemma merged_batch_single (a : ndarray) (n : nat) (sh : list nat) :
  shape a = n :: sh → wf_array a → merged_batch [("x", KArray a)] n.
Proof.
  intros Hsh Hwf. split_and!.
  - repeat constructor. apply not_elem_of_nil.
  - done.
  - intros k v Hin. cbv in Hin. apply list_elem_of_singleton in Hin as [= -> ->].
    by exists a, sh.
Qed.

Lemma smallest_policy_value_4 (target : Z) :
  smallest_policy_value config_4_8 3 target → target = 4%Z.
Proof.
  intros (Hin & Hge & Hmin).
  assert (policy_value config_4_8 4) as H4.
  { right. exists {| preferred_batch_size := Some [8; 4]%Z |}, [8; 4]%Z.
    split; [done|]. split; [done|]. apply list_elem_of_further, list_elem_of_here. }
  specialize (Hmin 4%Z H4 ltac:(lia)).
  destruct Hin as [->|(bt & sizes & [= <-] & [= <-] & Hin)]; [simpl in Hmin; lia|].
  apply elem_of_cons in Hin as [->|Hin]; [lia|].
  by apply list_elem_of_singleton in Hin.
Qed.

(** Three rows under the preferred sizes 4 and 8 are padded to four rows. *)
Lemma pad_batch_pads_to_target_witness :
  ∃ new_kwargs p,
    pad_batch echo_kwargs None [("x", KArray x_3_2)] st0
      = invoke echo_kwargs new_kwargs st0 ∧
    dict_get new_kwargs "x" = Some (KArray p) ∧
    padded_to 3 4 x_3_2 p.
Proof.
  destruct (pad_batch_pads_to_target echo_kwargs None config_4_8
              [("x", KArray x_3_2)] 3 st0) as (target & new_kwargs & Ht & Hrun & Hall).
  - reflexivity.
  - apply valid_policy_config_4_8.
  - by apply (merged_batch_single x_3_2 3 [2]).
  - lia.
  - simpl. lia.
  - apply smallest_policy_value_4 in Ht. subst target.
    destruct (Hall "x" (KArray x_3_2)) as (a & p & Ha & Hp & Hpad); [done|done|].
    injection Ha as <-. by exists new_kwargs, p.
Defined.

Lemma pad_batch_admissible_identity_witness :
  pad_batch echo_kwargs None [("x", KArray x_4_2)] st0
    = invoke echo_kwargs [("x", KArray x_4_2)] st0.
Proof.
  apply (pad_batch_admissible_identity echo_kwargs None config_4_8
           [("x", KArray x_4_2)] 4 st0).
  - reflexivity.
  - apply valid_policy_config_4_8.
  - by apply (merged_batch_single x_4_2 4 [2]).
  - lia.
  - vm_compute. apply list_elem_of_here.
Defined.

End PadBatch.

(** ** [convert_output] *)
Module ConvertOutput.
Import Py Np Decorators Spec Examples PyFacts.

Section convert_output.
Context {W Arg Ret : Type} (wrapped : callable W Arg Ret) (inst : instance).

(** C6: [convert_output] returns a mapping unchanged and raises a
    validation error for an object that is neither a mapping, a list nor a
    tuple, whatever the configuration and whether or not the callable is
    bound.  Given the configuration it works with, a list or tuple whose
    length differs from the number of declared outputs raises a validation
    error; one of that length becomes, when the declared names are distinct,
    the mapping that pairs the i-th declared output name with the i-th
    element, in the declared order.  Without a configuration (none is given
    and the callable is not bound) a list or tuple raises the validation
    error of [get_triton_context]. *)
Theorem convert_output_spec (outs : pyout) (mc : option TritonModelConfig) :
  (∀ d, outs = OutDict d → convert_output outs wrapped inst mc = Ok d) ∧
  (∀ ty, outs = OutOther ty →
     ∃ msg, convert_output outs wrapped inst mc = Raise (PytritonValidationError msg)) ∧
  (∀ c l, resolve_config wrapped inst mc = Ok c → is_sequence outs l →
     (length l ≠ length (outputs c) →
        ∃ msg, convert_output outs wrapped inst mc = Raise (PytritonValidationError msg)) ∧
     (length l = length (outputs c) → NoDup (name <$> outputs c) →
        ∃ d, convert_output outs wrapped inst mc = Ok d ∧
             dict_keys d = name <$> outputs c ∧
             ∀ i o x, outputs c !! i = Some o → l !! i = Some x →
                      dict_get d (name o) = Some x)) ∧
  (∀ e l, resolve_config wrapped inst mc = Raise e → is_sequence outs l →
     is_validation_error e ∧ convert_output outs wrapped inst mc = Raise e).
Proof.
  split; [by intros d ->|]. split; [intros ty ->; simpl; eauto|]. split; cycle 1.
  { intros e l He Hseq. unfold resolve_config in He. split.
    - destruct mc as [c|]; [done|]. unfold get_model_config, get_triton_context in He.
      destruct inst as [[[] [ctx|]]|];
        try done; try (injection He as <-; by eexists);
        (destruct (triton_context_attr wrapped); [done|]; injection He as <-; by eexists).
    - by destruct Hseq as [-> | ->]; simpl; rewrite He. }
  intros c l Hc Hseq. unfold resolve_config in Hc. split.
  - intros Hlen. destruct Hseq as [-> | ->]; simpl; rewrite Hc; simpl;
      rewrite bool_decide_true by done; eauto.
  - intros Hlen Hnd.
    assert (dict_keys (zip (name <$> outputs c) l) = name <$> outputs c) as Hk
      by (apply zip_keys; by rewrite length_fmap).
    exists (zip (name <$> outputs c) l). split; [|split; [done|]].
    + destruct Hseq as [-> | ->]; simpl; rewrite Hc; simpl;
        rewrite bool_decide_false by (by intros ?);
        unfold dict_of_pairs; by rewrite dict_of_pairs_NoDup by (by rewrite Hk).
    + intros i o x Ho Hx. eapply dict_get_lookup; [by rewrite Hk|].
      apply zip_lookup; [by rewrite list_lookup_fmap, Ho | done].
Qed.
End convert_output.

Lemma NoDup_y_z : NoDup (name <$> outputs config_y_z).
Proof.
  simpl. apply NoDup_cons. split; [|apply NoDup_singleton].
  intros H%list_elem_of_singleton. discriminate.
Qed.

(** An unbound callable that returns a mapping, a bound one that returns a
    list of the wrong or of the right length, and a string. *)
Lemma convert_output_spec_witness :
  convert_output (OutDict [("y", y_1)]) echo_outputs None None = Ok [("y", y_1)] ∧
  (∃ msg, convert_output (OutOther "str") echo_outputs None None
          = Raise (PytritonValidationError msg)) ∧
  (∃ msg, convert_output (OutList [y_1]) (bound_y_z (λ _ : unit, OutList [y_1])) None None
          = Raise (PytritonValidationError msg)) ∧
  (∃ d, convert_output (OutTuple [y_1; z_1]) (bound_y_z (λ _ : unit, OutList [y_1])) None None
        = Ok d ∧
        dict_keys d = ["y"; "z"] ∧
        dict_get d "y" = Some y_1 ∧ dict_get d "z" = Some z_1).
Proof.
  split_and!.
  - destruct (convert_output_spec echo_outputs None (OutDict [("y", y_1)]) None)
      as (Hdict & _ & _ & _).
    by apply Hdict.
  - destruct (convert_output_spec echo_outputs None (OutOther "str") None)
      as (_ & Hother & _ & _).
    by apply (Hother "str").
  - destruct (convert_output_spec (bound_y_z (λ _ : unit, OutList [y_1])) None
                (OutList [y_1]) None) as (_ & _ & Hseq & _).
    destruct (Hseq config_y_z [y_1]) as [Hbad _]; [reflexivity | by left |].
    apply Hbad. simpl. lia.
  - destruct (convert_output_spec (bound_y_z (λ _ : unit, OutList [y_1])) None
                (OutTuple [y_1; z_1]) None) as (_ & _ & Hseq & _).
    destruct (Hseq config_y_z [y_1; z_1]) as [_ Hok]; [reflexivity | by right |].
    destruct (Hok eq_refl NoDup_y_z) as (d & Hd & Hkeys & Hget).
    exists d. split; [done|]. split; [done|]. split.
    + by apply (Hget 0 {| name := "y" |} y_1).
    + by apply (Hget 1 {| name := "z" |} z_1).
Defined.

End ConvertOutput.

(** ** [batch] *)
Module Batch.
Import Py Np Decorators Spec Examples PyFacts NpFacts.

Lemma mapM_raise {A B} (f : A → result B) l e :
  mapM f l = Raise e → ∃ x, x ∈ l ∧ f x = Raise e.
Proof.
  induction l as [|x l IH]; simpl; [done|].
  destruct (f x) as [y|e'] eqn:Ef; simpl.
  - destruct (mapM f l) as [ys|e'']; simpl; [done|].
    intros [= ->]. destruct IH as (x' & Hin & Hx'); [done|].
    exists x'. split; [by apply list_elem_of_further | done].
  - intros [= ->]. exists x. split; [apply list_elem_of_here | done].
Qed.

Lemma np_concatenate_raise arrs e :
  np_concatenate arrs = Raise e → ¬ is_validation_error e.
Proof.
  unfold np_concatenate. intros H [msg ->].
  repeat (case_match; try done).
Qed.

Lemma concat_input_raise req_list model_input e :
  concat_input req_list model_input = Raise e → ¬ is_validation_error e.
Proof.
  unfold concat_input. destruct (mapM _ req_list) as [arrs|e'] eqn:Em; simpl.
  - apply np_concatenate_raise.
  - intros [= ->] [msg ->]. apply mapM_raise in Em as (r & _ & Hr).
    unfold dict_getitem in Hr. by destruct (dict_get r model_input).
Qed.

Lemma merge_inputs_raise input_names req_list inputs e :
  merge_inputs input_names req_list inputs = Raise e → ¬ is_validation_error e.
Proof.
  revert inputs. induction input_names as [|nm names IH]; intros inputs; simpl; [done|].
  destruct (concat_input req_list nm) as [c|e'] eqn:Ec; simpl.
  - apply IH.
  - intros [= ->]. by eapply concat_input_raise.
Qed.

Section batch_check.
Context {W : Type} (wrapped : callable W (dict kwarg) pyout) (inst : instance).
Context (req0 : request) (rest : list request) (kwargs : dict kwarg).

Lemma keys_check_true :
  existsb (λ req_dict2, bool_decide (keys_view req0 ≠ keys_view req_dict2)) rest = true
  ↔ ∃ r, r ∈ rest ∧ keys_view r ≠ keys_view req0.
Proof.
  rewrite existsb_exists. split.
  - intros (r & Hin & Hr). apply bool_decide_eq_true in Hr.
    exists r. split; [by apply list_elem_of_In | by intros E; apply Hr].
  - intros (r & Hin & Hr). exists r. split; [by apply list_elem_of_In|].
    apply bool_decide_eq_true. by intros E; apply Hr.
Qed.

(** Once the key sets agree the decorator either stops in the merge, with an
    exception that is not a validation error, or invokes the wrapped
    callable exactly once. *)
Lemma batch_after_check (st : run_state W (dict kwarg)) :
  existsb (λ req_dict2, bool_decide (keys_view req0 ≠ keys_view req_dict2)) rest = false →
  (∃ e, merge_inputs (dict_keys req0) (req0 :: rest) [] = Raise e ∧
        batch wrapped inst (req0 :: rest) kwargs st = (Raise e, st)) ∨
  (∃ inputs, merge_inputs (dict_keys req0) (req0 :: rest) [] = Ok inputs ∧
     calls (batch wrapped inst (req0 :: rest) kwargs st).2
       = calls st ++ [dict_update kwargs (prod_map id KArray <$> inputs)]).
Proof.
  intros Hchk. unfold batch. rewrite Hchk.
  destruct (merge_inputs (dict_keys req0) (req0 :: rest) []) as [inputs|e] eqn:Em.
  - right. exists inputs. split; [done|].
    unfold mbind, M_mbind, M_bind, lift, invoke. cbn -[split_outputs convert_output dict_update].
    destruct (call wrapped _ (world st)) as [[raw|e] w']; [|done].
    destruct (convert_output raw wrapped inst None); [|done].
    by destruct (split_outputs _ _ _).
  - left. by exists e.
Qed.

(** C3 (amended): [batch] stops with the validation error about differing
    key sets, leaving the call log untouched, exactly when some request's
    key set differs from the first request's. *)
Theorem batch_keys_check (st : run_state W (dict kwarg)) :
  (∃ r, r ∈ rest ∧ keys_view r ≠ keys_view req0) ↔
  batch wrapped inst (req0 :: rest) kwargs st
    = (Raise (PytritonValidationError KEYS_MISMATCH), st).
Proof.
  rewrite <- keys_check_true. split.
  - intros Hchk. unfold batch. by rewrite Hchk.
  - intros Hb.
    destruct (existsb _ rest) eqn:Hchk; [done|]. exfalso.
    destruct (batch_after_check st Hchk) as [(e & Hm & He) | (inputs & _ & Hcalls)].
    + rewrite He in Hb. injection Hb as ->.
      apply (merge_inputs_raise _ _ _ _ Hm). by eexists.
    + rewrite Hb in Hcalls. simpl in Hcalls.
      apply (f_equal length) in Hcalls. rewrite length_app in Hcalls. simpl in Hcalls. lia.
Qed.
End batch_check.

(** C3, as stated, fails: with equal key sets [batch] still raises a
    validation error when the wrapped callable returns a sequence whose
    length is not the number of declared outputs. *)
Lemma batch_validation_error_without_mismatch :
  (∃ msg st',
      batch (bound_y_z (λ _, OutList [y_1])) None
        [[("x", x_3_2)]; [("x", x_4_2)]] [] st0
      = (Raise (PytritonValidationError msg), st')) ∧
  ¬ (∃ r, r ∈ [[("x", x_3_2)]; [("x", x_4_2)]] ∧
          keys_view r ≠ keys_view [("x", x_3_2)]).
Proof.
  split.
  - eexists _, _. unfold batch.
    assert (existsb (λ req_dict2 : request,
              bool_decide (keys_view [("x", x_3_2)] ≠ keys_view req_dict2))
              [[("x", x_4_2)]] = false) as ->.
    { simpl. rewrite orb_false_r. by apply bool_decide_eq_false_2; intros []. }
    reflexivity.
  - intros (r & Hin & Hr). apply Hr.
    apply elem_of_cons in Hin as [->|Hin]; [done|].
    by apply list_elem_of_singleton in Hin as ->.
Qed.

(** *** Merge *)
Lemma np_concatenate_ok (arrs : list ndarray) (bs : list nat) (sh : list nat) :
  arrs ≠ [] → Forall2 (λ a b, shape a = b :: sh) arrs bs →
  np_concatenate arrs = Ok {| shape := sum_list bs :: sh; data := concat (data <$> arrs) |}.
Proof.
  intros Hne Hf. unfold np_concatenate.
  destruct Hf as [|a0 b0 arest bs' Ha0 Hrest]; [done|].
  rewrite Ha0.
  assert (forallb (λ a, match shape a with
                        | [] => false
                        | _ :: sh' => bool_decide (sh' = sh)
                        end) arest = true) as ->.
  { apply forallb_forall. intros a Hin. apply list_elem_of_In in Hin.
    apply list_elem_of_lookup in Hin as [i Hi].
    destruct (Forall2_lookup_l _ _ _ _ _ Hrest Hi) as (b & _ & ->).
    by apply bool_decide_eq_true. }
  assert (Forall2 (λ a b, shape a = b :: sh) (a0 :: arest) (b0 :: bs')) as Hall
    by (by constructor).
  assert (sum_list (map (λ a, hd 0 (shape a)) (a0 :: arest)) = sum_list (b0 :: bs')) as ->; [|done].
  clear -Hall. induction Hall as [|a b arrs bs Ha _ IH]; [done|].
  cbn [map sum_list sum_list_with]. rewrite Ha. simpl. f_equal. exact IH.
Qed.

Lemma gather_inputs (name : string) (sh : list nat) (req_list : list request) bs :
  Forall2 has_batch_size req_list bs →
  (∀ r, r ∈ req_list → ∃ a, dict_get r name = Some a ∧ tail (shape a) = sh) →
  ∃ arrs, mapM (λ req_dict, dict_getitem req_dict name) req_list = Ok arrs ∧
          Forall2 (λ r a, dict_get r name = Some a) req_list arrs ∧
          Forall2 (λ a b, shape a = b :: sh) arrs bs.
Proof.
  induction 1 as [|r b req_list bs Hr _ IH]; intros Hall.
  - exists []. by repeat split; constructor.
  - destruct (Hall r) as (a & Ha & Hsh); [apply list_elem_of_here|].
    destruct IH as (arrs & Hm & Hf1 & Hf2);
      [by intros r' Hin; apply Hall, list_elem_of_further|].
    exists (a :: arrs). split_and!.
    + cbn [mapM]. cbv beta.
      assert (dict_getitem r name = Ok a) as -> by (unfold dict_getitem; by rewrite Ha).
      simpl. by rewrite Hm.
    + by constructor.
    + constructor; [|done].
      destruct Hr as [_ Hr]. destruct (Hr name a) as [sh' Hs].
      { by apply dict_get_Some_elem. }
      rewrite Hs in Hsh. simpl in Hsh. by subst.
Qed.

Section merge.
Context (req0 : request) (rest : list request) (bs : list nat).
Hypothesis Hkeys : ∀ r, r ∈ rest → keys_view r = keys_view req0.
Hypothesis Hmerge : mergeable (req0 :: rest) bs.

Lemma concat_input_ok (name : string) :
  name ∈ dict_keys req0 →
  ∃ arrs sh,
    Forall2 (λ r a, dict_get r name = Some a) (req0 :: rest) arrs ∧
    np_concatenate arrs = Ok {| shape := sum_list bs :: sh;
                                data := concat (data <$> arrs) |} ∧
    concat_input (req0 :: rest) name
      = Ok {| shape := sum_list bs :: sh; data := concat (data <$> arrs) |}.
Proof using Hkeys Hmerge.
  intros Hname. destruct Hmerge as [Hbs Hcompat].
  destruct (dict_get_is_Some req0 name Hname) as [a0 Ha0].
  destruct (gather_inputs name (tail (shape a0)) (req0 :: rest) bs Hbs)
    as (arrs & Hm & Hf1 & Hf2).
  { intros r Hin.
    assert (name ∈ dict_keys r) as Hr.
    { apply elem_of_cons in Hin as [->|Hin]; [done|].
      apply keys_view_elem. rewrite (Hkeys r Hin). by apply keys_view_elem. }
    destruct (dict_get_is_Some r name Hr) as [a Ha]. exists a. split; [done|].
    apply (Hcompat r req0 name); [done|apply list_elem_of_here|done..]. }
  assert (arrs ≠ []) as Hne by (by inversion Hf1).
  pose proof (np_concatenate_ok arrs bs _ Hne Hf2) as Hc.
  exists arrs, (tail (shape a0)). split; [done|]. split; [done|].
  unfold concat_input. rewrite Hm. simpl. done.
Qed.

Lemma merge_inputs_ok (names : list string) (acc : dict ndarray) :
  (∀ nm, nm ∈ names → nm ∈ dict_keys req0) →
  ∃ inputs,
    merge_inputs names (req0 :: rest) acc = Ok inputs ∧
    (∀ nm, nm ∈ names → ∃ c, concat_input (req0 :: rest) nm = Ok c ∧
                              dict_get inputs nm = Some c) ∧
    (∀ nm, nm ∉ names → dict_get inputs nm = dict_get acc nm).
Proof using Hkeys Hmerge.
  revert acc. induction names as [|name names IH]; intros acc Hsub.
  - exists acc. split; [done|]. split; [|done]. intros nm Hin. by apply elem_of_nil in Hin.
  - destruct (concat_input_ok name) as (arrs & sh & _ & _ & Hc);
      [apply Hsub, list_elem_of_here|].
    destruct (IH (dict_set acc name
                    {| shape := sum_list bs :: sh; data := concat (data <$> arrs) |}))
      as (inputs & Hm & Hin & Hout);
      [by intros nm Hnm; apply Hsub, list_elem_of_further|].
    exists inputs. split_and!.
    + cbn [merge_inputs]. rewrite Hc. simpl. done.
    + intros nm Hnm. destruct (decide (nm ∈ names)) as [Hn|Hn]; [by apply Hin|].
      apply elem_of_cons in Hnm as [->|?]; [|done].
      eexists. split; [exact Hc|]. rewrite Hout by done.
      rewrite dict_get_set. by rewrite decide_True.
    + intros nm Hnm. apply not_elem_of_cons in Hnm as [Hne Hnm].
      rewrite Hout by done. rewrite dict_get_set. by rewrite decide_False.
Qed.
End merge.

(** *** Split *)
Lemma has_batch_size_first (req : request) (b : nat) :
  has_batch_size req b →
  ∃ first_input, first_value_of req = Ok first_input ∧ shape0 first_input = Ok b.
Proof.
  intros [Hne Hall]. destruct req as [|[k a] req]; [done|].
  exists a. split; [done|].
  destruct (Hall k a) as [sh Hsh]; [apply list_elem_of_here|].
  unfold shape0. by rewrite Hsh.
Qed.

Lemma np_slice0_ok (o : ndarray) (start stop : nat) :
  shape o ≠ [] → ∃ s, np_slice0 o start stop = Ok s.
Proof. intros Hne. unfold np_slice0. destruct (shape o); [done|]. eauto. Qed.

Lemma slice_outputs_ok (outs : dict ndarray) (names : list string)
    (start b : nat) (acc : dict ndarray) :
  (∀ nm, nm ∈ names → ∃ o, dict_get outs nm = Some o ∧ shape o ≠ []) →
  ∃ d, slice_outputs outs names start b acc = Ok d ∧
       (∀ nm o, nm ∈ names → dict_get outs nm = Some o →
                ∃ s, np_slice0 o start (start + b) = Ok s ∧ dict_get d nm = Some s) ∧
       (∀ nm, nm ∉ names → dict_get d nm = dict_get acc nm).
Proof.
  revert acc. induction names as [|name names IH]; intros acc Hall.
  - exists acc. split; [done|]. split; [|done]. intros nm o Hin. by apply elem_of_nil in Hin.
  - destruct (Hall name) as (o & Ho & Hrank); [apply list_elem_of_here|].
    destruct (np_slice0_ok o start (start + b) Hrank) as [s Hs].
    destruct (IH (dict_set acc name s)) as (d & Hd & Hin & Hout);
      [by intros nm Hnm; apply Hall, list_elem_of_further|].
    exists d. split_and!.
    + cbn [slice_outputs]. unfold dict_getitem. rewrite Ho. simpl. rewrite Hs. simpl. done.
    + intros nm o' Hnm Ho'.
      destruct (decide (nm ∈ names)) as [Hn|Hn]; [by apply Hin|].
      apply elem_of_cons in Hnm as [->|?]; [|done].
      rewrite Ho in Ho'. injection Ho' as <-.
      exists s. split; [done|]. rewrite Hout by done.
      rewrite dict_get_set. by rewrite decide_True.
    + intros nm Hnm. apply not_elem_of_cons in Hnm as [Hne Hnm].
      rewrite Hout by done. rewrite dict_get_set. by rewrite decide_False.
Qed.

Section split.
Context (outs : dict ndarray).
Hypothesis Hrank : ∀ k o, (k, o) ∈ outs → shape o ≠ [].

Lemma slice_request_ok (start b : nat) :
  ∃ d, slice_outputs outs (dict_keys outs) start b [] = Ok d ∧ slices_at outs start b d.
Proof using Hrank.
  destruct (slice_outputs_ok outs (dict_keys outs) start b []) as (d & Hd & Hin & Hout).
  { intros nm Hnm. destruct (dict_get_is_Some outs nm Hnm) as [o Ho].
    exists o. split; [done|]. apply (Hrank nm). by apply dict_get_Some_elem. }
  exists d. split; [done|]. split.
  - intros nm o Ho. apply Hin; [|done].
    destruct (decide (nm ∈ dict_keys outs)) as [|Hn]; [done|].
    apply dict_get_None in Hn. congruence.
  - intros nm Hnm. apply dict_get_None in Hnm. by rewrite Hout.
Qed.

Lemma split_outputs_ok (req_list : list request) (bs : list nat) (start : nat) :
  Forall2 has_batch_size req_list bs →
  ∃ out_list,
    split_outputs outs req_list start = Ok out_list ∧
    length out_list = length req_list ∧
    ∀ i d b, out_list !! i = Some d → bs !! i = Some b →
             slices_at outs (start + sum_list (take i bs)) b d.
Proof using Hrank.
  intros Hf. revert start. induction Hf as [|r b req_list bs Hr _ IH]; intros start.
  - exists []. split; [done|]. split; [done|]. by intros i d b Hi.
  - destruct (has_batch_size_first r b Hr) as (a & Ha & Hb).
    destruct (slice_request_ok start b) as (d0 & Hd0 & Hs0).
    destruct (IH (start + b)) as (out_rest & Hrest & Hlen & Hidx).
    exists (d0 :: out_rest). split_and!.
    + cbn [split_outputs]. rewrite Ha. simpl. rewrite Hb. simpl.
      rewrite Hd0. simpl. rewrite Hrest. done.
    + simpl. by rewrite Hlen.
    + intros [|i] d b' Hd Hb'; simpl in *.
      * injection Hd as <-. injection Hb' as <-. by rewrite Nat.add_0_r.
      * rewrite Nat.add_assoc. by apply Hidx.
Qed.

(** The slices taken for one output name, concatenated, are the rows
    [start .. start + sum bs) of that output. *)
Lemma split_outputs_concat (req_list : list request) (bs : list nat) (start : nat)
    (out_list : list (dict ndarray)) (name : string) (o : ndarray) (n : nat) (sh : list nat) :
  Forall2 has_batch_size req_list bs →
  split_outputs outs req_list start = Ok out_list →
  dict_get outs name = Some o →
  shape o = n :: sh →
  start + sum_list bs ≤ n →
  ∃ slices,
    Forall2 (λ d s, dict_get d name = Some s) out_list slices ∧
    Forall2 (λ s b, shape s = b :: sh) slices bs ∧
    concat (data <$> slices)
      = take (sum_list bs * size_of sh) (drop (start * size_of sh) (data o)).
Proof using Hrank.
  intros Hf. revert start out_list.
  induction Hf as [|r b req_list bs Hr _ IH]; intros start out_list Hsplit Ho Hsh Hle.
  - injection Hsplit as <-. exists []. by repeat split; constructor.
  - destruct (has_batch_size_first r b Hr) as (a & Ha & Hb).
    destruct (slice_request_ok start b) as (d0 & Hd0 & Hs0 & _).
    cbn [split_outputs] in Hsplit. rewrite Ha in Hsplit. simpl in Hsplit.
    rewrite Hb in Hsplit. simpl in Hsplit. rewrite Hd0 in Hsplit. simpl in Hsplit.
    destruct (split_outputs outs req_list (start + b)) as [out_rest|] eqn:Hrest; [|done].
    simpl in Hsplit. injection Hsplit as <-.
    simpl in Hle.
    destruct (IH (start + b) out_rest Hrest Ho Hsh) as (slices & Hf1 & Hf2 & Hc); [lia|].
    destruct (Hs0 name o Ho) as (s & Hs & Hds).
    unfold np_slice0 in Hs. rewrite Hsh in Hs. injection Hs as <-.
    eexists (_ :: slices). split_and!.
    + constructor; [exact Hds|done].
    + constructor; [|done]. simpl. f_equal. lia.
    + cbn. rewrite Hc.
      replace ((start + b) `min` n - start `min` n) with b by lia.
      replace (start `min` n) with start by lia.
      replace ((start + b) * size_of sh) with (start * size_of sh + b * size_of sh) by lia.
      rewrite <- drop_drop. rewrite take_take_drop. f_equal. lia.
Qed.
End split.

Lemma merge_inputs_NoDup names req_list acc inputs :
  NoDup (dict_keys acc) → merge_inputs names req_list acc = Ok inputs →
  NoDup (dict_keys inputs).
Proof.
  revert acc. induction names as [|name names IH]; intros acc Hnd; simpl.
  - by intros [= <-].
  - destruct (concat_input req_list name) as [c|]; simpl; [|done].
    apply IH. by apply dict_set_NoDup.
Qed.

Lemma dict_keys_fmap_KArray (inputs : dict ndarray) :
  dict_keys (prod_map id KArray <$> inputs) = dict_keys inputs.
Proof.
  unfold dict_keys. induction inputs as [|[k a] inputs IH]; [done|].
  cbn. by rewrite <- IH.
Qed.

Lemma dict_get_fmap_KArray (inputs : dict ndarray) k :
  dict_get (prod_map id KArray <$> inputs) k = KArray <$> dict_get inputs k.
Proof.
  induction inputs as [|[k' a] inputs IH]; [done|].
  cbn. destruct (decide (k' = k)); [done|]. exact IH.
Qed.

Section batch_spec.
Context {W : Type} (wrapped : callable W (dict kwarg) pyout) (inst : instance).
Context (req0 : request) (rest : list request) (kwargs : dict kwarg) (bs : list nat).

(** C2: on requests with one key set whose tensors fit together, [batch]
    invokes the wrapped callable exactly once, with every input name bound
    to the concatenation, in request order, of the requests' tensors for
    that name, of axis-0 length the sum of the local batch sizes.  When the
    callable returns outputs, the i-th result maps every output name to the
    rows [b0 + ... + b(i-1), b0 + ... + bi) of that output, and for an output
    with [b0 + b1 + ...] rows the slices concatenate back to the output. *)
Theorem batch_merge_split (st : run_state W (dict kwarg)) :
  (∀ r, r ∈ rest → keys_view r = keys_view req0) →
  mergeable (req0 :: rest) bs →
  ∃ new_kwargs,
    calls (batch wrapped inst (req0 :: rest) kwargs st).2 = calls st ++ [new_kwargs] ∧
    (∀ name, name ∈ dict_keys req0 →
       ∃ arrs sh,
         Forall2 (λ r a, dict_get r name = Some a) (req0 :: rest) arrs ∧
         np_concatenate arrs
           = Ok {| shape := sum_list bs :: sh; data := concat (data <$> arrs) |} ∧
         dict_get new_kwargs name
           = Some (KArray {| shape := sum_list bs :: sh;
                             data := concat (data <$> arrs) |})) ∧
    (∀ k, k ∉ dict_keys req0 → dict_get new_kwargs k = dict_get kwargs k) ∧
    ∀ raw w' outs,
      call wrapped new_kwargs (world st) = (Ok raw, w') →
      convert_output raw wrapped inst None = Ok outs →
      (∀ k o, (k, o) ∈ outs → shape o ≠ []) →
      ∃ out_list,
        batch wrapped inst (req0 :: rest) kwargs st
          = (Ok out_list, RunState w' (calls st ++ [new_kwargs])) ∧
        length out_list = length (req0 :: rest) ∧
        (∀ i d b, out_list !! i = Some d → bs !! i = Some b →
                  slices_at outs (sum_list (take i bs)) b d) ∧
        (∀ name o sh,
           dict_get outs name = Some o → wf_array o → shape o = sum_list bs :: sh →
           ∃ slices,
             Forall2 (λ d s, dict_get d name = Some s) out_list slices ∧
             Forall2 (λ s b, shape s = b :: sh) slices bs ∧
             np_concatenate slices = Ok o).
Proof.
  intros Hkeys Hmerge.
  assert (existsb (λ req_dict2, bool_decide (keys_view req0 ≠ keys_view req_dict2)) rest
          = false) as Hchk.
  { destruct (existsb _ rest) eqn:E; [|done].
    apply keys_check_true in E as (r & Hin & Hr). by specialize (Hkeys r Hin). }
  destruct (merge_inputs_ok req0 rest bs Hkeys Hmerge (dict_keys req0) [])
    as (inputs & Hm & Hin & Hout); [done|].
  assert (NoDup (dict_keys inputs)) as Hnd.
  { eapply merge_inputs_NoDup; [|exact Hm]. apply NoDup_nil_2. }
  set (new_kwargs := dict_update kwargs (prod_map id KArray <$> inputs)).
  assert (∀ k, dict_get new_kwargs k
               = match dict_get inputs k with
                 | Some a => Some (KArray a)
                 | None => dict_get kwargs k
                 end) as Hget.
  { intros k. unfold new_kwargs.
    rewrite dict_get_update by (by rewrite dict_keys_fmap_KArray).
    rewrite dict_get_fmap_KArray. by destruct (dict_get inputs k). }
  exists new_kwargs. split_and!.
  - destruct (batch_after_check wrapped inst req0 rest kwargs st Hchk)
      as [(e & He & _) | (inputs' & Hm' & Hcalls)]; [congruence|].
    rewrite Hm in Hm'. by injection Hm' as <-.
  - intros name Hname.
    destruct (concat_input_ok req0 rest bs Hkeys Hmerge name Hname)
      as (arrs & sh & Hf & Hc & Hci).
    exists arrs, sh. split; [done|]. split; [done|].
    destruct (Hin name Hname) as (c & Hc' & Hg). rewrite Hci in Hc'. injection Hc' as <-.
    by rewrite Hget, Hg.
  - intros k Hk. rewrite Hget, (Hout k Hk). done.
  - intros raw w' outs Hcall Hconv Hrank.
    destruct Hmerge as [Hbs _].
    destruct (split_outputs_ok outs Hrank (req0 :: rest) bs 0 Hbs)
      as (out_list & Hsplit & Hlen & Hidx).
    exists out_list. split_and!.
    + unfold batch. rewrite Hchk.
      unfold mbind, M_mbind, M_bind, lift, invoke. rewrite Hm.
      fold new_kwargs. rewrite Hcall, Hconv, Hsplit. done.
    + done.
    + intros i d b Hd Hb. by apply (Hidx i d b).
    + intros name o sh Ho Hwf Hsh.
      destruct (split_outputs_concat outs Hrank (req0 :: rest) bs 0 out_list name o
                  (sum_list bs) sh Hbs Hsplit Ho Hsh) as (slices & Hf1 & Hf2 & Hc); [lia|].
      exists slices. split; [done|]. split; [done|].
      assert (slices ≠ []) as Hne.
      { intros ->. apply Forall2_length in Hf1. by rewrite Hlen in Hf1. }
      rewrite (np_concatenate_ok slices bs sh Hne Hf2). f_equal.
      rewrite Hc. simpl. rewrite drop_0.
      unfold wf_array in Hwf. rewrite Hsh in Hwf. simpl in Hwf.
      rewrite take_ge by lia. destruct o as [osh odata]. simpl in *. by subst.
Qed.
End batch_spec.

Lemma mergeable_x_3_1 : mergeable [[("x", x_3_2)]; [("x", x_1_2)]] [3; 1].
Proof.
  split.
  - apply Forall2_cons; split; [|apply Forall2_cons; split; [|constructor]];
      (split; [done|]); intros k a Hin; apply list_elem_of_singleton in Hin;
      injection Hin as -> ->; by exists [2].
  - intros r r' k a a' Hr Hr' Ha Ha'.
    assert (∀ r k a, r ∈ [[("x", x_3_2)]; [("x", x_1_2)]] → dict_get r k = Some a →
                     tail (shape a) = [2]) as Htl.
    { clear. intros r k a Hr Ha.
      apply elem_of_cons in Hr as [->|Hr]; [|apply list_elem_of_singleton in Hr as ->];
        simpl in Ha; destruct (decide ("x" = k)); by simplify_eq. }
    by rewrite (Htl r k a), (Htl r' k a').
Qed.

Lemma batch_merge_split_witness :
  ∃ new_kwargs,
    calls (batch echo_outputs None [[("x", x_3_2)]; [("x", x_1_2)]] [] kw_st0).2
      = calls kw_st0 ++ [new_kwargs] ∧
    (∀ name, name ∈ dict_keys [("x", x_3_2)] →
       ∃ arrs sh,
         Forall2 (λ r a, dict_get r name = Some a) [[("x", x_3_2)]; [("x", x_1_2)]] arrs ∧
         np_concatenate arrs
           = Ok {| shape := sum_list [3; 1] :: sh; data := concat (data <$> arrs) |} ∧
         dict_get new_kwargs name
           = Some (KArray {| shape := sum_list [3; 1] :: sh;
                             data := concat (data <$> arrs) |})) ∧
    (∀ k, k ∉ dict_keys [("x", x_3_2)] → dict_get new_kwargs k = dict_get [] k) ∧
    ∀ raw w' outs,
      call echo_outputs new_kwargs (world kw_st0) = (Ok raw, w') →
      convert_output raw echo_outputs None None = Ok outs →
      (∀ k o, (k, o) ∈ outs → shape o ≠ []) →
      ∃ out_list,
        batch echo_outputs None [[("x", x_3_2)]; [("x", x_1_2)]] [] kw_st0
          = (Ok out_list, RunState w' (calls kw_st0 ++ [new_kwargs])) ∧
        length out_list = length [[("x", x_3_2)]; [("x", x_1_2)]] ∧
        (∀ i d b, out_list !! i = Some d → [3; 1] !! i = Some b →
                  slices_at outs (sum_list (take i [3; 1])) b d) ∧
        (∀ name o sh,
           dict_get outs name = Some o → wf_array o → shape o = sum_list [3; 1] :: sh →
           ∃ slices,
             Forall2 (λ d s, dict_get d name = Some s) out_list slices ∧
             Forall2 (λ s b, shape s = b :: sh) slices [3; 1] ∧
             np_concatenate slices = Ok o).
Proof.
  apply (batch_merge_split echo_outputs None [("x", x_3_2)] [[("x", x_1_2)]] [] [3; 1] kw_st0).
  - intros r ->%list_elem_of_singleton. reflexivity.
  - apply mergeable_x_3_1.
Defined.

End Batch.

(** ** [first_value] *)
Module FirstValue.
Import Py Np Decorators Spec Examples PyFacts NpFacts.

Lemma foldl_max_le (x : nat) (t : list nat) : x ≤ foldl Nat.max x t.
Proof.
  revert x. induction t as [|y t IH]; intros x; simpl; [done|].
  specialize (IH (x `max` y)). lia.
Qed.

Lemma foldl_max_ones (x : nat) (t : list nat) :
  Forall (λ d, 1 ≤ d) (x :: t) →
  foldl Nat.max x t = 1 ↔ Forall (λ d, d = 1) (x :: t).
Proof.
  revert x. induction t as [|y t IH]; intros x Hpos; simpl.
  - split; [by repeat constructor | by inversion 1].
  - apply Forall_cons in Hpos as [Hx Hpos]. pose proof Hpos as Hpos'.
    apply Forall_cons in Hpos' as [Hy Ht].
    rewrite (IH (x `max` y)) by (constructor; [lia|done]).
    rewrite !Forall_cons. split.
    + intros [Hm Hall]. split_and!; [lia|lia|done].
    + intros (-> & -> & Hall). by split.
Qed.

(** For a row with at least one dimension and no empty dimension,
    [max(res.shape) == 1] singles out the rows all of whose dimensions are 1. *)
Lemma py_max_eq_1 (sh : list nat) :
  sh ≠ [] → Forall (λ d, 1 ≤ d) sh →
  ∃ m, py_max sh = Ok m ∧ (m = 1 ↔ Forall (λ d, d = 1) sh).
Proof.
  intros Hne Hpos. destruct sh as [|x t]; [done|].
  exists (foldl Nat.max x t). split; [done|]. by apply foldl_max_ones.
Qed.

Lemma size_of_ones (sh : list nat) : Forall (λ d, d = 1) sh → size_of sh = 1.
Proof. induction 1 as [|d sh -> _ IH]; simpl; [done|]. rewrite IH. done. Qed.

(** What [first_value] computes for one selected key whose tensor has rows
    with at least one dimension and no empty dimension. *)
Lemma first_value_loop_single (key : string) (inputs : dict kwarg) (a : ndarray)
    (n : nat) (sh : list nat) :
  dict_get inputs key = Some (KArray a) →
  shape a = S n :: sh → wf_array a →
  sh ≠ [] → Forall (λ d, 1 ≤ d) sh →
  ∃ res, first_value_loop [key] inputs = Ok (dict_set inputs key res) ∧
         ((Forall (λ d, d = 1) sh ∧ ∃ x, data a !! 0 = Some x ∧ res = KScalar x) ∨
          (¬ Forall (λ d, d = 1) sh ∧
           res = KArray {| shape := sh; data := take (size_of sh) (data a) |})).
Proof.
  intros Hget Hsh Hwf Hne Hpos.
  destruct (py_max_eq_1 sh Hne Hpos) as (m & Hm & Hm1).
  cbn [first_value_loop]. unfold dict_getitem. rewrite Hget.
  destruct sh as [|d sh']; [done|].
  cbn -[py_max size_of]. rewrite Hsh. cbn -[py_max size_of]. rewrite Hm.
  cbn -[py_max size_of].
  destruct (decide (m = 1)) as [E|E].
  - rewrite bool_decide_true by done. apply Hm1 in E.
    pose proof (size_of_ones _ E) as Hsz. rewrite Hsz.
    unfold wf_array in Hwf. rewrite Hsh in Hwf.
    change (size_of (S n :: d :: sh')) with (S n * size_of (d :: sh')) in Hwf.
    rewrite Hsz in Hwf.
    destruct (data a) as [|x rest] eqn:Ed; [simpl in Hwf; lia|].
    simpl. eexists. split; [done|]. left. split; [done|]. by exists x.
  - rewrite bool_decide_false by done. cbn -[size_of].
    eexists. split; [done|]. right. split; [|done]. by intros ?%Hm1.
Qed.

(** C9: on a tensor whose rows have shape (1, 0) the row has an empty
    dimension, so it is not to be collapsed, but [max(res.shape) == 1] holds
    and [first_value] raises; on a rank-1 tensor the row is a scalar and
    [max] of its empty shape raises.  The wrapped callable is not invoked. *)
Theorem first_value_raises_on_degenerate_rows :
  first_value ["t"] echo_kwargs [("t", KArray t_2_1_0)] kw_st0
    = (Raise (ValueError "can only convert an array of size 1 to a Python scalar"),
       kw_st0) ∧
  first_value ["t"] echo_kwargs [("t", KArray t_2)] kw_st0
    = (Raise (ValueError "max() arg is an empty sequence"), kw_st0) ∧
  first_value ["t"] echo_kwargs [("t", KArray t_2_1)] kw_st0
    = (Ok [("t", KScalar 5)], RunState tt [[("t", KScalar 5)]]).
Proof. repeat split. Qed.

End FirstValue.

(** ** [fill_optionals] *)
Module FillOptionals.
Import Py Np Decorators Spec Examples PyFacts NpFacts.

(** *** Tiling a default value *)
Lemma tile_loop_ones (dims : list nat) (reps : list nat) (n : nat) (c : list Z) :
  Forall (λ r, r = 1) reps → tile_loop dims reps n c = c.
Proof.
  intros Hr. revert dims n. induction Hr as [|r reps -> _ IH]; intros dims n.
  - by destruct dims.
  - destruct dims as [|d dims]; [done|]. simpl. apply IH.
Qed.

Lemma zip_with_mul_ones (sh : list nat) :
  zip_with Nat.mul sh (replicate (length sh) 1) = sh.
Proof. induction sh as [|d sh IH]; simpl; [done|]. rewrite IH. f_equal. lia. Qed.

Lemma concat_replicate_nil {A} (b : nat) : concat (replicate b (@nil A)) = [].
Proof. induction b as [|b IH]; simpl; done. Qed.

Lemma tile_reps_eq val b : tile_reps val b = b :: replicate (length (shape val)) 1.
Proof. unfold tile_reps. by rewrite Nat.add_1_r. Qed.

(** Tiling a value [b] times along a new leading axis stacks [b] copies. *)
Lemma np_tile_batch (val : ndarray) (b : nat) :
  wf_array val →
  np_tile val (tile_reps val b) = of_rows (shape val) (replicate b (data val)).
Proof.
  intros Hwf. rewrite tile_reps_eq. unfold np_tile, of_rows.
  cbn [length]. rewrite length_replicate.
  rewrite Nat.max_l by lia. rewrite Nat.sub_diag.
  assert (S (length (shape val)) - length (shape val) = 1) as -> by lia.
  cbn [replicate app]. f_equal.
  - cbn [zip_with]. rewrite zip_with_mul_ones, length_replicate. f_equal. lia.
  - unfold wf_array in Hwf.
    replace (size_of (1 :: shape val)) with (size_of (shape val)) by (simpl; lia).
    destruct (Nat.ltb_spec 0 (size_of (shape val))) as [Hpos|Hz].
    + cbn [tile_loop]. rewrite tile_loop_ones by (by apply Forall_replicate).
      rewrite Hwf, Nat.div_same by lia.
      assert (chunks (size_of (shape val)) (data val) 1 = [data val]) as ->.
      { unfold chunks. simpl. rewrite drop_0. by rewrite take_ge by lia. }
      cbn. rewrite app_nil_r.
      destruct (decide (b = 1)) as [->|Hb].
      * rewrite bool_decide_true by done. simpl. by rewrite app_nil_r.
      * by rewrite bool_decide_false.
    + assert (data val = []) as -> by (apply nil_length_inv; lia).
      by rewrite concat_replicate_nil.
Qed.

Lemma rows_of_tile (val : ndarray) (b : nat) :
  wf_array val →
  shape (np_tile val (tile_reps val b)) = b :: shape val ∧
  rows_of (np_tile val (tile_reps val b)) = replicate b (data val).
Proof.
  intros Hwf. rewrite np_tile_batch by done. split.
  - unfold of_rows. simpl. by rewrite length_replicate.
  - apply rows_of_of_rows. by apply Forall_replicate.
Qed.

(** *** The loop over the default keys *)

Lemma fill_defaults_spec (defaults : dict ndarray) (default_keys : list string)
    (batch_size : nat) (req : request) :
  (∀ k, k ∈ default_keys → k ∈ dict_keys defaults) →
  ∃ added,
    fill_defaults defaults default_keys batch_size req = Ok (req ++ added) ∧
    (∀ k, k ∈ dict_keys added → k ∈ default_keys ∧ k ∉ dict_keys req) ∧
    (∀ k, k ∈ default_keys → k ∉ dict_keys req →
          ∃ val, dict_get defaults k = Some val ∧
                 dict_get (req ++ added) k = Some (np_tile val (tile_reps val batch_size))).
Proof.
  revert req. induction default_keys as [|key keys IH]; intros req Hsub.
  - exists []. rewrite app_nil_r. split; [done|]. split.
    + intros k Hk. by apply elem_of_nil in Hk.
    + intros k Hk. by apply elem_of_nil in Hk.
  - cbn [fill_defaults]. destruct (dict_contains req key) eqn:Hc; cbn [negb].
    + apply dict_contains_true in Hc.
      destruct (IH req) as (added & Hf & Hkeys & Hfill);
        [by intros k Hk; apply Hsub, list_elem_of_further|].
      exists added. split; [done|]. split.
      * intros k Hk. destruct (Hkeys k Hk) as [? ?].
        split; [by apply list_elem_of_further | done].
      * intros k Hk Hnot. apply elem_of_cons in Hk as [->|Hk]; [done|]. by apply Hfill.
    + apply dict_contains_false in Hc.
      destruct (dict_get_is_Some defaults key) as [val Hval];
        [apply Hsub, list_elem_of_here|].
      unfold dict_getitem. rewrite Hval. cbn [mbind result_mbind result_bind].
      change (<[0:=batch_size]> (replicate (length (shape val) + 1) 1))
        with (tile_reps val batch_size).
      set (t := np_tile val (tile_reps val batch_size)).
      rewrite dict_set_fresh by done.
      destruct (IH (req ++ [(key, t)])) as (added & Hf & Hkeys & Hfill);
        [by intros k Hk; apply Hsub, list_elem_of_further|].
      exists ((key, t) :: added). rewrite <- app_assoc in Hf. split; [done|]. split.
      * intros k Hk. cbn in Hk. apply elem_of_cons in Hk as [->|Hk].
        { split; [apply list_elem_of_here | done]. }
        destruct (Hkeys k Hk) as [Hin Hnot]. split; [by apply list_elem_of_further|].
        rewrite dict_keys_app in Hnot. intros ?. apply Hnot, elem_of_app. by left.
      * intros k Hk Hnot. destruct (decide (k = key)) as [->|Hne].
        { exists val. split; [done|]. rewrite dict_get_app.
          apply dict_get_None in Hnot. rewrite Hnot. simpl. by rewrite decide_True. }
        apply elem_of_cons in Hk as [?|Hk]; [done|].
        destruct (Hfill k Hk) as (val' & Hval' & Hget).
        { rewrite dict_keys_app. intros [?|Hin]%elem_of_app; [done|].
          simpl in Hin. by apply list_elem_of_singleton in Hin. }
        exists val'. split; [done|]. by rewrite <- app_assoc in Hget.
Qed.

Lemma fill_request_spec (defaults : dict ndarray) (req : request) (b : nat) :
  first_batch_size req b →
  ∃ added,
    fill_request defaults req = Ok (req ++ added) ∧
    (∀ k, k ∈ dict_keys added → k ∈ dict_keys defaults ∧ k ∉ dict_keys req) ∧
    (∀ k, k ∈ dict_keys defaults → k ∉ dict_keys req →
          ∃ val, dict_get defaults k = Some val ∧
                 dict_get (req ++ added) k = Some (np_tile val (tile_reps val b))).
Proof.
  intros (a & Ha & Hb). unfold fill_request. rewrite Ha. simpl. rewrite Hb. simpl.
  by apply fill_defaults_spec.
Qed.

(** Whatever happens, a request is only ever extended. *)
Lemma fill_request_extends (defaults : dict ndarray) (req req' : request) :
  fill_request defaults req = Ok req' → extends_with_defaults defaults req req'.
Proof.
  unfold fill_request. destruct (first_value_of req) as [a|] eqn:Ha; simpl; [|done].
  destruct (shape0 a) as [b|] eqn:Hb; simpl; [|done].
  destruct (fill_defaults_spec defaults (dict_keys defaults) b req) as (added & Hf & Hk & _);
    [done|].
  rewrite Hf. intros [= <-]. by exists added.
Qed.

Lemma extends_refl defaults req : extends_with_defaults defaults req req.
Proof.
  exists []. rewrite app_nil_r. split; [done|]. intros k Hk. by apply elem_of_nil in Hk.
Qed.

Lemma fill_requests_extend (defaults : dict ndarray) (req_list : list request) :
  Forall2 (extends_with_defaults defaults) req_list (fill_requests defaults req_list).1.
Proof.
  induction req_list as [|req rest IH]; simpl; [constructor|].
  destruct (fill_request defaults req) as [req'|e] eqn:Hr.
  - destruct (fill_requests defaults rest) as [rest' e']. simpl in *.
    constructor; [by apply fill_request_extends | done].
  - simpl. apply Forall_Forall2_diag, Forall_forall. intros r _. apply extends_refl.
Qed.

Lemma fill_requests_ok (defaults : dict ndarray) (req_list : list request) (bs : list nat) :
  Forall2 first_batch_size req_list bs →
  ∃ filled, fill_requests defaults req_list = (filled, None) ∧
    Forall2 (λ rb req', ∃ added,
               req' = rb.1 ++ added ∧
               ∀ k, k ∈ dict_keys defaults → k ∉ dict_keys rb.1 →
                    ∃ val, dict_get defaults k = Some val ∧
                           dict_get req' k = Some (np_tile val (tile_reps val rb.2)))
      (zip req_list bs) filled.
Proof.
  induction 1 as [|req b rest bs Hb _ IH].
  - exists []. split; [done|constructor].
  - destruct (fill_request_spec defaults req b Hb) as (added & Hf & _ & Hfill).
    destruct IH as (filled & Hr & Hall).
    exists ((req ++ added) :: filled). split.
    + cbn [fill_requests]. rewrite Hf, Hr. done.
    + cbn. constructor; [|done]. by exists added.
Qed.

Lemma extends_keeps_values defaults (req req' : request) k a :
  extends_with_defaults defaults req req' →
  dict_get req k = Some a → dict_get req' k = Some a.
Proof. intros (added & -> & _) Hk. by rewrite dict_get_app, Hk. Qed.

Lemma extends_new_keys defaults (req req' : request) k :
  extends_with_defaults defaults req req' →
  k ∈ dict_keys req' → k ∈ dict_keys req ∨ k ∈ dict_keys defaults.
Proof.
  intros (added & -> & Hadded). rewrite dict_keys_app.
  intros [?|Hk]%elem_of_app; [by left|]. right. by apply Hadded.
Qed.

Section fill_optionals.
Context {W Ret : Type} (defaults : dict ndarray).
Context (wrapped : callable W (list request) Ret) (req_list : list request).

(** C8: [fill_optionals] only ever extends a request with default keys it
    lacks: no key is removed, no present value changes (also for a key that
    is a default key), and the list handed to the wrapped callable is the
    list of the extended requests, in the input order. *)
Theorem fill_optionals_frame (st : run_state W (list request)) :
  let out := fill_optionals defaults wrapped req_list st in
  let final := out.1.2 in
  Forall2 (extends_with_defaults defaults) req_list final ∧
  (∀ i req req' k a, req_list !! i = Some req → final !! i = Some req' →
                     dict_get req k = Some a → dict_get req' k = Some a) ∧
  (∀ i req req' k, req_list !! i = Some req → final !! i = Some req' →
                   k ∈ dict_keys req' → k ∈ dict_keys req ∨ k ∈ dict_keys defaults) ∧
  (calls out.2 = calls st ∨ calls out.2 = calls st ++ [final]).
Proof.
  intros out final.
  assert (final = (fill_requests defaults req_list).1 ∧
          (calls out.2 = calls st ∨ calls out.2 = calls st ++ [final])) as [Hfinal Hcalls].
  { subst final out. unfold fill_optionals.
    destruct (fill_requests defaults req_list) as [final [e|]]; simpl.
    - split; [done|by left].
    - unfold invoke. destruct (call wrapped final (world st)) as [r w]. simpl.
      split; [done|by right]. }
  pose proof (fill_requests_extend defaults req_list) as Hext. rewrite <- Hfinal in Hext.
  split; [done|]. split; [|split; [|done]].
  - intros i req req' k a Hi Hi' Hk.
    destruct (Forall2_lookup_l _ _ _ _ _ Hext Hi) as (req'' & Hi'' & He).
    rewrite Hi' in Hi''. injection Hi'' as <-. by eapply extends_keeps_values.
  - intros i req req' k Hi Hi' Hk.
    destruct (Forall2_lookup_l _ _ _ _ _ Hext Hi) as (req'' & Hi'' & He).
    rewrite Hi' in Hi''. injection Hi'' as <-. by eapply extends_new_keys.
Qed.

(** C7: every default key a request lacks is bound, in the request handed
    to the wrapped callable, to a tensor with as many rows as the request's
    first input, each row being the default value. *)
Theorem fill_optionals_fills (bs : list nat) (st : run_state W (list request)) :
  Forall2 first_batch_size req_list bs →
  (∀ k val, dict_get defaults k = Some val → wf_array val) →
  ∃ filled,
    fill_optionals defaults wrapped req_list st
      = ((call wrapped filled (world st)).1, filled,
         RunState (call wrapped filled (world st)).2 (calls st ++ [filled])) ∧
    length filled = length req_list ∧
    ∀ i req req' b k,
      req_list !! i = Some req → filled !! i = Some req' → bs !! i = Some b →
      k ∈ dict_keys defaults → k ∉ dict_keys req →
      ∃ val t, dict_get defaults k = Some val ∧ dict_get req' k = Some t ∧
               shape t = b :: shape val ∧ rows_of t = replicate b (data val).
Proof.
  intros Hbs Hwf.
  destruct (fill_requests_ok defaults req_list bs Hbs) as (filled & Hf & Hall).
  exists filled. split_and!.
  - unfold fill_optionals. rewrite Hf. unfold invoke.
    by destruct (call wrapped filled (world st)).
  - apply Forall2_length in Hall. rewrite <- Hall.
    unfold zip. rewrite length_zip_with. apply Forall2_length in Hbs. lia.
  - intros i req req' b k Hi Hi' Hb Hk Hnot.
    assert (zip req_list bs !! i = Some (req, b)) as Hz by (by apply zip_lookup).
    destruct (Forall2_lookup_l _ _ _ _ _ Hall Hz) as (req'' & Hi'' & added & _ & Hfill).
    rewrite Hi' in Hi''. injection Hi'' as <-. simpl in Hfill.
    destruct (Hfill k Hk Hnot) as (val & Hval & Hget).
    destruct (rows_of_tile val b (Hwf k val Hval)) as [Hsh Hrows].
    by exists val, (np_tile val (tile_reps val b)).
Qed.
End fill_optionals.

Lemma fill_optionals_fills_witness :
  ∃ filled,
    fill_optionals [("d", default_d)] id_stage [[("x", x_3_2)]] list_st0
      = ((call id_stage filled (world list_st0)).1, filled,
         RunState (call id_stage filled (world list_st0)).2 (calls list_st0 ++ [filled])) ∧
    length filled = length [[("x", x_3_2)]] ∧
    ∀ i req req' b k,
      [[("x", x_3_2)]] !! i = Some req → filled !! i = Some req' → [3] !! i = Some b →
      k ∈ dict_keys [("d", default_d)] → k ∉ dict_keys req →
      ∃ val t, dict_get [("d", default_d)] k = Some val ∧ dict_get req' k = Some t ∧
               shape t = b :: shape val ∧ rows_of t = replicate b (data val).
Proof.
  apply (fill_optionals_fills [("d", default_d)] id_stage [[("x", x_3_2)]] [3] list_st0).
  - repeat constructor. by exists x_3_2.
  - intros k val Hk. simpl in Hk. destruct (decide ("d" = k)); [|done].
    by injection Hk as <-.
Defined.

End FillOptionals.

(** ** [group_by_keys] and [group_by_values] *)
Module Grouping.
Import Py Np Decorators Spec Examples PyFacts NpFacts.

Section dispatch.
Context {W K Res : Type} (R : request → Res → Prop).
Context (wrapped : callable W (list request) (list Res)).

Lemma zip_idx_out (g : list (nat * K * request)) (out : list Res) :
  Forall2 R (samples g) out →
  Forall2 (λ t p, p.1 = t.1.1 ∧ R t.2 p.2) g (zip ((λ t, t.1.1) <$> g) out).
Proof.
  revert out. induction g as [|t g IH]; intros out Hf.
  - apply Forall2_nil_inv_l in Hf as ->. constructor.
  - apply Forall2_cons_inv_l in Hf as (r & out' & Hr & Hf & ->).
    cbn. constructor; [done|]. by apply IH.
Qed.

Lemma dispatch_groups_ok (gs : list (list (nat * K * request)))
    (acc : list (nat * Res)) (st : run_state W (list request)) :
  answers_groups R wrapped gs →
  ∃ pairs st',
    dispatch_groups wrapped gs acc st = (Ok (acc ++ pairs), st') ∧
    Forall2 (λ t p, p.1 = t.1.1 ∧ R t.2 p.2) (concat gs) pairs ∧
    calls st' = calls st ++ (samples <$> gs).
Proof.
  revert acc st. induction gs as [|g gs IH]; intros acc st Hw.
  - exists [], st. rewrite !app_nil_r. by repeat split; constructor.
  - destruct (Hw g (world st)) as (out & w' & Hcall & Hout); [apply list_elem_of_here|].
    destruct (IH (acc ++ zip ((λ t, t.1.1) <$> g) out)
                 (RunState w' (calls st ++ [samples g])))
      as (pairs & st' & Hd & Hf & Hcalls).
    { intros g' w Hg'. apply Hw. by apply list_elem_of_further. }
    exists (zip ((λ t, t.1.1) <$> g) out ++ pairs), st'. split_and!.
    + cbn [dispatch_groups]. unfold mbind, M_mbind, M_bind, invoke.
      fold (samples g). rewrite Hcall. rewrite Hd. by rewrite <- app_assoc.
    + simpl. apply Forall2_app; [by apply zip_idx_out | done].
    + rewrite Hcalls. simpl. by rewrite <- app_assoc.
Qed.

(** Whatever the wrapped stage does, every invocation gets one whole group,
    in the order of the groups, and all groups are sent when the loop ends
    normally. *)
Lemma dispatch_groups_calls (gs : list (list (nat * K * request)))
    (acc : list (nat * Res)) (st : run_state W (list request)) :
  ∃ m, calls (dispatch_groups wrapped gs acc st).2
         = calls st ++ take m (samples <$> gs) ∧
       (∀ res, (dispatch_groups wrapped gs acc st).1 = Ok res → m = length gs).
Proof.
  revert acc st. induction gs as [|g gs IH]; intros acc st.
  - exists 0. simpl. by rewrite app_nil_r.
  - cbn [dispatch_groups]. unfold mbind, M_mbind, M_bind, invoke. fold (samples g).
    destruct (call wrapped (samples g) (world st)) as [[out|e] w'].
    + destruct (IH (acc ++ zip ((λ t, t.1.1) <$> g) out)
                   (RunState w' (calls st ++ [samples g]))) as (m & Hc & Hm).
      exists (S m). split.
      * rewrite Hc. simpl. by rewrite <- app_assoc.
      * intros res Hres. simpl. f_equal. by apply (Hm res).
    + exists 1. split; [by simpl; rewrite take_0|]. by intros res.
Qed.
End dispatch.

Lemma StronglySorted_seq (a n : nat) : StronglySorted le (seq a n).
Proof.
  revert a. induction n as [|n IH]; intros a; simpl; constructor; [apply IH|].
  apply Forall_forall. intros x Hx. apply elem_of_seq in Hx. lia.
Qed.

(** Sorting pairs by their index, when the indices are a permutation of
    [0 .. n), puts the pair with index [i] at position [i]. *)
Lemma sort_by_fst_seq {Res} (pairs : list (nat * Res)) (n : nat) :
  fst <$> pairs ≡ₚ seq 0 n → fst <$> sort_by fst pairs = seq 0 n.
Proof.
  intros Hperm. apply (StronglySorted_unique le).
  - apply (StronglySorted_fmap _ (key_le fst)); [|apply sort_by_sorted; apply _].
    intros x y. unfold key_le, py_lt, nat_pyord. rewrite Nat.ltb_ge. done.
  - apply StronglySorted_seq.
  - by rewrite sort_by_perm.
Qed.

Section order.
Context {W K Res : Type} `{EqDecision K} `{PyOrd K} (R : request → Res → Prop).
Context (wrapped : callable W (list request) (list Res)).
Context (inputs : list request) (idx_inputs : list (nat * K * request)).
Hypothesis Htags : tags_of inputs idx_inputs.

Lemma tags_lookup (t : nat * K * request) :
  t ∈ idx_inputs → idx_inputs !! t.1.1 = Some t ∧ inputs !! t.1.1 = Some t.2.
Proof using Htags.
  destruct Htags as [Hidx Hsamples]. intros Hin.
  apply list_elem_of_lookup in Hin as [j Hj].
  assert (t.1.1 = j) as ->.
  { assert (((λ t, t.1.1) <$> idx_inputs) !! j = Some t.1.1) as Hl
      by (by rewrite list_lookup_fmap, Hj).
    rewrite Hidx in Hl. apply lookup_seq in Hl as [-> _]. done. }
  split; [done|]. rewrite <- Hsamples. by rewrite list_lookup_fmap, Hj.
Qed.


(** The order round trip of the shared part of the grouping decorators. *)
Lemma run_grouped_order (st : run_state W (list request)) :
  answers_groups R wrapped (grouped idx_inputs) →
  ∃ res st',
    run_grouped wrapped idx_inputs st = (Ok res, st') ∧
    Forall2 R inputs res ∧
    calls st' = calls st ++ (samples <$> grouped idx_inputs).
Proof using Htags.
  intros Hw.
  destruct (dispatch_groups_ok R wrapped (grouped idx_inputs) [] st Hw)
    as (pairs & st' & Hd & Hpairs & Hcalls).
  unfold grouped in Hpairs. rewrite groupby_concat in Hpairs.
  set (L := sort_by (λ t : nat * K * request, t.1.2) idx_inputs) in *.
  assert (L ≡ₚ idx_inputs) as HL by apply sort_by_perm.
  assert (fst <$> pairs = (λ t, t.1.1) <$> L) as Hfst.
  { clear -Hpairs. induction Hpairs as [|t p L pairs [Hp _] _ IH]; [done|].
    cbn. by rewrite Hp, IH. }
  pose proof Htags as [Hidx Hsamples].
  assert (fst <$> sort_by fst pairs = seq 0 (length inputs)) as Hsorted.
  { apply sort_by_fst_seq. by rewrite Hfst, HL, Hidx. }
  exists (snd <$> sort_by fst pairs), st'. split_and!; [|
    |done].
  - unfold run_grouped, mbind, M_mbind, M_bind. rewrite Hd. done.
  - apply Forall2_same_length_lookup_2.
    + rewrite length_fmap, <- (length_fmap fst), Hsorted. by rewrite length_seq.
    + intros i x y Hx Hy.
      rewrite list_lookup_fmap in Hy.
      destruct (sort_by fst pairs !! i) as [p|] eqn:Hp; [|done].
      injection Hy as <-.
      assert (p.1 = i) as Hpi.
      { assert ((fst <$> sort_by fst pairs) !! i = Some p.1) as Hl
          by (by rewrite list_lookup_fmap, Hp).
        rewrite Hsorted in Hl. apply lookup_seq in Hl as [-> _]. done. }
      assert (p ∈ pairs) as Hin.
      { rewrite <- (sort_by_perm fst pairs). by eapply list_elem_of_lookup_2. }
      apply list_elem_of_lookup in Hin as [j Hj].
      destruct (Forall2_lookup_r _ _ _ _ _ Hpairs Hj) as (t & Ht & Hidxt & HR).
      assert (t ∈ idx_inputs) as Htin.
      { rewrite <- HL. by eapply list_elem_of_lookup_2. }
      destruct (tags_lookup t Htin) as [_ Hinp].
      rewrite <- Hidxt, Hpi, Hx in Hinp. by injection Hinp as ->.
Qed.
End order.

(** *** Tagging *)
Lemma tags_of_tag_by_keys (inputs : list request) : tags_of inputs (tag_by_keys inputs).
Proof.
  unfold tags_of, tag_by_keys, enumerate. split.
  - apply list_eq. intros i. rewrite !list_lookup_fmap, list_lookup_imap.
    destruct (inputs !! i) as [r|] eqn:Hi; simpl.
    + rewrite lookup_seq_lt; [done|]. by eapply lookup_lt_Some.
    + rewrite lookup_seq_ge; [done|]. by apply lookup_ge_None.
  - apply list_eq. intros i. rewrite !list_lookup_fmap, list_lookup_imap.
    by destruct (inputs !! i).
Qed.

Lemma tag_by_values_spec (keys : list string) (inputs : list request)
    (idx_inputs : list (nat * value_key * request)) :
  tag_by_values keys inputs = Ok idx_inputs →
  tags_of inputs idx_inputs ∧
  ∀ t, t ∈ idx_inputs → req_key_of keys t.2 = Ok t.1.2.
Proof.
  unfold tag_by_values. intros Hm. apply mapM_ok in Hm.
  assert (∀ i t, idx_inputs !! i = Some t →
                 ∃ r, inputs !! i = Some r ∧ t.1.1 = i ∧ t.2 = r ∧
                      req_key_of keys r = Ok t.1.2) as Hlook.
  { intros i t Ht. destruct (Forall2_lookup_r _ _ _ _ _ Hm Ht) as ([i' r] & Hi & Hf).
    unfold enumerate in Hi. rewrite list_lookup_imap in Hi.
    destruct (inputs !! i) as [r'|] eqn:Hr; [|done]. simpl in Hi. injection Hi as <- <-.
    exists r'. split; [done|].
    destruct (req_key_of keys r') as [key|]; simpl in Hf; [|done].
    by injection Hf as <-. }
  assert (length idx_inputs = length inputs) as Hlen.
  { apply Forall2_length in Hm. unfold enumerate in Hm. by rewrite length_imap in Hm. }
  split; [split|].
  - apply list_eq. intros i. rewrite list_lookup_fmap.
    destruct (idx_inputs !! i) as [t|] eqn:Ht; simpl.
    + destruct (Hlook i t Ht) as (r & Hr & -> & _).
      rewrite lookup_seq_lt; [done|]. rewrite <- Hlen. by eapply lookup_lt_Some.
    + rewrite lookup_seq_ge; [done|]. rewrite <- Hlen. by apply lookup_ge_None.
  - apply list_eq. intros i. rewrite list_lookup_fmap.
    destruct (idx_inputs !! i) as [t|] eqn:Ht; simpl.
    + destruct (Hlook i t Ht) as (r & Hr & _ & -> & _). done.
    + symmetry. apply lookup_ge_None. rewrite <- Hlen. by apply lookup_ge_None.
  - intros t Hin. apply list_elem_of_lookup in Hin as [i Hi].
    destruct (Hlook i t Hi) as (r & _ & _ & -> & Hk). done.
Qed.














Section grouping.
Context {W Res : Type} (wrapped : callable W (list request) (list Res)).
Context (keys : list string) (inputs : list request).

(** C1: when the wrapped stage answers every group with one result per
    request in the group's order, [group_by_keys] and [group_by_values]
    return one result per input request, the i-th result being the one
    produced for the i-th request. *)
Theorem grouping_restores_order (R : request → Res → Prop)
    (st : run_state W (list request)) :
  (answers_groups R wrapped (grouped (tag_by_keys inputs)) →
   ∃ res st', group_by_keys wrapped inputs st = (Ok res, st') ∧
              Forall2 R inputs res) ∧
  (∀ idx_inputs,
     tag_by_values keys inputs = Ok idx_inputs →
     answers_groups R wrapped (grouped idx_inputs) →
     ∃ res st', group_by_values keys wrapped inputs st = (Ok res, st') ∧
                Forall2 R inputs res).
Proof.
  split.
  - intros Hw.
    destruct (run_grouped_order R wrapped inputs (tag_by_keys inputs)
                (tags_of_tag_by_keys inputs) st Hw) as (res & st' & Hrun & Hres & _).
    by exists res, st'.
  - intros idx_inputs Htag Hw.
    destruct (tag_by_values_spec keys inputs idx_inputs Htag) as [Htags _].
    destruct (run_grouped_order R wrapped inputs idx_inputs Htags st Hw)
      as (res & st' & Hrun & Hres & _).
    exists res, st'. split; [|done].
    unfold group_by_values, mbind, M_mbind, M_bind, lift. by rewrite Htag.
Qed.

End grouping.

Lemma id_stage_answers {K} (groups : list (list (nat * K * request))) :
  answers_groups eq id_stage groups.
Proof.
  intros g w _. exists (samples g), w. split; [done|].
  by apply Forall_Forall2_diag, Forall_forall.
Qed.

Lemma grouping_restores_order_witness :
  (∃ res st', group_by_keys id_stage reqs_ab_a_ab list_st0 = (Ok res, st') ∧
              Forall2 eq reqs_ab_a_ab res) ∧
  (∃ res st', group_by_values ["a"] id_stage reqs_ab_a_ab list_st0 = (Ok res, st') ∧
              Forall2 eq reqs_ab_a_ab res).
Proof.
  destruct (grouping_restores_order id_stage ["a"] reqs_ab_a_ab eq list_st0) as [Hk Hv].
  split.
  - apply Hk, id_stage_answers.
  - eapply Hv; [reflexivity | apply id_stage_answers].
Defined.







(** A list in which no element is less than the one before it is left as it
    is: it is a single ascending run. *)
Lemma sort_by_run {A K} `{PyOrd K} (key : A → K) (l : list A) :
  (∀ i x y, l !! i = Some x → l !! S i = Some y → py_lt (key y) (key x) = false) →
  sort_by key l = l.
Proof.
  induction l as [|x l IH]; intros Hrun; [done|].
  unfold sort_by in *. simpl. rewrite IH.
  - destruct l as [|y l]; [done|]. simpl. by rewrite (Hrun 0 x y).
  - intros i x' y' Hx' Hy'. by apply (Hrun (S i)).
Qed.


End Grouping.

(** ** More facts about the Python and NumPy prelude *)
Module MoreFacts.
Import Py Np Decorators Spec Examples PyFacts NpFacts.

(** *** Order of strings *)
Lemma ascii_compare_refl (a : ascii) : Ascii.compare a a = Eq.
Proof. unfold Ascii.compare. apply N.compare_refl. Qed.

Lemma ascii_compare_lt_trans (a b c : ascii) :
  Ascii.compare a b = Lt → Ascii.compare b c = Lt → Ascii.compare a c = Lt.
Proof. unfold Ascii.compare. rewrite !N.compare_lt_iff. lia. Qed.

Lemma string_compare_refl (s : string) : String.compare s s = Eq.
Proof. induction s as [|a s IH]; simpl; [done|]. by rewrite ascii_compare_refl. Qed.

Lemma string_compare_lt_trans (s t u : string) :
  String.compare s t = Lt → String.compare t u = Lt → String.compare s u = Lt.
Proof.
  revert t u. induction s as [|a s IH]; intros [|b t] [|c u]; simpl; try done.
  destruct (Ascii.compare a b) eqn:Eab; try done.
  - apply Ascii.compare_eq_iff in Eab as ->.
    destruct (Ascii.compare b c); try done. apply IH.
  - destruct (Ascii.compare b c) eqn:Ebc; try done.
    + apply Ascii.compare_eq_iff in Ebc as <-. by rewrite Eab.
    + by rewrite (ascii_compare_lt_trans a b c).
Qed.

#[global] Instance string_pyord_laws : PyOrdLaws string.
Proof.
  split; unfold py_lt, string_pyord, String.ltb.
  - intros s. by rewrite string_compare_refl.
  - intros s t u Hst Htu.
    destruct (String.compare s t) eqn:E1; try done.
    destruct (String.compare t u) eqn:E2; try done.
    by rewrite (string_compare_lt_trans s t u).
  - intros s t. destruct (String.compare s t) eqn:E.
    + right. left. by apply String.compare_eq_iff.
    + by left.
    + right. right. rewrite String.compare_antisym, E. done.
Qed.

(** *** Sorted key tuples and key sets *)
Lemma sorted_NoDup_unique {K} `{EqDecision K} `{PyOrdLaws K} (l l' : list K) :
  l ≡ₚ l' → sorted l = sorted l'.
Proof.
  intros Hperm. unfold sorted.
  apply (StronglySorted_unique_strong (key_le id)).
  - intros x y _ _ Hxy Hyx. unfold key_le in *. simpl in *. by apply py_le_antisym.
  - apply sort_by_sorted; apply _.
  - apply sort_by_sorted; apply _.
  - by rewrite !sort_by_perm.
Qed.

Lemma sorted_keys_eq (r r' : request) :
  NoDup (dict_keys r) → NoDup (dict_keys r') →
  sorted (dict_keys r) = sorted (dict_keys r') ↔ keys_view r = keys_view r'.
Proof.
  intros Hnd Hnd'. split.
  - intros Heq. unfold keys_view. apply set_eq. intros k.
    rewrite !elem_of_list_to_set.
    rewrite <- (sort_by_perm id (dict_keys r)), <- (sort_by_perm id (dict_keys r')).
    unfold sorted in Heq. by rewrite Heq.
  - intros Heq. apply sorted_NoDup_unique. apply NoDup_Permutation; [done..|].
    intros k. rewrite <- !keys_view_elem. by rewrite Heq.
Qed.

Lemma mapM_stops {A B} (f : A → result B) (l : list A) (x : A) (e : exn) :
  x ∈ l → f x = Raise e → ∃ e', mapM f l = Raise e'.
Proof.
  induction l as [|y l IH]; intros Hin Hx; [by apply elem_of_nil in Hin|].
  cbn [mapM]. destruct (f y) as [b|e1] eqn:Ey; simpl; [|eauto].
  apply elem_of_cons in Hin as [->|Hin]; [congruence|].
  destruct (IH Hin Hx) as [e' ->]. simpl. eauto.
Qed.

Lemma dict_keys_update_present {V} (d kvs : dict V) :
  (∀ k, k ∈ dict_keys kvs → k ∈ dict_keys d) →
  dict_keys (dict_update d kvs) = dict_keys d.
Proof.
  unfold dict_update. revert d. induction kvs as [|[k v] kvs IH]; intros d Hsub; [done|].
  simpl. rewrite IH.
  - rewrite dict_keys_set.
    rewrite (proj2 (dict_contains_true d k)); [done|]. apply Hsub, list_elem_of_here.
  - intros k' Hk'. rewrite dict_keys_set.
    rewrite (proj2 (dict_contains_true d k)) by (apply Hsub, list_elem_of_here).
    by apply Hsub, list_elem_of_further.
Qed.

Lemma dict_keys_fmap_snd {A B} (f : A → B) (d : dict A) :
  dict_keys (prod_map id f <$> d) = dict_keys d.
Proof. unfold dict_keys. induction d as [|[k v] d IH]; [done|]. cbn. by f_equal. Qed.

Lemma dict_get_fmap_snd {A B} (f : A → B) (d : dict A) k :
  dict_get (prod_map id f <$> d) k = f <$> dict_get d k.
Proof.
  induction d as [|[k' v] d IH]; simpl; [done|].
  by destruct (decide (k' = k)).
Qed.

Lemma dict_update_app {V} (d a b : dict V) :
  dict_update d (a ++ b) = dict_update (dict_update d a) b.
Proof. unfold dict_update. by rewrite foldl_app. Qed.

Lemma dict_get_update_notin {V} (d kvs : dict V) k :
  k ∉ dict_keys kvs → dict_get (dict_update d kvs) k = dict_get d k.
Proof.
  unfold dict_update. revert d.
  induction kvs as [|[k0 v0] kvs IH]; intros d Hk; simpl; [done|].
  simpl in Hk. apply not_elem_of_cons in Hk as [Hne Hk].
  rewrite IH by done. rewrite dict_get_set. by rewrite decide_False.
Qed.

Lemma dict_update_NoDup {V} (d kvs : dict V) :
  NoDup (dict_keys d) → NoDup (dict_keys (dict_update d kvs)).
Proof.
  unfold dict_update. revert d.
  induction kvs as [|[k0 v0] kvs IH]; intros d Hnd; simpl; [done|].
  by apply IH, dict_set_NoDup.
Qed.

Lemma dict_keys_update_elem {V} (d kvs : dict V) k :
  k ∈ dict_keys (dict_update d kvs) ↔ k ∈ dict_keys d ∨ k ∈ dict_keys kvs.
Proof.
  unfold dict_update. revert d.
  induction kvs as [|[k0 v0] kvs IH]; intros d; simpl.
  - split; [by left|]. intros [H|H]; [done|]. by apply elem_of_nil in H.
  - rewrite IH, dict_keys_set, elem_of_cons.
    destruct (dict_contains d k0) eqn:E.
    + apply dict_contains_true in E.
      split; [intros [H|H]; [by left|by right; right]|].
      intros [H|[->|H]]; [by left|by left|by right].
    + rewrite elem_of_app, list_elem_of_singleton.
      split; [intros [[H| ->]|H]; [by left|by right; left|by right; right]|].
      intros [H|[->|H]]; [by left; left|by left; right|by right].
Qed.

(** The last pair entered under a key is the one the mapping keeps. *)
Lemma dict_get_update_last {V} (d kvs : dict V) i k v :
  kvs !! i = Some (k, v) →
  (∀ j k' v', i < j → kvs !! j = Some (k', v') → k' ≠ k) →
  dict_get (dict_update d kvs) k = Some v.
Proof.
  intros Hi Hlast.
  rewrite <- (take_drop_middle kvs i (k, v) Hi), dict_update_app.
  change ((k, v) :: drop (S i) kvs) with ([(k, v)] ++ drop (S i) kvs).
  rewrite dict_update_app, dict_get_update_notin.
  - unfold dict_update. simpl. rewrite dict_get_set. by rewrite decide_True.
  - intros Hin. unfold dict_keys in Hin.
    apply list_elem_of_fmap in Hin as ([k' v'] & Hk & Hin). simpl in Hk. subst k'.
    apply list_elem_of_lookup in Hin as [j Hj]. rewrite lookup_drop in Hj.
    apply (Hlast (S i + j) k v'); [lia|done|done].
Qed.

Lemma np_concatenate_single (a : ndarray) :
  shape a ≠ [] → np_concatenate [a] = Ok a.
Proof.
  intros Hsh. unfold np_concatenate. destruct a as [[|n sh] d]; [done|]. simpl.
  by rewrite Nat.add_0_r, app_nil_r.
Qed.

(** *** Runs of equal key, without any assumption on the order *)
Section groupby_any.
Context {A K : Type} `{EqDecision K} (key : A → K).

Lemma groupby_from_keys tgt l :
  Forall (λ x, key x = tgt) (groupby_from key tgt l).1 ∧
  Forall (λ g, ∃ k, group_with_key key k g) (groupby_from key tgt l).2.
Proof.
  revert tgt. induction l as [|x l IH]; intros tgt; simpl; [by split|].
  destruct (decide (key x = tgt)) as [E|E].
  - destruct (IH tgt) as [Hg Hgs]. destruct (groupby_from key tgt l) as [g gs].
    simpl in *. split; [by constructor | done].
  - destruct (IH (key x)) as [Hg Hgs]. destruct (groupby_from key (key x) l) as [g gs].
    simpl in *. split; [constructor|]. constructor; [|done].
    exists (key x). split; [done|]. by constructor.
Qed.

Lemma groupby_keys l : Forall (λ g, ∃ k, group_with_key key k g) (groupby key l).
Proof.
  destruct l as [|x l]; simpl; [constructor|].
  destruct (groupby_from_keys (key x) l) as [Hg Hgs].
  destruct (groupby_from key (key x) l) as [g gs]. simpl in *.
  constructor; [|done]. exists (key x). split; [done|]. by constructor.
Qed.

Lemma groupby_piece l g :
  g ∈ groupby key l → ∃ pre post, l = pre ++ g ++ post.
Proof.
  intros Hg. rewrite <- (groupby_concat key l).
  apply list_elem_of_split in Hg as (gs1 & gs2 & ->).
  exists (concat gs1), (concat gs2). rewrite concat_app. simpl. done.
Qed.
End groupby_any.

(** *** Stability of the sort *)
Section stable.
Context {A K : Type} `{EqDecision K} `{PyOrdLaws K} (key : A → K) (idx : A → nat).

Lemma insert_by_stable x l :
  Forall (λ y, idx x < idx y) l →
  StronglySorted (in_input_order key idx) l →
  StronglySorted (in_input_order key idx) (insert_by key x l).
Proof.
  intros Hx Hs. induction Hs as [|y l Hs IH Hy]; simpl.
  - repeat constructor.
  - apply Forall_cons in Hx as [Hxy Hxl].
    destruct (py_lt (key y) (key x)) eqn:E.
    + constructor; [by apply IH|].
      rewrite insert_by_perm. constructor; [|done].
      intros Heq. rewrite Heq, py_lt_irrefl in E. done.
    + constructor; [by constructor|].
      constructor; [by intros _|].
      eapply Forall_impl; [exact Hxl|]. by intros z Hz _.
Qed.

Lemma sort_by_stable l :
  StronglySorted (λ a b, idx a < idx b) l →
  StronglySorted (in_input_order key idx) (sort_by key l).
Proof.
  induction 1 as [|x l Hs IH Hx]; [constructor|].
  unfold sort_by in *. simpl. apply insert_by_stable; [|done].
  fold (sort_by key l). rewrite sort_by_perm. done.
Qed.
End stable.

End MoreFacts.

(** ** More on [group_by_keys] and [group_by_values] *)
Module GroupingMore.
Import Py Np Decorators Spec Examples PyFacts NpFacts Grouping Batch MoreFacts.

Lemma StronglySorted_of_fmap {A B} (f : A → B) (R : relation B) (l : list A) :
  StronglySorted R (f <$> l) → StronglySorted (λ a b, R (f a) (f b)) l.
Proof.
  induction l as [|x l IH]; [intros _; constructor|]. cbn. intros Hs.
  apply StronglySorted_inv in Hs as [Hs Hx]. constructor; [by apply IH|].
  rewrite Forall_fmap in Hx. exact Hx.
Qed.

Section groups.
Context {K : Type} `{EqDecision K} `{PyOrdLaws K}.
Context (inputs : list request) (idx_inputs : list (nat * K * request)).
Hypothesis Htags : tags_of inputs idx_inputs.

Lemma grouped_elem (g : list (nat * K * request)) (t : nat * K * request) :
  g ∈ grouped idx_inputs → t ∈ g → t ∈ idx_inputs.
Proof.
  intros Hg Ht. unfold grouped in Hg.
  rewrite <- (sort_by_perm (λ t : nat * K * request, t.1.2) idx_inputs).
  rewrite <- (groupby_concat (λ t : nat * K * request, t.1.2)).
  apply list_elem_of_In, in_concat. exists g. split; by apply list_elem_of_In.
Qed.

Lemma grouped_not_nil (g : list (nat * K * request)) :
  g ∈ grouped idx_inputs → g ≠ [].
Proof.
  intros Hg. unfold grouped in Hg.
  pose proof (groupby_keys (λ t : nat * K * request, t.1.2)
                (sort_by (λ t : nat * K * request, t.1.2) idx_inputs)) as Hall.
  rewrite Forall_forall in Hall. by destruct (Hall g Hg) as (k & Hne & _).
Qed.

Lemma grouped_one_key (g : list (nat * K * request)) (t t' : nat * K * request) :
  g ∈ grouped idx_inputs → t ∈ g → t' ∈ g → t.1.2 = t'.1.2.
Proof.
  intros Hg Ht Ht'. unfold grouped in Hg.
  pose proof (groupby_keys (λ t : nat * K * request, t.1.2)
                (sort_by (λ t : nat * K * request, t.1.2) idx_inputs)) as Hall.
  rewrite Forall_forall in Hall. destruct (Hall g Hg) as (k & _ & Hk).
  rewrite Forall_forall in Hk. by rewrite (Hk t Ht), (Hk t' Ht').
Qed.

(** Within a group the requests keep the order they have in the input. *)
Lemma grouped_in_input_order (g : list (nat * K * request)) :
  g ∈ grouped idx_inputs → StronglySorted lt ((λ t, t.1.1) <$> g).
Proof using All.
  intros Hg.
  assert (StronglySorted (in_input_order (λ t : nat * K * request, t.1.2) (λ t, t.1.1))
            (sort_by (λ t : nat * K * request, t.1.2) idx_inputs)) as Hs.
  { apply sort_by_stable. apply (StronglySorted_of_fmap (λ t, t.1.1) lt).
    destruct Htags as [-> _]. clear.
    generalize 0. induction (length inputs) as [|n IH]; intros a; simpl; constructor;
      [apply IH|]. apply Forall_forall. intros x Hx. apply elem_of_seq in Hx. lia. }
  pose proof Hg as Hg'. unfold grouped in Hg'.
  destruct (groupby_piece _ _ _ Hg') as (pre & post & Hsplit).
  rewrite Hsplit in Hs.
  apply StronglySorted_app_1_r, StronglySorted_app_1_l in Hs.
  assert (∃ k, Forall (λ t : nat * K * request, t.1.2 = k) g) as [k Hk].
  { pose proof (groupby_keys (λ t : nat * K * request, t.1.2)
                  (sort_by (λ t : nat * K * request, t.1.2) idx_inputs)) as Hall.
    rewrite Forall_forall in Hall. destruct (Hall g Hg') as (k & _ & Hk). by exists k. }
  clear -Hs Hk. induction Hs as [|t g Hs IH Ht]; [constructor|].
  apply Forall_cons in Hk as [Hkt Hk]. cbn. constructor; [by apply IH|].
  apply Forall_fmap, Forall_forall. intros t' Ht'.
  rewrite Forall_forall in Ht, Hk. apply (Ht t' Ht'). simpl.
  by rewrite Hkt, (Hk t' Ht').
Qed.
End groups.

Section same_group.
Context {K : Type} `{EqDecision K} `{PyOrdLaws K}.
Context (inputs : list request) (idx_inputs : list (nat * K * request)).
Hypothesis Htags : tags_of inputs idx_inputs.

Lemma tags_index (i : nat) (t : nat * K * request) :
  idx_inputs !! i = Some t → t.1.1 = i ∧ inputs !! i = Some t.2.
Proof using Htags.
  intros Ht. destruct Htags as [Hidx Hsamples]. split.
  - assert (((λ t, t.1.1) <$> idx_inputs) !! i = Some t.1.1) as Hl
      by (by rewrite list_lookup_fmap, Ht).
    rewrite Hidx in Hl. by apply lookup_seq in Hl as [-> _].
  - rewrite <- Hsamples. by rewrite list_lookup_fmap, Ht.
Qed.

(** Two tagged requests share a group exactly when their group keys are
    equal. *)
Lemma grouped_same_group (i j : nat) (ti tj : nat * K * request) :
  idx_inputs !! i = Some ti → idx_inputs !! j = Some tj →
  (∃ g, g ∈ grouped idx_inputs ∧ i ∈ (λ t, t.1.1) <$> g ∧ j ∈ (λ t, t.1.1) <$> g)
  ↔ ti.1.2 = tj.1.2.
Proof using All.
  intros Hi Hj.
  destruct (tags_index i ti Hi) as [Hii _]. destruct (tags_index j tj Hj) as [Hjj _].
  assert (ti ∈ idx_inputs) as Hti by (by eapply list_elem_of_lookup_2).
  assert (tj ∈ idx_inputs) as Htj by (by eapply list_elem_of_lookup_2).
  set (L := sort_by (λ t : nat * K * request, t.1.2) idx_inputs).
  assert (∀ t, t ∈ L ↔ t ∈ idx_inputs) as HL.
  { intros t. unfold L. by rewrite sort_by_perm. }
  assert (StronglySorted (key_le (λ t : nat * K * request, t.1.2)) L) as Hs
    by (apply sort_by_sorted; apply _).
  rewrite <- (groupby_sorted_same_group (λ t : nat * K * request, t.1.2)
                L ti tj Hs (proj2 (HL ti) Hti) (proj2 (HL tj) Htj)).
  unfold grouped. fold L.
  assert (∀ g t, g ∈ groupby (λ t : nat * K * request, t.1.2) L →
            t ∈ idx_inputs → t.1.1 ∈ (λ t, t.1.1) <$> g → t ∈ g) as Hback.
  { intros g t Hgin Htin Hin. apply list_elem_of_fmap in Hin as (t' & Heq & Ht').
    assert (t' ∈ idx_inputs) as Ht'in by (by eapply (grouped_elem idx_inputs g)).
    destruct (tags_lookup inputs idx_inputs Htags t Htin) as [E1 _].
    destruct (tags_lookup inputs idx_inputs Htags t' Ht'in) as [E2 _].
    rewrite Heq, E2 in E1. by injection E1 as ->. }
  split.
  - intros (g & Hgin & Hig & Hjg). exists g. split; [done|].
    rewrite <- Hii in Hig. rewrite <- Hjj in Hjg. split; by apply Hback.
  - intros (g & Hgin & Hig & Hjg). exists g. split; [done|].
    rewrite <- Hii, <- Hjj. split; apply list_elem_of_fmap; eauto.
Qed.
End same_group.

Lemma tag_by_keys_lookup (inputs : list request) (i : nat) (r : request) :
  inputs !! i = Some r → tag_by_keys inputs !! i = Some (i, sorted (dict_keys r), r).
Proof.
  intros Hi. unfold tag_by_keys, enumerate.
  by rewrite list_lookup_fmap, list_lookup_imap, Hi.
Qed.

Lemma tag_by_keys_elem (inputs : list request) (t : nat * list string * request) :
  t ∈ tag_by_keys inputs → t.1.2 = sorted (dict_keys t.2).
Proof.
  intros Ht. apply list_elem_of_lookup in Ht as [i Hi].
  unfold tag_by_keys, enumerate in Hi.
  rewrite list_lookup_fmap, list_lookup_imap in Hi.
  destruct (inputs !! i) as [r|]; [|done]. simpl in Hi. by injection Hi as <-.
Qed.

Lemma sorted_keys_view (r r' : request) :
  sorted (dict_keys r) = sorted (dict_keys r') → keys_view r = keys_view r'.
Proof.
  intros Heq. unfold keys_view. apply set_eq. intros k.
  rewrite !elem_of_list_to_set.
  rewrite <- (sort_by_perm id (dict_keys r)), <- (sort_by_perm id (dict_keys r')).
  unfold sorted in Heq. by rewrite Heq.
Qed.

(** X1: [group_by_keys] puts two requests into the same group exactly when
    they have the same set of input names. *)
Theorem group_by_keys_groups (inputs : list request) :
  Forall (λ r, NoDup (dict_keys r)) inputs →
  ∀ i j ri rj,
    inputs !! i = Some ri → inputs !! j = Some rj →
    (∃ g, g ∈ grouped (tag_by_keys inputs) ∧
          i ∈ (λ t, t.1.1) <$> g ∧ j ∈ (λ t, t.1.1) <$> g)
    ↔ keys_view ri = keys_view rj.
Proof.
  intros Hnd i j ri rj Hi Hj.
  rewrite (grouped_same_group inputs (tag_by_keys inputs) (tags_of_tag_by_keys inputs)
             i j _ _ (tag_by_keys_lookup inputs i ri Hi) (tag_by_keys_lookup inputs j rj Hj)).
  simpl. rewrite Forall_forall in Hnd.
  apply sorted_keys_eq; apply Hnd; by eapply list_elem_of_lookup_2.
Qed.

(** X2: every group [group_by_keys] dispatches is a non-empty list of
    requests with one key set, so [batch] applied to it never stops with
    the validation error about differing key sets. *)
Theorem group_by_keys_feeds_batch {W} (inputs : list request)
    (g : list (nat * list string * request))
    (wrapped : callable W (dict kwarg) pyout) (inst : instance)
    (kwargs : dict kwarg) (st : run_state W (dict kwarg)) :
  g ∈ grouped (tag_by_keys inputs) →
  (∃ req0 rest, samples g = req0 :: rest ∧
                ∀ r, r ∈ rest → keys_view r = keys_view req0) ∧
  batch wrapped inst (samples g) kwargs st
    ≠ (Raise (PytritonValidationError KEYS_MISMATCH), st).
Proof.
  intros Hg.
  assert (∀ r r', r ∈ samples g → r' ∈ samples g → keys_view r = keys_view r') as Hsame.
  { intros r r' Hr Hr'. unfold samples in Hr, Hr'.
    apply list_elem_of_fmap in Hr as (t & -> & Ht).
    apply list_elem_of_fmap in Hr' as (t' & -> & Ht').
    apply sorted_keys_view.
    rewrite <- (tag_by_keys_elem inputs t), <- (tag_by_keys_elem inputs t')
      by (by eapply (grouped_elem (tag_by_keys inputs) g)).
    by apply (grouped_one_key (tag_by_keys inputs) g). }
  pose proof (grouped_not_nil (tag_by_keys inputs) g Hg) as Hne.
  destruct (samples g) as [|req0 rest] eqn:Es.
  { unfold samples in Es. by apply fmap_nil_inv in Es. }
  assert (∀ r, r ∈ rest → keys_view r = keys_view req0) as Hrest.
  { intros r Hr. apply Hsame; [by apply list_elem_of_further | apply list_elem_of_here]. }
  split; [by exists req0, rest|].
  assert (existsb (λ req_dict2, bool_decide (keys_view req0 ≠ keys_view req_dict2)) rest
          = false) as Hchk.
  { destruct (existsb _ rest) eqn:E; [|done].
    apply keys_check_true in E as (r & Hin & Hr). by specialize (Hrest r Hin). }
  intros Hb.
  destruct (batch_after_check wrapped inst req0 rest kwargs st Hchk)
    as [(e & Hm & He) | (ins & _ & Hcalls)].
  - rewrite He in Hb. injection Hb as ->.
    apply (merge_inputs_raise _ _ _ _ Hm). by eexists.
  - rewrite Hb in Hcalls. simpl in Hcalls.
    apply (f_equal length) in Hcalls. rewrite length_app in Hcalls. simpl in Hcalls. lia.
Qed.

Lemma NoDup_reqs_ab_a_ab : Forall (λ r : request, NoDup (dict_keys r)) reqs_ab_a_ab.
Proof.
  repeat (apply Forall_cons; split); [..|constructor];
    repeat (apply NoDup_cons; split;
            [intros Hin; repeat (apply elem_of_cons in Hin as [Hin|Hin]; [discriminate|]);
             by apply elem_of_nil in Hin|]);
    constructor.
Qed.

Lemma group_ab_grouped : group_ab ∈ grouped (tag_by_keys reqs_ab_a_ab).
Proof. apply list_elem_of_further, list_elem_of_here. Qed.

Lemma group_by_keys_groups_witness :
  (∃ g, g ∈ grouped (tag_by_keys reqs_ab_a_ab) ∧
        0 ∈ (λ t, t.1.1) <$> g ∧ 2 ∈ (λ t, t.1.1) <$> g)
  ↔ keys_view [("a", y_1); ("b", z_1)] = keys_view [("b", y_1); ("a", y_1)].
Proof.
  apply (group_by_keys_groups reqs_ab_a_ab NoDup_reqs_ab_a_ab 0 2); reflexivity.
Defined.

Lemma group_by_keys_feeds_batch_witness :
  (∃ req0 rest, samples group_ab = req0 :: rest ∧
                ∀ r, r ∈ rest → keys_view r = keys_view req0) ∧
  batch echo_outputs None (samples group_ab) [] kw_st0
    ≠ (Raise (PytritonValidationError KEYS_MISMATCH), kw_st0).
Proof.
  apply (group_by_keys_feeds_batch reqs_ab_a_ab group_ab echo_outputs None [] kw_st0).
  apply group_ab_grouped.
Defined.

(** X3: the sort that groups the requests is stable: inside every group the
    requests appear in the order they have in the input list, for
    [group_by_keys] and for [group_by_values]. *)
Theorem groups_keep_input_order (keys : list string) (inputs : list request) :
  (∀ g, g ∈ grouped (tag_by_keys inputs) → in_order_of inputs g) ∧
  (∀ idx_inputs g, tag_by_values keys inputs = Ok idx_inputs →
                   g ∈ grouped idx_inputs → in_order_of inputs g).
Proof.
  split.
  - intros g Hg. pose proof (tags_of_tag_by_keys inputs) as Htags. split.
    + by apply (grouped_in_input_order inputs (tag_by_keys inputs)).
    + intros t Ht. apply (tags_lookup inputs (tag_by_keys inputs) Htags).
      by eapply grouped_elem.
  - intros idx_inputs g Htag Hg.
    destruct (tag_by_values_spec keys inputs idx_inputs Htag) as [Htags _]. split.
    + by apply (grouped_in_input_order inputs idx_inputs).
    + intros t Ht. apply (tags_lookup inputs idx_inputs Htags). by eapply grouped_elem.
Qed.

Section run.
Context {W K Res : Type} `{EqDecision K} `{PyOrd K}.
Context (wrapped : callable W (list request) (list Res)).
Context (inputs : list request) (idx_inputs : list (nat * K * request)).
Hypothesis Htags : tags_of inputs idx_inputs.

Lemma concat_samples_grouped : concat (samples <$> grouped idx_inputs) ≡ₚ inputs.
Proof using Htags.
  destruct Htags as [_ Hsamples]. unfold grouped.
  set (L := sort_by (λ t : nat * K * request, t.1.2) idx_inputs).
  assert (concat (samples <$> groupby (λ t : nat * K * request, t.1.2) L)
          = (λ t, t.2) <$> L) as ->.
  { rewrite <- (groupby_concat (λ t : nat * K * request, t.1.2) L) at 2.
    generalize (groupby (λ t : nat * K * request, t.1.2) L). intros gs.
    induction gs as [|g gs IH]; [done|]. cbn. rewrite IH. unfold samples.
    by rewrite fmap_app. }
  rewrite <- Hsamples. unfold L. by rewrite sort_by_perm.
Qed.

Lemma run_grouped_partition (st st' : run_state W (list request)) (res : list Res) :
  run_grouped wrapped idx_inputs st = (Ok res, st') →
  ∃ new_calls, calls st' = calls st ++ new_calls ∧
               concat new_calls ≡ₚ inputs ∧
               Forall (λ c, c ≠ []) new_calls.
Proof using Htags.
  unfold run_grouped, mbind, M_mbind, M_bind. intros Hrun.
  destruct (dispatch_groups_calls wrapped (grouped idx_inputs) [] st) as (m & Hc & Hm).
  destruct (dispatch_groups wrapped (grouped idx_inputs) [] st) as [[pairs|e] st1];
    [|done].
  simpl in *. injection Hrun as _ <-. rewrite (Hm pairs eq_refl) in Hc.
  rewrite <- (length_fmap samples), take_ge in Hc by done.
  exists (samples <$> grouped idx_inputs). split; [done|].
  split; [apply concat_samples_grouped|].
  apply Forall_fmap, Forall_forall. intros g Hg. simpl.
  pose proof (grouped_not_nil idx_inputs g Hg) as Hne.
  unfold samples. intros E. by apply fmap_nil_inv in E.
Qed.


End run.

Section decorators.
Context {W Res : Type} (wrapped : callable W (list request) (list Res)).
Context (keys : list string) (inputs : list request).

(** X4: when a grouping decorator returns normally, the arguments of its
    invocations of the wrapped stage are non-empty and, taken together, are
    the input requests, each exactly once. *)
Theorem grouping_dispatches_each_once (st st' : run_state W (list request))
    (res : list Res) :
  group_by_keys wrapped inputs st = (Ok res, st') ∨
  group_by_values keys wrapped inputs st = (Ok res, st') →
  ∃ new_calls, calls st' = calls st ++ new_calls ∧
               concat new_calls ≡ₚ inputs ∧
               Forall (λ c, c ≠ []) new_calls.
Proof.
  intros [Hk|Hv].
  - by apply (run_grouped_partition wrapped inputs (tag_by_keys inputs)
                (tags_of_tag_by_keys inputs) st st' res).
  - unfold group_by_values, mbind, M_mbind, M_bind, lift in Hv.
    destruct (tag_by_values keys inputs) as [idx_inputs|e] eqn:Htag; [|done].
    destruct (tag_by_values_spec keys inputs idx_inputs Htag) as [Htags _].
    by apply (run_grouped_partition wrapped inputs idx_inputs Htags st st' res).
Qed.

End decorators.

Lemma groups_keep_input_order_witness : in_order_of reqs_ab_a_ab group_ab.
Proof.
  apply (proj1 (groups_keep_input_order [] reqs_ab_a_ab)). apply group_ab_grouped.
Defined.

Lemma grouping_dispatches_each_once_witness :
  ∃ new_calls,
    calls (group_by_keys id_stage reqs_ab_a_ab list_st0).2 = calls list_st0 ++ new_calls ∧
    concat new_calls ≡ₚ reqs_ab_a_ab ∧
    Forall (λ c, c ≠ []) new_calls.
Proof.
  apply (grouping_dispatches_each_once id_stage [] reqs_ab_a_ab list_st0
           (group_by_keys id_stage reqs_ab_a_ab list_st0).2 reqs_ab_a_ab).
  left. reflexivity.
Defined.






End GroupingMore.

(** ** More on [batch] *)
Module BatchMore.
Import Py Np Decorators Spec Examples PyFacts NpFacts Batch MoreFacts.

Section batch_more.
Context {W : Type} (wrapped : callable W (dict kwarg) pyout) (inst : instance).
Context (kwargs : dict kwarg).

(** X7: whatever the requests are, [batch] invokes the wrapped function at
    most once. *)
Theorem batch_at_most_one_call (req_list : list request)
    (st : run_state W (dict kwarg)) :
  calls (batch wrapped inst req_list kwargs st).2 = calls st ∨
  ∃ new_kwargs, calls (batch wrapped inst req_list kwargs st).2 = calls st ++ [new_kwargs].
Proof.
  destruct req_list as [|req0 rest]; [by left|].
  destruct (existsb (λ req_dict2, bool_decide (keys_view req0 ≠ keys_view req_dict2)) rest)
    eqn:Hchk.
  - left. unfold batch. by rewrite Hchk.
  - destruct (batch_after_check wrapped inst req0 rest kwargs st Hchk)
      as [(e & _ & He) | (ins & _ & Hcalls)].
    + left. by rewrite He.
    + right. eauto.
Qed.

(** X8: requests without any input pass the key check, so the wrapped
    function is invoked, with the keyword arguments as they are; the split
    then fails on the first request with [StopIteration]. *)
Theorem batch_of_empty_requests (n : nat) (st : run_state W (dict kwarg))
    (raw : pyout) (w' : W) (outs : dict ndarray) :
  call wrapped kwargs (world st) = (Ok raw, w') →
  convert_output raw wrapped inst None = Ok outs →
  batch wrapped inst ([] :: replicate n []) kwargs st
    = (Raise StopIteration, RunState w' (calls st ++ [kwargs])).
Proof.
  intros Hcall Hconv. unfold batch.
  assert (existsb (λ req_dict2 : request,
            bool_decide (keys_view ([] : request) ≠ keys_view req_dict2))
            (replicate n []) = false) as ->.
  { induction n as [|n IH]; [done|]. simpl. rewrite IH.
    by rewrite bool_decide_false by (by intros ?). }
  unfold mbind, M_mbind, M_bind, lift, invoke. simpl.
  by rewrite Hcall, Hconv.
Qed.
End batch_more.

Lemma batch_of_empty_requests_witness :
  batch echo_outputs None ([] :: replicate 1 []) [] kw_st0
    = (Raise StopIteration, RunState tt (calls kw_st0 ++ [[]])).
Proof.
  apply (batch_of_empty_requests echo_outputs None [] 1 kw_st0 (OutDict []) tt []);
    reflexivity.
Defined.

Section clipped.
Context (outs : dict ndarray).
Hypothesis Hrank : ∀ k o, (k, o) ∈ outs → shape o ≠ [].

(** The slices taken for one output name, concatenated, are the rows
    [start .. start + sum bs) of the output as far as the output has them. *)
Lemma split_outputs_concat_clipped (req_list : list request) (bs : list nat) (start : nat)
    (out_list : list (dict ndarray)) (name : string) (o : ndarray) (n : nat) (sh : list nat) :
  Forall2 has_batch_size req_list bs →
  split_outputs outs req_list start = Ok out_list →
  dict_get outs name = Some o →
  shape o = n :: sh →
  ∃ slices lens,
    Forall2 (λ d s, dict_get d name = Some s) out_list slices ∧
    Forall2 (λ s c, shape s = c :: sh) slices lens ∧
    sum_list lens = (start + sum_list bs) `min` n - start `min` n ∧
    concat (data <$> slices)
      = take (((start + sum_list bs) `min` n - start `min` n) * size_of sh)
          (drop (start `min` n * size_of sh) (data o)).
Proof using Hrank.
  intros Hf. revert start out_list.
  induction Hf as [|r b req_list bs Hr _ IH]; intros start out_list Hsplit Ho Hsh.
  - injection Hsplit as <-. exists [], []. simpl.
    rewrite Nat.add_0_r, Nat.sub_diag. simpl. by repeat split; constructor.
  - destruct (has_batch_size_first r b Hr) as (a & Ha & Hb).
    destruct (slice_request_ok outs Hrank start b) as (d0 & Hd0 & Hs0 & _).
    cbn [split_outputs] in Hsplit. rewrite Ha in Hsplit. simpl in Hsplit.
    rewrite Hb in Hsplit. simpl in Hsplit. rewrite Hd0 in Hsplit. simpl in Hsplit.
    destruct (split_outputs outs req_list (start + b)) as [out_rest|] eqn:Hrest; [|done].
    simpl in Hsplit. injection Hsplit as <-.
    destruct (IH (start + b) out_rest Hrest Ho Hsh) as (slices & lens & Hf1 & Hf2 & Hsum & Hc).
    destruct (Hs0 name o Ho) as (s & Hs & Hds).
    unfold np_slice0 in Hs. rewrite Hsh in Hs. injection Hs as <-.
    eexists (_ :: slices), (_ :: lens). split_and!.
    + constructor; [exact Hds|done].
    + constructor; [|done]. simpl. reflexivity.
    + cbn [sum_list sum_list_with]. rewrite Hsum. simpl. lia.
    + cbn. rewrite Hc.
      set (s0 := start `min` n). set (s1 := (start + b) `min` n).
      set (s2 := (start + b + sum_list bs) `min` n).
      replace ((start + (b + sum_list bs)) `min` n) with s2 by (unfold s2; f_equal; lia).
      assert (s0 ≤ s1 ≤ s2) as Hle by (unfold s0, s1, s2; lia).
      replace (s1 * size_of sh) with (s0 * size_of sh + (s1 - s0) * size_of sh) by nia.
      rewrite <- drop_drop, take_take_drop. f_equal. nia.
Qed.
End clipped.

Section batch_run.
Context {W : Type} (wrapped : callable W (dict kwarg) pyout) (inst : instance).
Context (req0 : request) (rest : list request) (kwargs : dict kwarg) (bs : list nat).
Hypothesis Hkeys : ∀ r, r ∈ rest → keys_view r = keys_view req0.
Hypothesis Hmerge : mergeable (req0 :: rest) bs.

Lemma batch_run :
  ∃ new_kwargs, ∀ st,
    batch wrapped inst (req0 :: rest) kwargs st
    = (outs ← invoke wrapped new_kwargs;
       outs ← lift (convert_output outs wrapped inst None);
       lift (split_outputs outs (req0 :: rest) 0)) st.
Proof using Hkeys Hmerge.
  assert (existsb (λ req_dict2, bool_decide (keys_view req0 ≠ keys_view req_dict2)) rest
          = false) as Hchk.
  { destruct (existsb _ rest) eqn:E; [|done].
    apply keys_check_true in E as (r & Hin & Hr). by specialize (Hkeys r Hin). }
  destruct (merge_inputs_ok req0 rest bs Hkeys Hmerge (dict_keys req0) [])
    as (inputs & Hm & _); [done|].
  exists (dict_update kwargs (prod_map id KArray <$> inputs)). intros st.
  unfold batch. rewrite Hchk. unfold mbind, M_mbind, M_bind, lift. by rewrite Hm.
Qed.

(** X9: the split never raises on an output of unexpected length: for every
    output, the per-request slices concatenate to the first [b0 + b1 + ...]
    rows of the output, clipped to the rows the output has.  Rows beyond the
    requests' total are dropped and a shorter output gives shorter results. *)
Theorem batch_slices_cover_prefix :
  ∃ new_kwargs, ∀ st raw w' outs,
    call wrapped new_kwargs (world st) = (Ok raw, w') →
    convert_output raw wrapped inst None = Ok outs →
    (∀ k o, (k, o) ∈ outs → shape o ≠ []) →
    ∃ out_list,
      batch wrapped inst (req0 :: rest) kwargs st
        = (Ok out_list, RunState w' (calls st ++ [new_kwargs])) ∧
      ∀ name o, dict_get outs name = Some o →
        ∃ slices, Forall2 (λ d s, dict_get d name = Some s) out_list slices ∧
                  np_concatenate slices = np_slice0 o 0 (sum_list bs).
Proof using Hkeys Hmerge.
  destruct batch_run as [new_kwargs Hrun]. exists new_kwargs.
  intros st raw w' outs Hcall Hconv Hrank.
  destruct Hmerge as [Hbs _].
  destruct (split_outputs_ok outs Hrank (req0 :: rest) bs 0 Hbs)
    as (out_list & Hsplit & Hlen & _).
  exists out_list. split.
  - rewrite Hrun. unfold mbind, M_mbind, M_bind, lift, invoke.
    by rewrite Hcall, Hconv, Hsplit.
  - intros name o Ho.
    destruct (shape o) as [|n sh] eqn:Hsh.
    { exfalso. apply (Hrank name o); [by apply dict_get_Some_elem | done]. }
    destruct (split_outputs_concat_clipped outs Hrank (req0 :: rest) bs 0 out_list name o
                n sh Hbs Hsplit Ho Hsh) as (slices & lens & Hf1 & Hf2 & Hsum & Hc).
    exists slices. split; [done|].
    assert (slices ≠ []) as Hne.
    { intros ->. apply Forall2_length in Hf1. by rewrite Hlen in Hf1. }
    rewrite (np_concatenate_ok slices lens sh Hne Hf2).
    unfold np_slice0. rewrite Hsh. by rewrite Hsum, Hc.
Qed.

(** X10: an exception of the wrapped function is handed on unchanged, after
    this single invocation. *)
Theorem batch_propagates_exception (e : exn) (st : run_state W (dict kwarg)) :
  (∀ arg w, ∃ w', call wrapped arg w = (Raise e, w')) →
  ∃ st' new_kwargs,
    batch wrapped inst (req0 :: rest) kwargs st = (Raise e, st') ∧
    calls st' = calls st ++ [new_kwargs].
Proof using Hkeys Hmerge.
  intros Hraise. destruct batch_run as [new_kwargs Hrun].
  destruct (Hraise new_kwargs (world st)) as [w' Hcall].
  exists (RunState w' (calls st ++ [new_kwargs])), new_kwargs. split; [|done].
  rewrite Hrun. unfold mbind, M_mbind, M_bind, lift, invoke. by rewrite Hcall.
Qed.
End batch_run.

Lemma keys_x_3_1 (r : request) :
  r ∈ [[("x", x_1_2)]] → keys_view r = keys_view [("x", x_3_2)].
Proof. by intros ->%list_elem_of_singleton. Qed.

Lemma batch_slices_cover_prefix_witness :
  ∃ new_kwargs, ∀ st raw w' outs,
    call echo_outputs new_kwargs (world st) = (Ok raw, w') →
    convert_output raw echo_outputs None None = Ok outs →
    (∀ k o, (k, o) ∈ outs → shape o ≠ []) →
    ∃ out_list,
      batch echo_outputs None ([("x", x_3_2)] :: [[("x", x_1_2)]]) [] st
        = (Ok out_list, RunState w' (calls st ++ [new_kwargs])) ∧
      ∀ name o, dict_get outs name = Some o →
        ∃ slices, Forall2 (λ d s, dict_get d name = Some s) out_list slices ∧
                  np_concatenate slices = np_slice0 o 0 (sum_list [3; 1]).
Proof.
  apply (batch_slices_cover_prefix echo_outputs None [("x", x_3_2)] [[("x", x_1_2)]] []
           [3; 1] keys_x_3_1 mergeable_x_3_1).
Defined.

Lemma batch_propagates_exception_witness :
  ∃ st' new_kwargs,
    batch failing_model None ([("x", x_3_2)] :: [[("x", x_1_2)]]) [] kw_st0
      = (Raise (ValueError "failed"), st') ∧
    calls st' = calls kw_st0 ++ [new_kwargs].
Proof.
  apply (batch_propagates_exception failing_model None [("x", x_3_2)] [[("x", x_1_2)]] []
           [3; 1] keys_x_3_1 mergeable_x_3_1 (ValueError "failed") kw_st0).
  intros arg w. by exists w.
Defined.

End BatchMore.

(** ** More on [pad_batch] *)
Module PadBatchMore.
Import Py Np Decorators Spec Examples PyFacts NpFacts PadBatch MoreFacts.

Lemma padded_inputs_keys n target (inputs new_inputs : dict kwarg) :
  padded_inputs n target inputs new_inputs → dict_keys new_inputs = dict_keys inputs.
Proof.
  unfold dict_keys.
  induction 1 as [|[k v] [k' v'] inputs new_inputs [Hk _] _ IH]; [done|].
  cbn in *. by rewrite Hk, IH.
Qed.

Lemma without_context_keys (kwargs : dict kwarg) (k : string) :
  k ∈ dict_keys (without_context kwargs) → k ∈ dict_keys kwargs ∧ k ≠ CONTEXT_KEY.
Proof.
  unfold without_context.
  pose proof (dict_keys_filter (λ k, k ≠ CONTEXT_KEY) kwargs) as E.
  cbv beta in E. rewrite E. intros Hk. by apply list_elem_of_filter in Hk as [? ?].
Qed.

Section pad_more.
Context {W Ret : Type} (wrapped : callable W (dict kwarg) Ret) (inst : instance).
Context (config : TritonModelConfig) (kwargs : dict kwarg) (n : nat).

(** X11: a batch larger than the maximal batch size is not padded:
    [pad_batch] raises [IndexError] and the wrapped function is not
    invoked. *)
Theorem pad_batch_beyond_maximum (st : run_state W (dict kwarg)) :
  get_model_config wrapped inst = Ok config →
  valid_policy config →
  merged_batch kwargs n →
  (max_batch_size config < Z.of_nat n)%Z →
  pad_batch wrapped inst kwargs st
    = (Raise (IndexError "list index out of range"), st).
Proof.
  intros Hconfig Hpolicy (Hnd & Hne & Hall) Hmax.
  assert (∃ a0 sh0, first_value_of (without_context kwargs) = Ok (KArray a0)
                    ∧ shape a0 = n :: sh0) as (a0 & sh0 & Hfirst & Hsh0).
  { destruct (without_context kwargs) as [|[k0 v0] inputs]; [done|].
    destruct (Hall k0 v0) as (a0 & sh0 & -> & Hsh0 & _); [apply list_elem_of_here|].
    by exists a0, sh0. }
  assert (batch_sizes_of config !! bisect_left (batch_sizes_of config) (Z.of_nat n) = None)
    as Hlook.
  { destruct (bisect_left_spec (batch_sizes_of config) (Z.of_nat n)
                (batch_sizes_ascending config Hpolicy)) as (Hlen & _ & Hhi).
    destruct (batch_sizes_of config !! bisect_left (batch_sizes_of config) (Z.of_nat n))
      as [b|] eqn:E; [|done].
    exfalso. pose proof (Hhi _ b E (le_n _)) as Hb.
    assert (b ≤ max_batch_size config)%Z; [|lia].
    apply batch_sizes_le_max; [done|]. by eapply list_elem_of_lookup_2. }
  unfold pad_batch, mbind, M_mbind, M_bind, lift.
  rewrite Hfirst, Hconfig. cbn -[pad_inputs bisect_left batch_sizes_of].
  by rewrite Hsh0, Hlook.
Qed.

(** X12: [pad_batch] changes tensors only: the keyword arguments handed to
    the wrapped function have the names of the original ones, in the same
    order, and the context entry is the original one. *)
Theorem pad_batch_keeps_names (st : run_state W (dict kwarg)) :
  get_model_config wrapped inst = Ok config →
  valid_policy config →
  merged_batch kwargs n →
  1 ≤ n →
  (Z.of_nat n ≤ max_batch_size config)%Z →
  ∃ new_kwargs,
    pad_batch wrapped inst kwargs st = invoke wrapped new_kwargs st ∧
    dict_keys new_kwargs = dict_keys kwargs ∧
    dict_get new_kwargs CONTEXT_KEY = dict_get kwargs CONTEXT_KEY.
Proof.
  intros Hconfig Hpolicy Hbatch Hn Hmax.
  destruct (pad_batch_run wrapped inst config kwargs n Hconfig Hpolicy Hbatch Hn Hmax st)
    as (target & new_inputs & _ & Hrun & Hpad).
  destruct Hbatch as (Hnd & _ & _).
  pose proof (padded_inputs_keys _ _ _ _ Hpad) as Hkeys.
  exists (dict_update kwargs new_inputs). split; [done|]. split.
  - apply dict_keys_update_present. intros k Hk. rewrite Hkeys in Hk.
    by apply without_context_keys in Hk as [? _].
  - rewrite dict_get_update.
    + destruct (dict_get new_inputs CONTEXT_KEY) as [v|] eqn:E; [|done].
      exfalso. assert (CONTEXT_KEY ∈ dict_keys new_inputs) as Hin.
      { destruct (decide (CONTEXT_KEY ∈ dict_keys new_inputs)) as [|Hn']; [done|].
        apply dict_get_None in Hn'. congruence. }
      rewrite Hkeys in Hin. by apply without_context_keys in Hin as [_ ?].
    + rewrite Hkeys. by apply without_context_NoDup.
Qed.
End pad_more.

Lemma pad_input_not_array (batch_size : Z) (v : kwarg) :
  ¬ is_array v → ∃ e, pad_input batch_size v = Raise e.
Proof.
  intros Hv. destruct v as [a|z|z|c]; simpl; eauto. exfalso. apply Hv. by exists a.
Qed.

(** X13: only the key ["__triton_context__"] is set aside.  Any other
    keyword argument that is not a tensor, a context object under another
    name for instance, makes [pad_batch] raise, and the wrapped function is
    not invoked. *)
Theorem pad_batch_rejects_non_tensor {W Ret} (wrapped : callable W (dict kwarg) Ret)
    (inst : instance) (kwargs : dict kwarg) (k : string) (v : kwarg)
    (st : run_state W (dict kwarg)) :
  (k, v) ∈ kwargs → k ≠ CONTEXT_KEY → ¬ is_array v →
  ∃ e, pad_batch wrapped inst kwargs st = (Raise e, st).
Proof.
  intros Hin Hk Hv.
  assert ((k, v) ∈ without_context kwargs) as Hin'.
  { unfold without_context. by apply list_elem_of_filter. }
  assert (∀ b, ∃ e, pad_inputs b (without_context kwargs) = Raise e) as Hpad.
  { intros b. destruct (pad_input_not_array b v Hv) as [e He].
    unfold pad_inputs.
    eapply (mapM_stops _ _ (k, v) e); [done|]. simpl. by rewrite He. }
  unfold pad_batch, mbind, M_mbind, M_bind, lift.
  destruct (first_value_of (without_context kwargs)) as [first_input|e]; [|eauto].
  destruct (get_model_config wrapped inst) as [config|e]; [|eauto].
  cbn -[pad_inputs bisect_left batch_sizes_of].
  destruct (kw_shape first_input) as [sh|e]; [|eauto].
  cbn -[pad_inputs bisect_left batch_sizes_of].
  destruct sh as [|n0 sh]; [eauto|].
  cbn -[pad_inputs bisect_left batch_sizes_of].
  destruct (batch_sizes_of config !! bisect_left (batch_sizes_of config) (Z.of_nat n0))
    as [b|]; [|eauto].
  cbn -[pad_inputs bisect_left batch_sizes_of].
  destruct (Hpad b) as [e ->]. eauto.
Qed.

Lemma pad_batch_beyond_maximum_witness :
  pad_batch echo_kwargs None [("x", KArray x_9_1)] st0
    = (Raise (IndexError "list index out of range"), st0).
Proof.
  apply (pad_batch_beyond_maximum echo_kwargs None config_4_8 [("x", KArray x_9_1)] 9 st0).
  - reflexivity.
  - apply valid_policy_config_4_8.
  - by apply (merged_batch_single x_9_1 9 [1]).
  - simpl. lia.
Defined.

Lemma pad_batch_keeps_names_witness :
  ∃ new_kwargs,
    pad_batch echo_kwargs None [("x", KArray x_3_2)] st0 = invoke echo_kwargs new_kwargs st0 ∧
    dict_keys new_kwargs = dict_keys [("x", KArray x_3_2)] ∧
    dict_get new_kwargs CONTEXT_KEY = dict_get [("x", KArray x_3_2)] CONTEXT_KEY.
Proof.
  apply (pad_batch_keeps_names echo_kwargs None config_4_8 [("x", KArray x_3_2)] 3 st0).
  - reflexivity.
  - apply valid_policy_config_4_8.
  - by apply (merged_batch_single x_3_2 3 [2]).
  - lia.
  - simpl. lia.
Defined.

Lemma pad_batch_rejects_non_tensor_witness :
  ∃ e, pad_batch echo_kwargs None
         [("x", KArray x_3_2); ("triton_context", KContext {| model_config := config_4_8 |})]
         st0 = (Raise e, st0).
Proof.
  apply (pad_batch_rejects_non_tensor echo_kwargs None
           [("x", KArray x_3_2); ("triton_context", KContext {| model_config := config_4_8 |})]
           "triton_context" (KContext {| model_config := config_4_8 |}) st0).
  - apply list_elem_of_further, list_elem_of_here.
  - discriminate.
  - intros [a Ha]. discriminate.
Defined.

End PadBatchMore.

(** ** More on [fill_optionals] *)
Module FillOptionalsMore.
Import Py Np Decorators Spec Examples PyFacts NpFacts FillOptionals MoreFacts.

Lemma fill_defaults_present (defaults : dict ndarray) (default_keys : list string)
    (batch_size : nat) (req : request) :
  (∀ k, k ∈ default_keys → k ∈ dict_keys req) →
  fill_defaults defaults default_keys batch_size req = Ok req.
Proof.
  induction default_keys as [|k keys IH]; intros Hall; [done|].
  cbn [fill_defaults].
  rewrite (proj2 (dict_contains_true req k)) by (apply Hall, list_elem_of_here).
  simpl. apply IH. intros k' Hk'. by apply Hall, list_elem_of_further.
Qed.

Lemma fill_request_keys (defaults : dict ndarray) (req req' : request) :
  fill_request defaults req = Ok req' →
  req ≠ [] ∧ first_value_of req' = first_value_of req ∧
  ∀ k, k ∈ dict_keys req' ↔ k ∈ dict_keys req ∨ k ∈ dict_keys defaults.
Proof.
  unfold fill_request. destruct (first_value_of req) as [a|] eqn:Ha; simpl; [|done].
  destruct (shape0 a) as [b|] eqn:Hb; simpl; [|done].
  destruct (fill_defaults_spec defaults (dict_keys defaults) b req) as (added & Hf & Hk & Hfill);
    [done|].
  rewrite Hf. intros [= <-].
  assert (req ≠ []) as Hne by (by destruct req).
  split; [done|]. split.
  - destruct req as [|[k0 v0] req]; [done|]. done.
  - intros k. rewrite dict_keys_app, elem_of_app. split.
    + intros [?|Hin]; [by left|]. right. by apply Hk.
    + intros [?|Hin]; [by left|].
      destruct (decide (k ∈ dict_keys req)) as [|Hn]; [by left|].
      destruct (Hfill k Hin Hn) as (val & _ & Hget).
      rewrite dict_get_app in Hget. apply dict_get_None in Hn. rewrite Hn in Hget.
      right. destruct (decide (k ∈ dict_keys added)) as [|Hn']; [done|].
      apply dict_get_None in Hn'. congruence.
Qed.

(** Filling a filled request changes nothing. *)
Lemma fill_request_idempotent (defaults : dict ndarray) (req req' : request) :
  fill_request defaults req = Ok req' → fill_request defaults req' = Ok req'.
Proof.
  intros Hf. destruct (fill_request_keys defaults req req' Hf) as (Hne & Hfirst & Hkeys).
  unfold fill_request in *. rewrite Hfirst.
  destruct (first_value_of req) as [a|]; simpl in *; [|done].
  destruct (shape0 a) as [b|]; simpl in *; [|done].
  apply fill_defaults_present. intros k Hk. apply Hkeys. by right.
Qed.

Section fill_more.
Context {W Ret : Type} (defaults : dict ndarray).
Context (wrapped : callable W (list request) Ret).

Lemma fill_requests_idempotent (req_list filled : list request) :
  fill_requests defaults req_list = (filled, None) →
  fill_requests defaults filled = (filled, None).
Proof.
  revert filled. induction req_list as [|req rest IH]; intros filled; simpl.
  - by intros [= <-].
  - destruct (fill_request defaults req) as [req'|e] eqn:Hr; [|done].
    destruct (fill_requests defaults rest) as [rest' e'] eqn:Hrest.
    intros [= <- ->]. simpl.
    rewrite (fill_request_idempotent defaults req req' Hr).
    by rewrite (IH rest' eq_refl).
Qed.

(** X14: [fill_optionals] is idempotent: the requests it hands to the
    wrapped stage are handed on unchanged by a second [fill_optionals] with
    the same defaults. *)
Theorem fill_optionals_idempotent (req_list : list request) (bs : list nat)
    (st st2 : run_state W (list request)) :
  Forall2 first_batch_size req_list bs →
  ∃ filled,
    (fill_optionals defaults wrapped req_list st).1.2 = filled ∧
    calls (fill_optionals defaults wrapped req_list st).2 = calls st ++ [filled] ∧
    (fill_optionals defaults wrapped filled st2).1.2 = filled ∧
    calls (fill_optionals defaults wrapped filled st2).2 = calls st2 ++ [filled].
Proof.
  intros Hbs.
  destruct (fill_requests_ok defaults req_list bs Hbs) as (filled & Hf & _).
  pose proof (fill_requests_idempotent req_list filled Hf) as Hf2.
  exists filled. unfold fill_optionals. rewrite Hf, Hf2. unfold invoke.
  destruct (call wrapped filled (world st)), (call wrapped filled (world st2)). done.
Qed.

(** X15: after filling, every request has its own input names and all the
    default names, so requests that differed only in default names have the
    same key set. *)
Theorem fill_optionals_unifies_key_sets (req_list : list request) (bs : list nat)
    (st : run_state W (list request)) :
  Forall2 first_batch_size req_list bs →
  Forall2 (λ req req', keys_view req' = keys_view req ∪ keys_view defaults)
    req_list (fill_optionals defaults wrapped req_list st).1.2.
Proof.
  intros Hbs.
  destruct (fill_requests_ok defaults req_list bs Hbs) as (filled & Hf & _).
  assert ((fill_optionals defaults wrapped req_list st).1.2 = filled) as ->.
  { unfold fill_optionals. rewrite Hf. unfold invoke.
    by destruct (call wrapped filled (world st)). }
  clear Hbs. revert filled Hf. induction req_list as [|req rest IH]; intros filled; simpl.
  - intros [= <-]. constructor.
  - destruct (fill_request defaults req) as [req'|e] eqn:Hr; [|done].
    destruct (fill_requests defaults rest) as [rest' e'] eqn:Hrest.
    intros [= <- ->]. constructor; [|by apply IH].
    destruct (fill_request_keys defaults req req' Hr) as (_ & _ & Hkeys).
    apply set_eq. intros k. rewrite elem_of_union, !keys_view_elem. apply Hkeys.
Qed.

(** X16: a request without inputs stops [fill_optionals] with
    [StopIteration] before the wrapped stage is invoked; the requests before
    it have already been filled, it and the later ones are as they were. *)
Theorem fill_optionals_empty_request (before after : list request) (bs : list nat)
    (st : run_state W (list request)) :
  Forall2 first_batch_size before bs →
  ∃ filled,
    fill_requests defaults before = (filled, None) ∧
    fill_optionals defaults wrapped (before ++ [] :: after) st
      = ((Raise StopIteration, filled ++ [] :: after), st).
Proof.
  intros Hbs.
  destruct (fill_requests_ok defaults before bs Hbs) as (filled & Hf & _).
  exists filled. split; [done|]. unfold fill_optionals.
  assert (fill_requests defaults (before ++ [] :: after)
          = (filled ++ [] :: after, Some StopIteration)) as ->; [|done].
  clear Hbs. revert filled Hf. induction before as [|req rest IH]; intros filled; simpl.
  - by intros [= <-].
  - destruct (fill_request defaults req) as [req'|e] eqn:Hr; [|done].
    destruct (fill_requests defaults rest) as [rest' e'] eqn:Hrest.
    intros [= <- ->]. by rewrite (IH rest' eq_refl).
Qed.
End fill_more.

Lemma first_batch_size_x_3_2 : Forall2 first_batch_size [[("x", x_3_2)]] [3].
Proof. repeat constructor. by exists x_3_2. Qed.

Lemma fill_optionals_idempotent_witness :
  ∃ filled,
    (fill_optionals [("d", default_d)] id_stage [[("x", x_3_2)]] list_st0).1.2 = filled ∧
    calls (fill_optionals [("d", default_d)] id_stage [[("x", x_3_2)]] list_st0).2
      = calls list_st0 ++ [filled] ∧
    (fill_optionals [("d", default_d)] id_stage filled list_st0).1.2 = filled ∧
    calls (fill_optionals [("d", default_d)] id_stage filled list_st0).2
      = calls list_st0 ++ [filled].
Proof.
  apply (fill_optionals_idempotent [("d", default_d)] id_stage [[("x", x_3_2)]] [3]
           list_st0 list_st0).
  apply first_batch_size_x_3_2.
Defined.

Lemma fill_optionals_unifies_key_sets_witness :
  Forall2 (λ req req', keys_view req' = keys_view req ∪ keys_view [("d", default_d)])
    [[("x", x_3_2)]]
    (fill_optionals [("d", default_d)] id_stage [[("x", x_3_2)]] list_st0).1.2.
Proof.
  apply (fill_optionals_unifies_key_sets [("d", default_d)] id_stage [[("x", x_3_2)]] [3]
           list_st0).
  apply first_batch_size_x_3_2.
Defined.

Lemma fill_optionals_empty_request_witness :
  ∃ filled,
    fill_requests [("d", default_d)] [[("x", x_3_2)]] = (filled, None) ∧
    fill_optionals [("d", default_d)] id_stage ([[("x", x_3_2)]] ++ [] :: [[("x", x_1_2)]])
      list_st0
      = ((Raise StopIteration, filled ++ [] :: [[("x", x_1_2)]]), list_st0).
Proof.
  apply (fill_optionals_empty_request [("d", default_d)] id_stage [[("x", x_3_2)]]
           [[("x", x_1_2)]] [3] list_st0).
  apply first_batch_size_x_3_2.
Defined.

End FillOptionalsMore.

(** ** More on [first_value] *)
Module FirstValueMore.
Import Py Np Decorators Spec Examples PyFacts NpFacts PadBatch FirstValue MoreFacts PadBatchMore.

Lemma first_value_loop_step (key : string) (keys : list string) (inputs inputs' : dict kwarg) :
  first_value_loop (key :: keys) inputs = Ok inputs' →
  key ∈ dict_keys inputs ∧
  ∃ res, first_value_loop keys (dict_set inputs key res) = Ok inputs'.
Proof.
  cbn [first_value_loop]. unfold dict_getitem.
  destruct (dict_get inputs key) as [v|] eqn:Hv; simpl; [|done].
  assert (key ∈ dict_keys inputs) as Hin.
  { destruct (decide (key ∈ dict_keys inputs)) as [|Hn]; [done|].
    apply dict_get_None in Hn. congruence. }
  destruct (kw_getitem0 v) as [res|]; simpl; [|done].
  destruct (kw_shape res) as [sh|]; simpl; [|done].
  destruct (py_max sh) as [m|]; simpl; [|done].
  destruct (bool_decide (m = 1)).
  - destruct (kw_flatten_item res) as [res'|]; simpl; [|done]. eauto.
  - simpl. eauto.
Qed.

Lemma first_value_loop_frame (keys : list string) (inputs inputs' : dict kwarg) :
  first_value_loop keys inputs = Ok inputs' →
  dict_keys inputs' = dict_keys inputs ∧
  (∀ k, k ∈ keys → k ∈ dict_keys inputs) ∧
  (∀ k, k ∉ keys → dict_get inputs' k = dict_get inputs k).
Proof.
  revert inputs. induction keys as [|key keys IH]; intros inputs Hloop.
  - injection Hloop as <-. split; [done|]. split; [|done].
    intros k Hk. by apply elem_of_nil in Hk.
  - apply first_value_loop_step in Hloop as (Hkey & res & Hloop).
    destruct (IH _ Hloop) as (Hkeys & Hin & Hout).
    assert (dict_keys (dict_set inputs key res) = dict_keys inputs) as Hset.
    { rewrite dict_keys_set. by rewrite (proj2 (dict_contains_true inputs key)). }
    split_and!.
    + by rewrite Hkeys.
    + intros k [->|Hk]%elem_of_cons; [done|]. rewrite <- Hset. by apply Hin.
    + intros k [Hne Hk]%not_elem_of_cons. rewrite (Hout k Hk), dict_get_set.
      by rewrite decide_False.
Qed.

Section first_value_more.
Context {W Ret : Type} (wrapped : callable W (dict kwarg) Ret).
Context (keys : list string) (kwargs : dict kwarg).

(** X17: [first_value] touches the selected keys only: the wrapped function
    receives keyword arguments with the original names, in the original
    order, and with the original value under every key that is not
    selected. *)
Theorem first_value_frame (inputs' : dict kwarg) (st : run_state W (dict kwarg)) :
  NoDup (dict_keys kwargs) →
  first_value_loop keys (without_context kwargs) = Ok inputs' →
  ∃ new_kwargs,
    first_value keys wrapped kwargs st = invoke wrapped new_kwargs st ∧
    dict_keys new_kwargs = dict_keys kwargs ∧
    ∀ k, k ∉ keys → dict_get new_kwargs k = dict_get kwargs k.
Proof.
  intros Hnd Hloop.
  destruct (first_value_loop_frame _ _ _ Hloop) as (Hkeys & _ & Hout).
  exists (dict_update kwargs inputs'). split_and!.
  - unfold first_value, mbind, M_mbind, M_bind, lift. by rewrite Hloop.
  - apply dict_keys_update_present. intros k Hk. rewrite Hkeys in Hk.
    by apply without_context_keys in Hk as [? _].
  - intros k Hk. rewrite dict_get_update by (rewrite Hkeys; by apply without_context_NoDup).
    rewrite (Hout k Hk).
    destruct (dict_get (without_context kwargs) k) as [v|] eqn:E; [|done].
    assert (k ∈ dict_keys (without_context kwargs)) as Hin.
    { destruct (decide (k ∈ dict_keys (without_context kwargs))) as [|Hn]; [done|].
      apply dict_get_None in Hn. congruence. }
    apply without_context_keys in Hin as [_ Hne].
    by rewrite <- E, dict_get_without_context.
Qed.

(** X18: a selected key that is not among the inputs, the context key
    included, makes [first_value] raise, and the wrapped function is not
    invoked. *)
Theorem first_value_missing_key (k : string) (st : run_state W (dict kwarg)) :
  k ∈ keys → k ∉ dict_keys (without_context kwargs) →
  ∃ e, first_value keys wrapped kwargs st = (Raise e, st).
Proof.
  intros Hk Hmiss. unfold first_value, mbind, M_mbind, M_bind, lift.
  destruct (first_value_loop keys (without_context kwargs)) as [inputs'|e] eqn:Hloop;
    [|eauto].
  destruct (first_value_loop_frame _ _ _ Hloop) as (_ & Hin & _).
  by specialize (Hin k Hk).
Qed.
End first_value_more.

Lemma NoDup_t_x : NoDup (dict_keys [("t", KArray t_2_1); ("x", KArray x_3_2)]).
Proof.
  apply NoDup_cons. split; [|apply NoDup_singleton].
  intros H%list_elem_of_singleton. discriminate.
Qed.

Lemma first_value_frame_witness :
  ∃ new_kwargs,
    first_value ["t"] echo_kwargs [("t", KArray t_2_1); ("x", KArray x_3_2)] st0
      = invoke echo_kwargs new_kwargs st0 ∧
    dict_keys new_kwargs = dict_keys [("t", KArray t_2_1); ("x", KArray x_3_2)] ∧
    ∀ k, k ∉ ["t"] →
         dict_get new_kwargs k = dict_get [("t", KArray t_2_1); ("x", KArray x_3_2)] k.
Proof.
  apply (first_value_frame echo_kwargs ["t"] [("t", KArray t_2_1); ("x", KArray x_3_2)]
           [("t", KScalar 5); ("x", KArray x_3_2)] st0).
  - apply NoDup_t_x.
  - reflexivity.
Defined.

Lemma first_value_missing_key_witness :
  ∃ e, first_value ["t"] echo_kwargs [("x", KArray x_3_2)] st0 = (Raise e, st0).
Proof.
  apply (first_value_missing_key echo_kwargs ["t"] [("x", KArray x_3_2)] "t" st0).
  - apply list_elem_of_here.
  - intros H%list_elem_of_singleton. discriminate.
Defined.

End FirstValueMore.

(** ** [sample] *)
Module Sample.
Import Py Np Decorators Spec Examples PyFacts NpFacts Batch MoreFacts.

Lemma merge_inputs_single (pre suf : request) :
  NoDup (dict_keys (pre ++ suf)) →
  (∀ k a, (k, a) ∈ suf → shape a ≠ []) →
  merge_inputs (dict_keys suf) [pre ++ suf] pre = Ok (pre ++ suf).
Proof.
  revert pre. induction suf as [|[k a] suf IH]; intros pre Hnd Hrank.
  - by rewrite app_nil_r.
  - cbn [dict_keys map fst merge_inputs]. unfold concat_input. cbn [mapM].
    unfold dict_getitem at 1.
    rewrite (dict_get_elem (pre ++ (k, a) :: suf) k a Hnd)
      by (apply elem_of_app; right; apply list_elem_of_here).
    cbv [mbind result_mbind result_bind mret result_mret].
    rewrite np_concatenate_single by (apply (Hrank k), list_elem_of_here).
    assert (k ∉ dict_keys pre) as Hk.
    { rewrite dict_keys_app in Hnd. apply NoDup_app in Hnd as (_ & Hd & _).
      intros Hin. apply (Hd _ Hin). simpl. apply list_elem_of_here. }
    rewrite dict_set_fresh by done.
    replace (pre ++ (k, a) :: suf) with ((pre ++ [(k, a)]) ++ suf)
      by (by rewrite <- app_assoc).
    apply IH.
    + by rewrite <- app_assoc.
    + intros k' a' Hin. apply (Hrank k'). by apply list_elem_of_further.
Qed.

Section sample.
Context {W : Type} (wrapped : callable W (dict kwarg) pyout) (inst : instance).

(** X19: [sample] invokes the wrapped function exactly once, whatever the
    requests after the first are: the keyword arguments are the first
    request's tensors, which override given arguments of the same name, and
    the other given arguments.  What it returns on success is a list of one
    mapping. *)
Theorem sample_uses_first_request (req0 : request) (rest : list request)
    (kwargs : dict kwarg) (st : run_state W (dict kwarg)) :
  NoDup (dict_keys req0) →
  ∃ new_kwargs r st',
    sample wrapped inst (req0 :: rest) kwargs st = (r, st') ∧
    calls st' = calls st ++ [new_kwargs] ∧
    (∀ k a, dict_get req0 k = Some a → dict_get new_kwargs k = Some (KArray a)) ∧
    (∀ k, k ∉ dict_keys req0 → dict_get new_kwargs k = dict_get kwargs k) ∧
    (∀ out_list, r = Ok out_list → length out_list = 1).
Proof.
  intros Hnd. exists (dict_update kwargs (prod_map id KArray <$> req0)).
  unfold sample, mbind, M_mbind, M_bind, lift, invoke.
  destruct (call wrapped _ (world st)) as [[raw|e] w'] eqn:Hcall.
  - destruct (convert_output raw wrapped inst None) as [outs|e] eqn:Hconv.
    + eexists _, _. split; [done|]. split; [done|]. split_and!.
      * intros k a Hk. rewrite dict_get_update by (by rewrite dict_keys_fmap_snd).
        by rewrite dict_get_fmap_snd, Hk.
      * intros k Hk. rewrite dict_get_update by (by rewrite dict_keys_fmap_snd).
        rewrite dict_get_fmap_snd. apply dict_get_None in Hk. by rewrite Hk.
      * by intros out_list [= <-].
    + eexists _, _. split; [done|]. split; [done|]. split_and!.
      * intros k a Hk. rewrite dict_get_update by (by rewrite dict_keys_fmap_snd).
        by rewrite dict_get_fmap_snd, Hk.
      * intros k Hk. rewrite dict_get_update by (by rewrite dict_keys_fmap_snd).
        rewrite dict_get_fmap_snd. apply dict_get_None in Hk. by rewrite Hk.
      * done.
  - eexists _, _. split; [done|]. split; [done|]. split_and!.
    + intros k a Hk. rewrite dict_get_update by (by rewrite dict_keys_fmap_snd).
      by rewrite dict_get_fmap_snd, Hk.
    + intros k Hk. rewrite dict_get_update by (by rewrite dict_keys_fmap_snd).
      rewrite dict_get_fmap_snd. apply dict_get_None in Hk. by rewrite Hk.
    + done.
Qed.

(** X20: on a single request whose tensors have [b] rows, [batch] is
    [sample] followed by cutting every output to its first [b] rows: both
    invoke the wrapped function with the same keyword arguments, both hand
    on the same exception, and where [sample] returns the outputs, [batch]
    returns their rows [0 .. b). *)
Theorem batch_of_one_request_is_sample (req0 : request) (kwargs : dict kwarg) (b : nat)
    (st : run_state W (dict kwarg)) :
  NoDup (dict_keys req0) → has_batch_size req0 b →
  ∃ r st',
    sample wrapped inst [req0] kwargs st = (r, st') ∧
    match r with
    | Raise e => batch wrapped inst [req0] kwargs st = (Raise e, st')
    | Ok out_list =>
        ∃ outs, out_list = [outs] ∧
          ((∀ k o, (k, o) ∈ outs → shape o ≠ []) →
           ∃ d, batch wrapped inst [req0] kwargs st = (Ok [d], st') ∧
                slices_at outs 0 b d)
    end.
Proof.
  intros Hnd Hbs.
  assert (merge_inputs (dict_keys req0) [req0] [] = Ok req0) as Hm.
  { apply (merge_inputs_single [] req0); [done|].
    intros k a Hin Hsh. destruct Hbs as [_ Hall].
    destruct (Hall k a Hin) as [sh Hs]. congruence. }
  unfold sample, batch. cbn [existsb].
  unfold mbind, M_mbind, M_bind, lift, invoke. rewrite Hm.
  destruct (call wrapped _ (world st)) as [[raw|e] w'] eqn:Hcall.
  - destruct (convert_output raw wrapped inst None) as [outs|e] eqn:Hconv.
    + eexists _, _. split; [done|]. exists outs. split; [done|].
      intros Hrank.
      destruct (split_outputs_ok outs Hrank [req0] [b] 0) as (out_list & Hs & Hlen & Hidx).
      { constructor; [done|constructor]. }
      destruct out_list as [|d [|]]; [done| |done].
      exists d. rewrite Hs. split; [done|].
      by apply (Hidx 0 d b).
    + by eexists _, _.
  - by eexists _, _.
Qed.
End sample.

Lemma sample_uses_first_request_witness :
  ∃ new_kwargs r st',
    sample echo_outputs None ([("x", x_3_2)] :: [[("x", x_1_2)]]) [] kw_st0 = (r, st') ∧
    calls st' = calls kw_st0 ++ [new_kwargs] ∧
    (∀ k a, dict_get [("x", x_3_2)] k = Some a → dict_get new_kwargs k = Some (KArray a)) ∧
    (∀ k, k ∉ dict_keys [("x", x_3_2)] → dict_get new_kwargs k = dict_get [] k) ∧
    (∀ out_list, r = Ok out_list → length out_list = 1).
Proof.
  apply (sample_uses_first_request echo_outputs None [("x", x_3_2)] [[("x", x_1_2)]] []
           kw_st0).
  apply NoDup_singleton.
Defined.

Lemma batch_of_one_request_is_sample_witness :
  ∃ r st',
    sample echo_outputs None [[("x", x_3_2)]] [] kw_st0 = (r, st') ∧
    match r with
    | Raise e => batch echo_outputs None [[("x", x_3_2)]] [] kw_st0 = (Raise e, st')
    | Ok out_list =>
        ∃ outs, out_list = [outs] ∧
          ((∀ k o, (k, o) ∈ outs → shape o ≠ []) →
           ∃ d, batch echo_outputs None [[("x", x_3_2)]] [] kw_st0 = (Ok [d], st') ∧
                slices_at outs 0 3 d)
    end.
Proof.
  apply (batch_of_one_request_is_sample echo_outputs None [("x", x_3_2)] [] 3 kw_st0).
  - apply NoDup_singleton.
  - split; [done|]. intros k a Hin. apply list_elem_of_singleton in Hin.
    injection Hin as -> ->. by exists [2].
Defined.

End Sample.

(** ** [triton_context] *)
Module TritonContextFacts.
Import Py Np Decorators Spec Examples PyFacts.

Section triton_context.
Context {W Ret : Type} (wrapped : callable W (dict kwarg) Ret).
Context (field_name : string) (kwargs : dict kwarg).

(** X21: [triton_context] takes the context from the instance the wrapped
    function is bound to when there is one and it is truthy, and from the
    wrapped function otherwise ([instance or wrapped]).  A truthy instance
    without a context makes it raise a validation error even if the wrapped
    function carries one, and so does a wrapped function without a context
    when there is no instance or a falsy one; the wrapped function is then
    not invoked.  Otherwise the wrapped function is invoked once with that
    context under the field name, in place of a given argument of that name
    if there is one and else as the last argument, and with every other
    argument as given. *)
Theorem triton_context_injects (st : run_state W (dict kwarg)) :
  let raises inst :=
    ∃ msg, triton_context field_name wrapped inst kwargs st
           = (Raise (PytritonValidationError msg), st) in
  let injects inst ctx :=
    ∃ new_kwargs,
      triton_context field_name wrapped inst kwargs st = invoke wrapped new_kwargs st ∧
      dict_get new_kwargs field_name = Some (KContext ctx) ∧
      (∀ k, k ≠ field_name → dict_get new_kwargs k = dict_get kwargs k) ∧
      dict_keys new_kwargs
        = if dict_contains kwargs field_name then dict_keys kwargs
          else dict_keys kwargs ++ [field_name] in
  let no_truthy_instance inst := inst = None ∨ ∃ attr, inst = Some (false, attr) in
  raises (Some (true, None)) ∧
  (∀ inst, no_truthy_instance inst → triton_context_attr wrapped = None → raises inst) ∧
  (∀ ctx, injects (Some (true, Some ctx)) ctx) ∧
  (∀ inst ctx, no_truthy_instance inst → triton_context_attr wrapped = Some ctx →
               injects inst ctx).
Proof.
  assert (∀ inst ctx, get_triton_context wrapped inst = Ok ctx →
            ∃ new_kwargs,
              triton_context field_name wrapped inst kwargs st
                = invoke wrapped new_kwargs st ∧
              dict_get new_kwargs field_name = Some (KContext ctx) ∧
              (∀ k, k ≠ field_name → dict_get new_kwargs k = dict_get kwargs k) ∧
              dict_keys new_kwargs
                = if dict_contains kwargs field_name then dict_keys kwargs
                  else dict_keys kwargs ++ [field_name]) as Hinj.
  { intros inst ctx Hctx. unfold triton_context, mbind, M_mbind, M_bind, lift.
    rewrite Hctx. eexists. split; [done|]. split_and!.
    - rewrite dict_get_set. by rewrite decide_True.
    - intros k Hk. rewrite dict_get_set. by rewrite decide_False.
    - apply dict_keys_set. }
  cbv zeta. split_and!.
  - by eexists.
  - intros inst Hinst Hattr.
    unfold triton_context, mbind, M_mbind, M_bind, lift, get_triton_context.
    destruct Hinst as [->|[attr ->]]; rewrite Hattr; by eexists.
  - intros ctx. by apply Hinj.
  - intros inst ctx Hinst Hattr. apply Hinj. unfold get_triton_context.
    by destruct Hinst as [->|[attr ->]]; rewrite Hattr.
Qed.
End triton_context.

(** A method of a truthy object without a context, wrapping a function that
    carries one; and a method of a falsy object without a context, wrapping
    the same function. *)
Lemma triton_context_injects_witness :
  (∃ msg, triton_context "triton_context" echo_kwargs (Some (true, None)) [] st0
          = (Raise (PytritonValidationError msg), st0)) ∧
  (∃ new_kwargs,
     triton_context "triton_context" echo_kwargs (Some (false, None)) [] st0
       = invoke echo_kwargs new_kwargs st0 ∧
     dict_get new_kwargs "triton_context"
       = Some (KContext {| model_config := config_4_8 |})).
Proof.
  destruct (triton_context_injects echo_kwargs "triton_context" [] st0)
    as (Hraise & _ & _ & Hinj).
  split; [done|].
  destruct (Hinj (Some (false, None)) {| model_config := config_4_8 |})
    as (new_kwargs & Hrun & Hget & _); [right; by eexists | done |].
  by exists new_kwargs.
Defined.

End TritonContextFacts.

(** ** [convert_output] with repeated output names *)
Module ConvertOutputMore.
Import Py Np Decorators Spec Examples PyFacts MoreFacts.

Section convert_output_more.
Context {W Arg Ret : Type} (wrapped : callable W Arg Ret) (inst : instance).

(** X22: when the configuration declares an output name more than once,
    [convert_output] keeps, for each name, the last element of the list or
    tuple that is paired with it: the mapping has one entry per distinct
    declared name and the earlier elements are dropped. *)
Theorem convert_output_last_wins (outs : pyout) (mc : option TritonModelConfig)
    (c : TritonModelConfig) (l : list ndarray) :
  resolve_config wrapped inst mc = Ok c →
  is_sequence outs l → length l = length (outputs c) →
  ∃ d, convert_output outs wrapped inst mc = Ok d ∧
       NoDup (dict_keys d) ∧
       keys_view d = list_to_set (name <$> outputs c) ∧
       ∀ i o x, outputs c !! i = Some o → l !! i = Some x →
                (∀ j o', i < j → outputs c !! j = Some o' → name o' ≠ name o) →
                dict_get d (name o) = Some x.
Proof.
  intros Hc Hseq Hlen. unfold resolve_config in Hc.
  assert (dict_keys (zip (name <$> outputs c) l) = name <$> outputs c) as Hk
    by (apply zip_keys; by rewrite length_fmap).
  exists (dict_of_pairs (zip (name <$> outputs c) l)). split_and!.
  - destruct Hseq as [-> | ->]; simpl; rewrite Hc; simpl;
      by rewrite bool_decide_false by (by intros ?).
  - apply dict_update_NoDup. constructor.
  - apply set_eq. intros k. unfold dict_of_pairs.
    rewrite keys_view_elem, elem_of_list_to_set, dict_keys_update_elem, Hk.
    split; [|by right]. intros [H|H]; [|done]. by apply elem_of_nil in H.
  - intros i o x Ho Hx Hlast. unfold dict_of_pairs.
    apply (dict_get_update_last _ _ i).
    + apply zip_lookup; [by rewrite list_lookup_fmap, Ho | done].
    + intros j k' v' Hij Hj.
      assert (dict_keys (zip (name <$> outputs c) l) !! j = Some k') as Hkj.
      { unfold dict_keys. by rewrite list_lookup_fmap, Hj. }
      rewrite Hk, list_lookup_fmap in Hkj.
      destruct (outputs c !! j) as [o'|] eqn:Ho'; [|done].
      injection Hkj as <-. by apply (Hlast j).
Qed.
End convert_output_more.

Lemma convert_output_last_wins_witness :
  ∃ d, convert_output (OutList [y_1; z_1]) echo_outputs None (Some config_y_y) = Ok d ∧
       NoDup (dict_keys d) ∧
       keys_view d = list_to_set (name <$> outputs config_y_y) ∧
       ∀ i o x, outputs config_y_y !! i = Some o → [y_1; z_1] !! i = Some x →
                (∀ j o', i < j → outputs config_y_y !! j = Some o' → name o' ≠ name o) →
                dict_get d (name o) = Some x.
Proof.
  apply (convert_output_last_wins echo_outputs None (OutList [y_1; z_1])
           (Some config_y_y) config_y_y [y_1; z_1]).
  - reflexivity.
  - by left.
  - reflexivity.
Defined.

End ConvertOutputMore.
